(** * serialrw.js: SerialReader / SerialWriter

    A shallow embedding of [src/serialrw.js] and the properties of its wire
    format: fixed-width big-endian scalars, the variable-length integers
    ([wuv]/[ruv], [wiv]/[riv]), length-prefixed byte runs and the growth of
    the writer's backing store.

    JavaScript values are modelled as follows.
    - Numbers that the code treats as integers are [Z]; the 32-bit
      conversions of the bit operators are written out in [JS].
    - An [ArrayBuffer] is an object with identity: a location in a heap of
      byte lists, so that copies and aliases can be told apart.
    - A method is a state transformer over the heap and [this] that ends in a
      completion: a value or a thrown exception. *)

From Stdlib Require Import ZArith Lia.
From stdpp Require Import gmap list.

Local Open Scope Z_scope.

(** ** Numbers *)

Module JS.

Definition ToInt32 (x : Z) : Z := (x + 2 ^ 31) mod 2 ^ 32 - 2 ^ 31.
Definition ToUint32 (x : Z) : Z := x mod 2 ^ 32.
Definition ToUint8 (x : Z) : Z := x mod 256.

(** [a << b] *)
Definition shl (a b : Z) : Z :=
  ToInt32 (Z.shiftl (ToInt32 a) (ToUint32 b mod 32)).
(** [a >>> b] *)
Definition ushr (a b : Z) : Z :=
  Z.shiftr (ToUint32 a) (ToUint32 b mod 32).
(** [a | b] *)
Definition bor (a b : Z) : Z := Z.lor (ToInt32 a) (ToInt32 b).
(** [a & b] *)
Definition band (a b : Z) : Z := Z.land (ToInt32 a) (ToInt32 b).
(** [~a] *)
Definition bnot (a : Z) : Z := Z.lnot (ToInt32 a).

(** The values [Math.ceil(Math.log2(n) / 7)] takes on an integer [n].
    The language fixes [Math.log2] below zero (NaN), at zero (-Infinity)
    and at one (+0). Above, it is taken to be the real logarithm: exact
    on the powers of two, as engines compute it, and elsewhere, for
    [n < 2^32], too far from a multiple of 7 for its rounding to change
    the ceiling. Then [ceil (x / 7) = ceil (ceil x / 7)]. *)
Inductive num : Type :=
| NaN
| NegInfinity
| Num (z : Z).

Definition ceil_log2_div7 (n : Z) : num :=
  if n <? 0 then NaN
  else if n =? 0 then NegInfinity
  else Num ((Z.log2_up n + 6) / 7).

(** The trip count of [for (let i = c - 1; i >= 0; i--)]: the comparison
    is false at once on NaN and -Infinity. *)
Definition countdown (c : num) : nat :=
  match c with
  | Num z => Z.to_nat z
  | NaN | NegInfinity => O
  end.

End JS.

(** ** Completions and the method monad *)

Inductive exn : Type :=
| RangeError
| TypeError.

(** [OutOfFuel] is not a JavaScript outcome: it marks a loop of the model
    that was cut off, and is shown never to happen ([ruv_fuel]). *)
Inductive completion (A : Type) : Type :=
| Normal (a : A)
| Throw (e : exn)
| OutOfFuel.
Arguments Normal {A} a.
Arguments Throw {A} e.
Arguments OutOfFuel {A}.

Definition M (S A : Type) : Type := S -> completion A * S.

Definition ret {S A} (a : A) : M S A := fun s => (Normal a, s).
Definition throw {S A} (e : exn) : M S A := fun s => (Throw e, s).
Definition bind {S A B} (m : M S A) (k : A -> M S B) : M S B :=
  fun s =>
    match m s with
    | (Normal a, s') => k a s'
    | (Throw e, s') => (Throw e, s')
    | (OutOfFuel, s') => (OutOfFuel, s')
    end.
Definition gets {S A} (f : S -> A) : M S A := fun s => (Normal (f s), s).
Definition modify {S} (f : S -> S) : M S unit := fun s => (Normal tt, f s).

Declare Scope js_scope.
Delimit Scope js_scope with js.
Notation "x <- m ;; k" := (bind m (fun x => k))
  (at level 100, m at next level, right associativity) : js_scope.
Notation "m ;;; k" := (bind m (fun _ => k))
  (at level 100, right associativity) : js_scope.
Local Open Scope js_scope.

(** ** The heap of ArrayBuffers *)

Definition loc : Type := nat.
Abbreviation heap := (gmap loc (list Z)).

Definition bytes_of (h : heap) (b : loc) : list Z := default [] (h !! b).
Definition byteLength (h : heap) (b : loc) : Z := Z.of_nat (length (bytes_of h b)).

Definition alloc (bs : list Z) : M heap loc :=
  fun h => let b := fresh (dom h) in (Normal b, <[b := bs]> h).

(** Run a heap computation inside a method, leaving [this] alone. *)
Definition onHeap {T A} (m : M heap A) : M (heap * T) A :=
  fun s =>
    match m (fst s) with
    | (c, h') => (c, (h', snd s))
    end.

Module ArrayBuffer.

(** [new ArrayBuffer(length)]: zero-filled; ToIndex rejects a negative
    length. *)
Definition new (length : Z) : M heap loc :=
  if length <? 0 then throw RangeError
  else alloc (replicate (Z.to_nat length) 0).

(** The clamping of [ArrayBuffer.prototype.slice]: a negative bound
    counts from the end, and both bounds are cut to [0, len]. *)
Definition clamp (len rel : Z) : Z :=
  if rel <? 0 then Z.max (len + rel) 0 else Z.min rel len.

Definition slice_bytes (bs : list Z) (start stop : Z) : list Z :=
  let len := Z.of_nat (length bs) in
  let first := clamp len start in
  let final := clamp len stop in
  let newLen := Z.max (final - first) 0 in
  take (Z.to_nat newLen) (drop (Z.to_nat first) bs).

(** [buffer.slice(start, stop)]: always a new ArrayBuffer. *)
Definition slice (b : loc) (start stop : Z) : M heap loc :=
  fun h => alloc (slice_bytes (bytes_of h b) start stop) h.

(** [buffer.slice(0)] *)
Definition slice_from (b : loc) (start : Z) : M heap loc :=
  fun h => alloc (slice_bytes (bytes_of h b) start (byteLength h b)) h.

End ArrayBuffer.

(** [new Uint8Array(target).set(source, offset)] with [source] the bytes of
    a Uint8Array: a RangeError when the source does not fit. *)
Definition Uint8Array_set (target : loc) (source : list Z) (offset : Z) : M heap unit :=
  fun h =>
    let old := bytes_of h target in
    if (offset <? 0) || (Z.of_nat (length old) <? Z.of_nat (length source) + offset)
    then (Throw RangeError, h)
    else
      let o := Z.to_nat offset in
      (Normal tt,
       <[target := take o old ++ source ++ drop (o + length source) old]> h).

(** ** DataView

    [new DataView(buffer)] views the whole buffer, so the view is the
    buffer's location. The accessors are big-endian (no [littleEndian]
    argument is ever passed). *)

Module DataView.

Fixpoint be_uint (acc : Z) (bs : list Z) : Z :=
  match bs with
  | [] => acc
  | b :: bs' => be_uint (acc * 256 + b) bs'
  end.

Fixpoint be_bytes (size : nat) (x : Z) : list Z :=
  match size with
  | O => []
  | S size' => (x / 256 ^ Z.of_nat size') mod 256 :: be_bytes size' x
  end.

Definition signed (bits x : Z) : Z :=
  if 2 ^ (bits - 1) <=? x then x - 2 ^ bits else x.

(** GetViewValue: the index check, then the raw bytes. *)
Definition GetViewValue (dv : loc) (index : Z) (size : nat) : M heap (list Z) :=
  fun h =>
    if (index <? 0) || (byteLength h dv <? index + Z.of_nat size)
    then (Throw RangeError, h)
    else (Normal (take size (drop (Z.to_nat index) (bytes_of h dv))), h).

(** SetViewValue: the index check, then the store. *)
Definition SetViewValue (dv : loc) (index : Z) (raw : list Z) : M heap unit :=
  fun h =>
    if (index <? 0) || (byteLength h dv <? index + Z.of_nat (length raw))
    then (Throw RangeError, h)
    else
      let old := bytes_of h dv in
      let i := Z.to_nat index in
      (Normal tt, <[dv := take i old ++ raw ++ drop (i + length raw) old]> h).

Definition getUint (size : nat) (dv : loc) (index : Z) : M heap Z :=
  raw <- GetViewValue dv index size ;; ret (be_uint 0 raw).
Definition getInt (size : nat) (dv : loc) (index : Z) : M heap Z :=
  raw <- GetViewValue dv index size ;;
  ret (signed (8 * Z.of_nat size) (be_uint 0 raw)).
Definition setUint (size : nat) (dv : loc) (index : Z) (n : Z) : M heap unit :=
  SetViewValue dv index (be_bytes size n).

Definition getInt8 := getInt 1.
Definition getInt16 := getInt 2.
Definition getInt32 := getInt 4.
Definition getUint8 := getUint 1.
Definition getUint16 := getUint 2.
Definition getUint32 := getUint 4.
(** Two's complement: the signed setters store the same bytes. *)
Definition setInt8 := setUint 1.
Definition setInt16 := setUint 2.
Definition setInt32 := setUint 4.
Definition setUint8 := setUint 1.
Definition setUint16 := setUint 2.
Definition setUint32 := setUint 4.

(** A float is carried as its IEEE-754 bit pattern; the rounding of a
    number to that pattern is outside the model. *)
Definition getFloat32 := getUint 4.
Definition getFloat64 := getUint 8.
Definition setFloat32 := setUint 4.
Definition setFloat64 := setUint 8.

End DataView.

(** ** SerialReader *)

Module SerialReader.

Record t : Type := mk { dv : loc; pos : Z }.

Definition state : Type := heap * t.

(** [constructor(buffer, pos)]: [pos || 0]. *)
Definition constructor (buffer : loc) (pos : option Z) : t :=
  {| dv := buffer; pos := default 0 pos |}.

Definition delayedMove (move : Z) : M state Z :=
  fun s =>
    let saved := pos (snd s) in
    (Normal saved, (fst s, {| dv := dv (snd s); pos := pos (snd s) + move |})).

Definition getBuffer : M state loc := gets (fun s => dv (snd s)).

(** [this.dv.get(this.delayedMove(width))]: the cursor moves before the
    accessor runs. *)
Definition read (get : loc -> Z -> M heap Z) (width : Z) : M state Z :=
  view <- gets (fun s => dv (snd s)) ;;
  saved <- delayedMove width ;;
  onHeap (get view saved).

(** [this.dv.name(this.delayedMove(width))] where the DataView has no
    property [name]: the argument is evaluated, then the call of
    [undefined] throws. *)
Definition read_missing {A} (width : Z) : M state A :=
  _ <- delayedMove width ;; throw TypeError.

Definition ri8 : M state Z := read DataView.getInt8 1.
Definition ri16 : M state Z := read DataView.getInt16 2.
Definition ri32 : M state Z := read DataView.getInt32 4.
(** DataView has no [getInt64] (the accessor is [getBigInt64]). *)
Definition ri64 : M state Z := read_missing 8.

Definition ru8 : M state Z := read DataView.getUint8 1.
Definition ru16 : M state Z := read DataView.getUint16 2.
Definition ru32 : M state Z := read DataView.getUint32 4.
(** DataView has no [getUint64]. *)
Definition ru64 : M state Z := read_missing 8.

Definition rf32 : M state Z := read DataView.getFloat32 4.
Definition rf64 : M state Z := read DataView.getFloat64 8.

Definition rbool : M state bool := b <- ru8 ;; ret (0 <? b).

(** [String.fromCharCode]: a string of one code unit. *)
Definition rchar : M state (list Z) := b <- ru8 ;; ret [b mod 65536].

(** The body of [while (true)] in [ruv], at most [fuel] times. *)
Fixpoint ruv_loop (fuel : nat) (n : Z) : M state Z :=
  match fuel with
  | O => fun s => (OutOfFuel, s)
  | S fuel' =>
      byte <- ru8 ;;
      let n := JS.bor (JS.shl n 7) (JS.band byte 0x7F) in
      if JS.band byte 0x80 =? 0 then ret n else ruv_loop fuel' n
  end.

(** Every pass that goes on has read one byte of the buffer at the
    cursor, so one pass more than the buffer has bytes is enough. *)
Definition ruv : M state Z :=
  fun s => ruv_loop (S (length (bytes_of (fst s) (dv (snd s))))) 0 s.

(** [n * sign] is [-0] when [n] is 0 and the sign bit is set; [Z] has
    one zero, as [==] has. *)
Definition riv : M state Z :=
  n <- ruv ;;
  let sign := if JS.band n 0x1 =? 0 then 1 else -1 in
  let n := JS.ushr (JS.band n (JS.bnot 0x1)) 1 in
  ret (n * sign).

(** [this.dv.buffer.slice(this.pos, this.pos += length)] *)
Definition rbytes : M state loc :=
  length <- ruv ;;
  buffer <- gets (fun s => dv (snd s)) ;;
  start <- gets (fun s => pos (snd s)) ;;
  stop <- (fun s =>
             let p := pos (snd s) + length in
             (Normal p, (fst s, {| dv := dv (snd s); pos := p |}))) ;;
  onHeap (ArrayBuffer.slice buffer start stop).

(** [new TextDecoder().decode(this.rarr())]: neither the class nor its
    prototype chain has a property [rarr], so the call of [undefined]
    throws before anything is read or decoded. *)
Definition rutf8 : M state (list Z) := throw TypeError.

End SerialReader.

(** ** Text

    A string is its list of UTF-16 code units. [TextEncoder.encode] reads
    it as scalar values, a lone surrogate becoming U+FFFD, and writes each
    in UTF-8. *)

Module Text.

Definition is_high (u : Z) : bool := (0xD800 <=? u) && (u <=? 0xDBFF).
Definition is_low (u : Z) : bool := (0xDC00 <=? u) && (u <=? 0xDFFF).

Fixpoint scalars (s : list Z) : list Z :=
  match s with
  | [] => []
  | u :: rest =>
      if is_high u then
        match rest with
        | l :: rest' =>
            if is_low l
            then 0x10000 + (u - 0xD800) * 0x400 + (l - 0xDC00) :: scalars rest'
            else 0xFFFD :: scalars rest
        | [] => [0xFFFD]
        end
      else if is_low u then 0xFFFD :: scalars rest
      else u :: scalars rest
  end.

Definition utf8_scalar (c : Z) : list Z :=
  if c <? 0x80 then [c]
  else if c <? 0x800 then [0xC0 + c / 64; 0x80 + c mod 64]
  else if c <? 0x10000 then
    [0xE0 + c / 4096; 0x80 + (c / 64) mod 64; 0x80 + c mod 64]
  else
    [0xF0 + c / 262144; 0x80 + (c / 4096) mod 64;
     0x80 + (c / 64) mod 64; 0x80 + c mod 64].

Definition encode (s : list Z) : list Z := scalars s ≫= utf8_scalar.

(** [ch.charCodeAt(0)]: NaN on the empty string, which every integer
    store turns into 0. *)
Definition charCodeAt0 (ch : list Z) : Z := default 0 (head ch).

End Text.

(** ** SerialWriter *)

(** What [wbytes] may be given: an ArrayBuffer, or a typed array (carried
    as the buffer holding its elements). *)
Inductive bytes_arg : Type :=
| OfArrayBuffer (b : loc)
| OfTypedArray (b : loc).

(** [new Uint8Array(x)]: a view of an ArrayBuffer, a copy of a typed array. *)
Definition Uint8Array_new (x : bytes_arg) : M heap loc :=
  match x with
  | OfArrayBuffer b => ret b
  | OfTypedArray b => fun h => alloc (JS.ToUint8 <$> bytes_of h b) h
  end.

Module SerialWriter.

Record t : Type := mk { dv : loc; pos : Z }.

Definition state : Type := heap * t.

Definition constructor (buffer : option loc) : M heap t :=
  match buffer with
  | None =>
      buffer <- ArrayBuffer.new 8 ;;
      copy <- ArrayBuffer.slice_from buffer 0 ;;
      ret {| dv := copy; pos := 0 |}
  | Some buffer =>
      p <- gets (fun h => byteLength h buffer) ;;
      copy <- ArrayBuffer.slice_from buffer 0 ;;
      ret {| dv := copy; pos := p |}
  end.

Definition set_dv (b : loc) : M state unit :=
  modify (fun s => (fst s, {| dv := b; pos := pos (snd s) |})).
Definition set_pos (p : Z) : M state unit :=
  modify (fun s => (fst s, {| dv := dv (snd s); pos := p |})).

Definition allocMin (length : Z) : M state unit :=
  old <- gets (fun s => dv (snd s)) ;;
  cap <- gets (fun s => byteLength (fst s) old) ;;
  if cap <=? length then
    newBuffer <- onHeap (ArrayBuffer.new (Z.max length (cap * 2))) ;;
    source <- gets (fun s => bytes_of (fst s) old) ;;
    onHeap (Uint8Array_set newBuffer source 0) ;;;
    set_dv newBuffer
  else ret tt.

Definition allocMinExtra (additionalLength : Z) : M state unit :=
  p <- gets (fun s => pos (snd s)) ;;
  allocMin (p + additionalLength).

Definition delayedMove (move : Z) : M state Z :=
  saved <- gets (fun s => pos (snd s)) ;;
  set_pos (saved + move) ;;;
  p <- gets (fun s => pos (snd s)) ;;
  allocMin p ;;;
  ret saved.

Definition getBuffer : M state loc :=
  buffer <- gets (fun s => dv (snd s)) ;;
  p <- gets (fun s => pos (snd s)) ;;
  onHeap (ArrayBuffer.slice buffer 0 p).

(** [this.dv.set(this.delayedMove(width), n)]: the receiver [this.dv] is
    evaluated before the argument list, so when [delayedMove] grows the
    store and assigns a new DataView to [this.dv], the setter still runs
    on the DataView (and buffer) read first. *)
Definition write (set : loc -> Z -> Z -> M heap unit) (width : Z) (n : Z)
  : M state unit :=
  view <- gets (fun s => dv (snd s)) ;;
  saved <- delayedMove width ;;
  onHeap (set view saved n).

(** The DataView has no such setter: the argument is evaluated, then
    the call of [undefined] throws. *)
Definition write_missing (width : Z) : M state unit :=
  _ <- delayedMove width ;; throw TypeError.

Definition wi8 (n : Z) : M state unit := write DataView.setInt8 1 n.
Definition wi16 (n : Z) : M state unit := write DataView.setInt16 2 n.
Definition wi32 (n : Z) : M state unit := write DataView.setInt32 4 n.
(** DataView has no [setInt64] (the setter is [setBigInt64]). *)
Definition wi64 (n : Z) : M state unit := write_missing 8.

Definition wu8 (n : Z) : M state unit := write DataView.setUint8 1 n.
Definition wu16 (n : Z) : M state unit := write DataView.setUint16 2 n.
Definition wu32 (n : Z) : M state unit := write DataView.setUint32 4 n.
(** DataView has no [setUint64]. *)
Definition wu64 (n : Z) : M state unit := write_missing 8.

Definition wf32 (n : Z) : M state unit := write DataView.setFloat32 4 n.
Definition wf64 (n : Z) : M state unit := write DataView.setFloat64 8 n.

Definition wbool (b : bool) : M state unit := wu8 (if b then 1 else 0).

Definition wchar (ch : list Z) : M state unit := wu8 (Text.charCodeAt0 ch).

(** The body of the [for] loop of [wuv] at [i], then the passes below. *)
Fixpoint wuv_loop (passes : nat) (n : Z) : M state unit :=
  match passes with
  | O => ret tt
  | S i =>
      let byte := JS.band (JS.ushr n (Z.of_nat i * 7)) 0x7F in
      let byte := if Z.of_nat i =? 0 then byte else JS.bor byte 0x80 in
      wu8 byte ;;;
      wuv_loop i n
  end.

Definition wuv (n : Z) : M state unit :=
  let byteLength := JS.ceil_log2_div7 n in
  wuv_loop (JS.countdown byteLength) n.

Definition wiv (n : Z) : M state unit :=
  wuv (JS.bor (JS.shl (Z.abs n) 1) (if n <? 0 then 0x1 else 0x0)).

Definition wbytes (buffer : bytes_arg) : M state unit :=
  buffer <- onHeap (Uint8Array_new buffer) ;;
  length <- gets (fun s => byteLength (fst s) buffer) ;;
  wuv length ;;;
  allocMinExtra length ;;;
  target <- gets (fun s => dv (snd s)) ;;
  source <- gets (fun s => bytes_of (fst s) buffer) ;;
  p <- gets (fun s => pos (snd s)) ;;
  onHeap (Uint8Array_set target source p) ;;;
  p <- gets (fun s => pos (snd s)) ;;
  set_pos (p + length).

(** [TextEncoder.encode] returns a new Uint8Array. *)
Definition wutf8 (str : list Z) : M state unit :=
  encoded <- onHeap (alloc (Text.encode str)) ;;
  wbytes (OfTypedArray encoded).

End SerialWriter.

(** ** Sessions

    A writer made by [new SerialWriter()] on the empty heap, a body of
    writes, the extraction, and a reader over the extracted buffer. *)

Definition lift_new {T A} (m : M heap T) (body : M (heap * T) A) : M heap A :=
  fun h =>
    match m h with
    | (Normal this, h') =>
        match body (h', this) with
        | (c, s) => (c, fst s)
        end
    | (Throw e, h') => (Throw e, h')
    | (OutOfFuel, h') => (OutOfFuel, h')
    end.

(** [w = new SerialWriter(); body(w); return w.getBuffer()] *)
Definition written (body : M SerialWriter.state unit) : M heap loc :=
  lift_new (SerialWriter.constructor None) (body ;;; SerialWriter.getBuffer).

(** [new SerialReader(buffer).op()] *)
Definition reading {A} (buffer : loc) (op : M SerialReader.state A) : M heap A :=
  lift_new (ret (SerialReader.constructor buffer None)) op.

(** The bytes a body of writes leaves in the extracted buffer. *)
Definition encoding (body : M SerialWriter.state unit) : completion (list Z) :=
  match written body ∅ with
  | (Normal b, h) => Normal (bytes_of h b)
  | (Throw e, _) => Throw e
  | (OutOfFuel, _) => OutOfFuel
  end.

(** Write, extract, read back. *)
Definition roundtrip {A} (body : M SerialWriter.state unit)
    (op : M SerialReader.state A) : completion A :=
  fst ((b <- written body ;; reading b op) ∅).

(** [new SerialReader(buffer)] over a buffer holding [bs], on an
    otherwise empty heap. *)
Definition reader_over (bs : list Z) : SerialReader.state :=
  ({[ O := bs ]}, SerialReader.constructor O None).

(** A writer whose store holds [store], with the cursor at [pos], on an
    otherwise empty heap. *)
Definition writer_over (store : list Z) (pos : Z) : SerialWriter.state :=
  ({[ O := store ]}, {| SerialWriter.dv := O; SerialWriter.pos := pos |}).

(** A read over such a reader: the completion, and where the cursor is
    left. *)
Definition decoding {A} (bs : list Z) (op : M SerialReader.state A)
  : completion A * Z :=
  match op (reader_over bs) with
  | (c, s) => (c, SerialReader.pos (snd s))
  end.

(** ** The methods as data

    The operations of the two classes, so that a statement can range over
    all of them and over sequences of calls. *)

Inductive value : Type :=
| VNum (n : Z)
| VBool (b : bool)
| VString (s : list Z)
| VBuffer (b : loc).

(** What a caller can see of a value: a buffer is seen through its bytes. *)
Definition observe (h : heap) (v : value) : value + list Z :=
  match v with
  | VBuffer b => inr (bytes_of h b)
  | _ => inl v
  end.

Definition fmap_M {S A B} (f : A -> B) (m : M S A) : M S B :=
  a <- m ;; ret (f a).

Inductive rop : Type :=
| Ri8 | Ri16 | Ri32 | Ri64
| Ru8 | Ru16 | Ru32 | Ru64
| Rf32 | Rf64
| Rbool | Rchar
| Riv | Ruv
| Rbytes | Rutf8.

Inductive wop : Type :=
| Wi8 (n : Z) | Wi16 (n : Z) | Wi32 (n : Z) | Wi64 (n : Z)
| Wu8 (n : Z) | Wu16 (n : Z) | Wu32 (n : Z) | Wu64 (n : Z)
| Wf32 (n : Z) | Wf64 (n : Z)
| Wbool (b : bool) | Wchar (ch : list Z)
| Wiv (n : Z) | Wuv (n : Z)
| Wbytes (buffer : bytes_arg) | Wutf8 (str : list Z).

Definition rcall (op : rop) : M SerialReader.state value :=
  match op with
  | Ri8 => fmap_M VNum SerialReader.ri8
  | Ri16 => fmap_M VNum SerialReader.ri16
  | Ri32 => fmap_M VNum SerialReader.ri32
  | Ri64 => fmap_M VNum SerialReader.ri64
  | Ru8 => fmap_M VNum SerialReader.ru8
  | Ru16 => fmap_M VNum SerialReader.ru16
  | Ru32 => fmap_M VNum SerialReader.ru32
  | Ru64 => fmap_M VNum SerialReader.ru64
  | Rf32 => fmap_M VNum SerialReader.rf32
  | Rf64 => fmap_M VNum SerialReader.rf64
  | Rbool => fmap_M VBool SerialReader.rbool
  | Rchar => fmap_M VString SerialReader.rchar
  | Riv => fmap_M VNum SerialReader.riv
  | Ruv => fmap_M VNum SerialReader.ruv
  | Rbytes => fmap_M VBuffer SerialReader.rbytes
  | Rutf8 => fmap_M VString SerialReader.rutf8
  end.

Definition wcall (op : wop) : M SerialWriter.state unit :=
  match op with
  | Wi8 n => SerialWriter.wi8 n
  | Wi16 n => SerialWriter.wi16 n
  | Wi32 n => SerialWriter.wi32 n
  | Wi64 n => SerialWriter.wi64 n
  | Wu8 n => SerialWriter.wu8 n
  | Wu16 n => SerialWriter.wu16 n
  | Wu32 n => SerialWriter.wu32 n
  | Wu64 n => SerialWriter.wu64 n
  | Wf32 n => SerialWriter.wf32 n
  | Wf64 n => SerialWriter.wf64 n
  | Wbool b => SerialWriter.wbool b
  | Wchar ch => SerialWriter.wchar ch
  | Wiv n => SerialWriter.wiv n
  | Wuv n => SerialWriter.wuv n
  | Wbytes buffer => SerialWriter.wbytes buffer
  | Wutf8 str => SerialWriter.wutf8 str
  end.

(** The width the source gives [delayedMove] in a fixed-width method. *)
Definition rwidth (op : rop) : option Z :=
  match op with
  | Ri8 | Ru8 | Rbool | Rchar => Some 1
  | Ri16 | Ru16 => Some 2
  | Ri32 | Ru32 | Rf32 => Some 4
  | Ri64 | Ru64 | Rf64 => Some 8
  | Riv | Ruv | Rbytes | Rutf8 => None
  end.

Definition wwidth (op : wop) : option Z :=
  match op with
  | Wi8 _ | Wu8 _ | Wbool _ | Wchar _ => Some 1
  | Wi16 _ | Wu16 _ => Some 2
  | Wi32 _ | Wu32 _ | Wf32 _ => Some 4
  | Wi64 _ | Wu64 _ | Wf64 _ => Some 8
  | Wiv _ | Wuv _ | Wbytes _ | Wutf8 _ => None
  end.

(** The fixed-width reads whose DataView accessor exists. *)
Definition has_accessor (op : rop) : bool :=
  match op with
  | Ri64 | Ru64 => false
  | _ => true
  end.

(** A sequence of calls on one object, each in its own [try]/[catch]: the
    state is threaded through whatever the completions are. *)
Definition after {S A Op} (call : Op -> M S A) (ops : list Op) (s : S) : S :=
  foldl (fun s op => snd (call op s)) s ops.

(** The writes of single bytes [bs], in order. *)
Definition wu8_each (bs : list Z) : M SerialWriter.state unit :=
  foldr (fun b k => SerialWriter.wu8 b ;;; k) (ret tt) bs.

(** Write a byte run held in a new ArrayBuffer, extract, read it back as a
    byte run; the result is the bytes of the buffer [rbytes] returns. *)
Definition roundtrip_bytes (payload : list Z) : completion (list Z) :=
  fst ((input <- alloc payload ;;
        b <- written (SerialWriter.wbytes (OfArrayBuffer input)) ;;
        reading b (out <- SerialReader.rbytes ;;
                   gets (fun s => bytes_of (fst s) out))) ∅).

(** The bytes the loop of [wuv] hands to [wu8], in order. *)
Fixpoint varint_bytes (passes : nat) (n : Z) : list Z :=
  match passes with
  | O => []
  | S i =>
      let byte := JS.band (JS.ushr n (Z.of_nat i * 7)) 0x7F in
      let byte := if Z.of_nat i =? 0 then byte else JS.bor byte 0x80 in
      byte :: varint_bytes i n
  end.

(** The number of bits of a non-negative integer (0 for 0). *)
Definition bitlength (n : Z) : Z := if n =? 0 then 0 else Z.log2 n + 1.

(** [ceil (bitlength n / 7)], with a floor of one byte. *)
Definition varint_size (n : Z) : Z := Z.max 1 ((bitlength n + 6) / 7).

(** ** Relations between the state before and after a method *)

(** [m] takes every state to a state related to it by [R], whatever the
    completion. *)
Definition respects {S A} (R : S -> S -> Prop) (m : M S A) : Prop :=
  forall s, R s (snd (m s)).

(** The reader still views the same buffer. *)
Definition same_dv (s s' : SerialReader.state) : Prop :=
  SerialReader.dv (snd s') = SerialReader.dv (snd s).

(** A writer in good order: its store exists and the cursor lies within
    its capacity. *)
Definition wf (s : SerialWriter.state) : Prop :=
  is_Some (fst s !! SerialWriter.dv (snd s))
  /\ 0 <= SerialWriter.pos (snd s) <= byteLength (fst s) (SerialWriter.dv (snd s)).

(** What a writer's method may do to a state in good order: the writer
    stays in good order, the cursor does not go back, every buffer stays
    and keeps its length, and every buffer other than the writer's store
    keeps its bytes and does not become the store. *)
Definition extends (s s' : SerialWriter.state) : Prop :=
  wf s ->
  wf s'
  /\ SerialWriter.pos (snd s) <= SerialWriter.pos (snd s')
  /\ (forall l, is_Some (fst s !! l) ->
        is_Some (fst s' !! l)
        /\ length (bytes_of (fst s') l) = length (bytes_of (fst s) l))
  /\ (forall l, is_Some (fst s !! l) -> l ≠ SerialWriter.dv (snd s) ->
        l ≠ SerialWriter.dv (snd s') /\ fst s' !! l = fst s !! l).

(** ** The varint as a function of the bytes

    What the loop of [ruv] computes from the bytes at the cursor, with
    accumulator [n]: the completion, and how many times [ru8] was called.
    Running off the end is the RangeError of the last [ru8]. It is shown
    equal to the loop ([ruv_spec]) and used to reason about it. *)
Fixpoint varint_scan (rest : list Z) (n : Z) : completion Z * nat :=
  match rest with
  | [] => (Throw RangeError, 1%nat)
  | byte :: rest' =>
      let n' := JS.bor (JS.shl n 7) (JS.band byte 0x7F) in
      if JS.band byte 0x80 =? 0 then (Normal n', 1%nat)
      else
        match varint_scan rest' n' with
        | (c, k) => (c, S k)
        end
  end.

(** The bytes of the reader's buffer from the cursor on. *)
Definition ahead (s : SerialReader.state) : list Z :=
  drop (Z.to_nat (SerialReader.pos (snd s)))
       (bytes_of (fst s) (SerialReader.dv (snd s))).

(** The reader's state with the cursor moved by [k]. *)
Definition moved (k : Z) (s : SerialReader.state) : SerialReader.state :=
  (fst s,
   {| SerialReader.dv := SerialReader.dv (snd s);
      SerialReader.pos := SerialReader.pos (snd s) + k |}).

(** The number of bytes of the varint at the head of [rest]: up to and
    including the first byte with a clear high bit, or one past the end
    when there is none (the read that fails has moved the cursor). *)
Fixpoint varint_span (rest : list Z) : nat :=
  match rest with
  | [] => 1%nat
  | byte :: rest' =>
      if JS.band byte 0x80 =? 0 then 1%nat else S (varint_span rest')
  end.

(** How far each read moves the cursor, from the bytes ahead of it: the
    fixed width; the bytes of the varint; for a byte run the bytes of the
    prefix plus the length it decodes to. *)
Definition radvance (op : rop) (rest : list Z) : Z :=
  match op with
  | Ruv | Riv => Z.of_nat (varint_span rest)
  | Rbytes =>
      match varint_scan rest 0 with
      | (Normal length, k) => Z.of_nat k + length
      | (_, k) => Z.of_nat k
      end
  | Rutf8 => 0
  | _ => default 0 (rwidth op)
  end.

(** The buffer behind what [wbytes] is given. *)
Definition arg_buffer (x : bytes_arg) : loc :=
  match x with
  | OfArrayBuffer b | OfTypedArray b => b
  end.


Definition cmap {A B} (f : A -> B) (c : completion A) : completion B :=
  match c with
  | Normal a => Normal (f a)
  | Throw e => Throw e
  | OutOfFuel => OutOfFuel
  end.

(** A read, and what the caller sees of its value. *)
Definition observed (op : rop) : M SerialReader.state (value + list Z) :=
  v <- rcall op ;; gets (fun s => observe (fst s) v).

(** The reader's cursor has not gone back. *)
Definition forward (s s' : SerialReader.state) : Prop :=
  SerialReader.pos (snd s) <= SerialReader.pos (snd s').

(** ** The reads as functions of the bytes ahead

    What each read returns, from the bytes at the cursor on. For a byte
    run whose prefix decodes to a negative length the value depends on the
    whole buffer and is left out here ([decode_sound] excludes it). *)

Definition decode_fixed (size : nat) (f : Z -> value) (rest : list Z)
  : completion (value + list Z) :=
  if (length rest <? size)%nat then Throw RangeError
  else Normal (inl (f (DataView.be_uint 0 (take size rest)))).

Definition decode_varint (f : Z -> Z) (rest : list Z) : completion (value + list Z) :=
  match fst (varint_scan rest 0) with
  | Normal n => Normal (inl (VNum (f n)))
  | Throw e => Throw e
  | OutOfFuel => OutOfFuel
  end.

Definition decode (op : rop) (rest : list Z) : completion (value + list Z) :=
  match op with
  | Ri8 => decode_fixed 1 (fun x => VNum (DataView.signed 8 x)) rest
  | Ri16 => decode_fixed 2 (fun x => VNum (DataView.signed 16 x)) rest
  | Ri32 => decode_fixed 4 (fun x => VNum (DataView.signed 32 x)) rest
  | Ru8 => decode_fixed 1 VNum rest
  | Ru16 => decode_fixed 2 VNum rest
  | Ru32 | Rf32 => decode_fixed 4 VNum rest
  | Rf64 => decode_fixed 8 VNum rest
  | Ri64 | Ru64 | Rutf8 => Throw TypeError
  | Rbool => decode_fixed 1 (fun x => VBool (0 <? x)) rest
  | Rchar => decode_fixed 1 (fun x => VString [x mod 65536]) rest
  | Ruv => decode_varint (fun n => n) rest
  | Riv =>
      decode_varint
        (fun n =>
           let sign := if JS.band n 0x1 =? 0 then 1 else -1 in
           JS.ushr (JS.band n (JS.bnot 0x1)) 1 * sign)
        rest
  | Rbytes =>
      match varint_scan rest 0 with
      | (Normal length, k) => Normal (inr (take (Z.to_nat length) (drop k rest)))
      | (Throw e, _) => Throw e
      | (OutOfFuel, _) => OutOfFuel
      end
  end.

(** The prefix of a byte run, if there is one, is not negative. *)
Definition length_ok (op : rop) (rest : list Z) : Prop :=
  match op, varint_scan rest 0 with
  | Rbytes, (Normal length, _) => 0 <= length
  | _, _ => True
  end.

(** The facts about one 7-bit digit, checked on all 128 of them. *)
Definition digit_ok (c : Z) : bool :=
  (JS.bor c 0x80 =? c + 128)
  && (JS.band (c + 128) 0x7F =? c)
  && (JS.band c 0x7F =? c)
  && negb (JS.band (c + 128) 0x80 =? 0)
  && (JS.band c 0x80 =? 0)
  && (JS.ToUint8 c =? c)
  && (JS.ToUint8 (c + 128) =? c + 128).

(** The capacities the store of [new SerialWriter()] takes: 8, 16, 32, ... *)
Definition is_capacity (x : Z) : bool := (8 <=? x) && (x =? 2 ^ Z.log2 x).

(** What single-byte writes from the cursor [start] on leave in the store
    of a writer made by [new SerialWriter()]: the byte whose write fills
    the store to its capacity is lost, and a zero is there instead. *)
Fixpoint landed (start : Z) (bs : list Z) : list Z :=
  match bs with
  | [] => []
  | b :: bs' =>
      (if is_capacity (start + 1) then 0 else JS.ToUint8 b) :: landed (start + 1) bs'
  end.

(** The store between two growths: the capacity is one of 8, 16, 32, ...,
    no such number lies between the cursor and the capacity, and the bytes
    from the cursor on are zero. *)
Definition growing (s : SerialWriter.state) : Prop :=
  let cap := byteLength (fst s) (SerialWriter.dv (snd s)) in
  let pos := SerialWriter.pos (snd s) in
  is_Some (fst s !! SerialWriter.dv (snd s))
  /\ 0 <= pos < cap
  /\ is_capacity cap = true
  /\ (forall x, pos < x < cap -> is_capacity x = false)
  /\ drop (Z.to_nat pos) (bytes_of (fst s) (SerialWriter.dv (snd s)))
     = replicate (Z.to_nat (cap - pos)) 0.

(** ** The fixed-width writes as data *)

(** The fixed-width writes whose DataView setter exists. *)
Definition has_setter (op : wop) : bool :=
  match op with
  | Wi64 _ | Wu64 _ => false
  | _ => true
  end.

(** The bytes the setter of a fixed-width write is given to store: the
    low bytes of the number, the most significant first. *)
Definition stored (op : wop) : list Z :=
  match op with
  | Wi8 n | Wu8 n => DataView.be_bytes 1 n
  | Wi16 n | Wu16 n => DataView.be_bytes 2 n
  | Wi32 n | Wu32 n | Wf32 n => DataView.be_bytes 4 n
  | Wf64 n => DataView.be_bytes 8 n
  | Wbool b => DataView.be_bytes 1 (if b then 1 else 0)
  | Wchar ch => DataView.be_bytes 1 (Text.charCodeAt0 ch)
  | _ => []
  end.

(** A fixed-width write whose setter exists. *)
Definition is_fixed (op : wop) : bool :=
  match wwidth op with
  | Some _ => has_setter op
  | None => false
  end.

(** The calls [ops] on one writer, in order, as one body of writes. *)
Definition wcall_each (ops : list wop) : M SerialWriter.state unit :=
  foldr (fun op k => wcall op ;;; k) (ret tt) ops.

(** ** Buffers left alone *)

(** Every buffer there was is still there, with the bytes it had. *)
Definition unmodified {T} (s s' : heap * T) : Prop :=
  forall l, is_Some (fst s !! l) -> fst s' !! l = fst s !! l.

(** * Properties *)

(** Split a conjunction into its parts, and no further. *)
Ltac split_all :=
  repeat match goal with
         | |- _ /\ _ => split
         end.

(** ** Concrete runs *)

(** C8. Writing the unsigned varint 300 emits exactly the two bytes
    [0x82, 0x2C], the first with its high bit set and the second with it
    clear, and [ruv] over those two bytes returns 300 (having consumed
    both). *)
Theorem wuv_300 :
  encoding (SerialWriter.wuv 300) = Normal [0x82; 0x2C]
  /\ Z.testbit 0x82 7 = true
  /\ Z.testbit 0x2C 7 = false
  /\ decoding [0x82; 0x2C] SerialReader.ruv = (Normal 300, 2)
  /\ roundtrip (SerialWriter.wuv 300) SerialReader.ruv = Normal 300.
Proof. split_all; vm_compute; reflexivity. Qed.

(** C1, at its failing inputs. [wuv 0] emits no byte at all (the loop
    count [ceil (log2 0 / 7)] is -Infinity), so reading it back runs off
    the empty buffer; [wuv 1] emits nothing either; at every power of 128
    the count is one short of [varint_size] and the leading digit is
    dropped; from [2^31] on the bytes are right but [ruv] returns the
    accumulator as a signed 32-bit number. *)
Theorem wuv_ruv_failures :
  encoding (SerialWriter.wuv 0) = Normal []
  /\ roundtrip (SerialWriter.wuv 0) SerialReader.ruv = Throw RangeError
  /\ varint_size 0 = 1
  /\ encoding (SerialWriter.wuv 1) = Normal []
  /\ encoding (SerialWriter.wuv 128) = Normal [0x00]
  /\ varint_size 128 = 2
  /\ roundtrip (SerialWriter.wuv 128) SerialReader.ruv = Normal 0
  /\ roundtrip (SerialWriter.wuv 16384) SerialReader.ruv = Normal 0
  /\ roundtrip (SerialWriter.wuv 2097152) SerialReader.ruv = Normal 0
  /\ encoding (SerialWriter.wuv (2 ^ 32 - 1)) = Normal [0x8F; 0xFF; 0xFF; 0xFF; 0x7F]
  /\ roundtrip (SerialWriter.wuv (2 ^ 32 - 1)) SerialReader.ruv = Normal (-1).
Proof. split_all; vm_compute; reflexivity. Qed.

(** C2, at its failing inputs. [wiv 0] hands 0 to [wuv], which emits
    nothing, so [riv] runs off the empty buffer; [wiv 64] hands it 128,
    which comes back as 0; from [2^30] on the shifted magnitude is a
    negative 32-bit number (or wraps to 0), whose [log2] is NaN, and again
    nothing is emitted. *)
Theorem wiv_riv_failures :
  encoding (SerialWriter.wiv 0) = Normal []
  /\ roundtrip (SerialWriter.wiv 0) SerialReader.riv = Throw RangeError
  /\ encoding (SerialWriter.wiv 64) = Normal [0x00]
  /\ roundtrip (SerialWriter.wiv 64) SerialReader.riv = Normal 0
  /\ encoding (SerialWriter.wiv (2 ^ 31 - 1)) = Normal []
  /\ roundtrip (SerialWriter.wiv (2 ^ 31 - 1)) SerialReader.riv = Throw RangeError
  /\ encoding (SerialWriter.wiv (- 2 ^ 31)) = Normal []
  /\ roundtrip (SerialWriter.wiv (- 2 ^ 31)) SerialReader.riv = Throw RangeError
  /\ roundtrip (SerialWriter.wiv (-5)) SerialReader.riv = Normal (-5).
Proof. split_all; vm_compute; reflexivity. Qed.

(** ** Relations kept by every step

    Most facts about a method are of the form "the state after is related
    to the state before", for a reflexive and transitive relation; such a
    fact goes through [bind] whatever the completion is. *)

Section Respects.

Context {S : Type} (R : S -> S -> Prop).
Context `{!Reflexive R, !Transitive R}.

Lemma respects_ret {A} (a : A) : respects R (ret a).
Proof. intros s. reflexivity. Qed.

Lemma respects_throw {A} (e : exn) : respects R (@throw S A e).
Proof. intros s. reflexivity. Qed.

Lemma respects_gets {A} (f : S -> A) : respects R (gets f).
Proof. intros s. reflexivity. Qed.

Lemma respects_bind {A B} (m : M S A) (k : A -> M S B) :
  respects R m -> (forall a, respects R (k a)) -> respects R (bind m k).
Proof.
  intros Hm Hk s. unfold bind. specialize (Hm s).
  destruct (m s) as [[a | e |] s']; simpl in *; try assumption.
  etransitivity; [eassumption | apply Hk].
Qed.

Lemma respects_fmap {A B} (f : A -> B) (m : M S A) :
  respects R m -> respects R (fmap_M f m).
Proof. intros Hm. apply respects_bind; [assumption | intros; apply respects_ret]. Qed.

Lemma respects_after {A Op} (call : Op -> M S A) (ops : list Op) :
  (forall op, respects R (call op)) -> forall s, R s (after call ops s).
Proof.
  intros Hcall. unfold after. induction ops as [| op ops IH]; intros s; simpl.
  - reflexivity.
  - etransitivity; [apply (Hcall op) | apply IH].
Qed.

End Respects.

(** Dispatch a goal [respects R m] along the structure of [m]. *)
Ltac respects_step :=
  lazymatch goal with
  | |- respects ?R (ret _) => apply (respects_ret R)
  | |- respects ?R (throw _) => apply (respects_throw R)
  | |- respects ?R (gets _) => apply (respects_gets R)
  | |- respects ?R (fmap_M _ _) => apply (respects_fmap R)
  | |- respects ?R (bind _ _) => apply (respects_bind R); [| intros ? ]
  | |- respects ?R (if ?b then _ else _) => destruct b
  end.

(** ** The reader keeps its buffer *)

#[local] Instance same_dv_refl : Reflexive same_dv.
Proof. intros s. reflexivity. Qed.

#[local] Instance same_dv_trans : Transitive same_dv.
Proof. intros s1 s2 s3 H12 H23. unfold same_dv in *. congruence. Qed.

Lemma same_dv_delayedMove (move : Z) : respects same_dv (SerialReader.delayedMove move).
Proof. intros s. reflexivity. Qed.

Lemma same_dv_onHeap {A} (m : M heap A) :
  respects same_dv (@onHeap SerialReader.t A m).
Proof. intros s. unfold onHeap. destruct (m (fst s)). reflexivity. Qed.

Lemma same_dv_read get width : respects same_dv (SerialReader.read get width).
Proof.
  unfold SerialReader.read.
  repeat first [ apply same_dv_delayedMove | apply same_dv_onHeap | respects_step ].
Qed.

Lemma same_dv_read_missing {A} width :
  respects same_dv (@SerialReader.read_missing A width).
Proof.
  unfold SerialReader.read_missing.
  repeat first [ apply same_dv_delayedMove | respects_step ].
Qed.

Lemma same_dv_ruv_loop fuel : forall n, respects same_dv (SerialReader.ruv_loop fuel n).
Proof.
  induction fuel as [| fuel IH]; intros n; simpl.
  - intros s. reflexivity.
  - repeat first [ apply same_dv_read | apply IH | respects_step ].
Qed.

Lemma same_dv_ruv : respects same_dv SerialReader.ruv.
Proof. intros s. unfold SerialReader.ruv. apply same_dv_ruv_loop. Qed.

Lemma same_dv_rbytes : respects same_dv SerialReader.rbytes.
Proof.
  unfold SerialReader.rbytes.
  repeat first
    [ apply same_dv_ruv | apply same_dv_onHeap | respects_step
    | intros s; reflexivity ].
Qed.

Lemma same_dv_rcall (op : rop) : respects same_dv (rcall op).
Proof.
  destruct op; simpl;
    unfold SerialReader.ri8, SerialReader.ri16, SerialReader.ri32,
      SerialReader.ri64, SerialReader.ru8, SerialReader.ru16,
      SerialReader.ru32, SerialReader.ru64, SerialReader.rf32,
      SerialReader.rf64, SerialReader.rbool, SerialReader.rchar,
      SerialReader.riv, SerialReader.rutf8;
    repeat first
      [ apply same_dv_read | apply same_dv_read_missing | apply same_dv_ruv
      | apply same_dv_rbytes | respects_step ].
Qed.

(** C10. Whatever reads were made since (and however they completed),
    [getBuffer] of a reader returns the very ArrayBuffer the reader was
    constructed over and changes nothing: no buffer is allocated, so it is
    neither a copy nor a trimmed slice. The writer's [getBuffer], by
    contrast, returns a buffer that did not exist before the call. *)
Theorem reader_getBuffer_same_object
    (h : heap) (buffer : loc) (p : option Z) (ops : list rop) :
  let s := after rcall ops (h, SerialReader.constructor buffer p) in
  SerialReader.getBuffer s = (Normal buffer, s)
  /\ (forall (w : SerialWriter.t),
        exists b, fst (SerialWriter.getBuffer (h, w)) = Normal b /\ h !! b = None).
Proof.
  split.
  - unfold SerialReader.getBuffer, gets. f_equal. f_equal.
    apply (respects_after same_dv rcall ops same_dv_rcall).
  - intros w. eexists. split; [reflexivity |].
    apply not_elem_of_dom, is_fresh.
Qed.

(** ** The heap under allocation and stores *)

Lemma bytes_of_insert_eq (h : heap) (l : loc) (bs : list Z) :
  bytes_of (<[l := bs]> h) l = bs.
Proof. unfold bytes_of. by rewrite lookup_insert_eq. Qed.

Lemma bytes_of_insert_ne (h : heap) (l l' : loc) (bs : list Z) :
  l ≠ l' -> bytes_of (<[l := bs]> h) l' = bytes_of h l'.
Proof. intros Hne. unfold bytes_of. by rewrite lookup_insert_ne. Qed.

Lemma bytes_of_lookup (h : heap) (l : loc) (bs : list Z) :
  h !! l = Some bs -> bytes_of h l = bs.
Proof. intros Hl. unfold bytes_of. by rewrite Hl. Qed.

Lemma fresh_None (h : heap) : h !! fresh (dom h) = None.
Proof. apply not_elem_of_dom, is_fresh. Qed.

Lemma fresh_ne (h : heap) (l : loc) : is_Some (h !! l) -> l ≠ fresh (dom h).
Proof. intros [bs Hl] ->. rewrite fresh_None in Hl. discriminate. Qed.

Lemma Uint8Array_set_SetViewValue (target : loc) (source : list Z) (offset : Z) (h : heap) :
  Uint8Array_set target source offset h = DataView.SetViewValue target offset source h.
Proof.
  unfold Uint8Array_set, DataView.SetViewValue, byteLength.
  by rewrite (Z.add_comm offset).
Qed.

(** A store changes one buffer, in place: every buffer keeps its length,
    and every other buffer its bytes. *)
Lemma SetViewValue_other (dv : loc) (index : Z) (raw : list Z) (h : heap) (l : loc) :
  l ≠ dv -> snd (DataView.SetViewValue dv index raw h) !! l = h !! l.
Proof.
  intros Hne. unfold DataView.SetViewValue.
  destruct (_ || _); simpl; [reflexivity |]. by rewrite lookup_insert_ne.
Qed.

Lemma SetViewValue_is_Some (dv : loc) (index : Z) (raw : list Z) (h : heap) (l : loc) :
  is_Some (h !! l) -> is_Some (snd (DataView.SetViewValue dv index raw h) !! l).
Proof.
  intros Hl. unfold DataView.SetViewValue.
  destruct (_ || _); simpl; [assumption |].
  destruct (decide (dv = l)) as [-> | Hne].
  - rewrite lookup_insert_eq. eauto.
  - by rewrite lookup_insert_ne.
Qed.

Lemma SetViewValue_length (dv : loc) (index : Z) (raw : list Z) (h : heap) (l : loc) :
  length (bytes_of (snd (DataView.SetViewValue dv index raw h)) l)
  = length (bytes_of h l).
Proof.
  unfold DataView.SetViewValue, byteLength.
  destruct (_ || _) eqn:Hcheck; simpl; [reflexivity |].
  apply orb_false_iff in Hcheck as [Hlo Hhi].
  apply Z.ltb_ge in Hlo. apply Z.ltb_ge in Hhi.
  destruct (decide (dv = l)) as [-> | Hne].
  - rewrite bytes_of_insert_eq, !length_app, length_take, length_drop. lia.
  - by rewrite bytes_of_insert_ne.
Qed.

(** ** The growth of the writer's store *)

(** [allocMin], spelled out: nothing below capacity; from capacity on, a
    new buffer of [max length (2 * capacity)] bytes that starts with all the
    bytes of the old one and is zero after them, and that [this.dv] now
    views. The old buffer stays as it was. *)
Lemma allocMin_spec (length : Z) (h : heap) (w : SerialWriter.t) :
  is_Some (h !! SerialWriter.dv w) ->
  let old := bytes_of h (SerialWriter.dv w) in
  let cap := byteLength h (SerialWriter.dv w) in
  SerialWriter.allocMin length (h, w) =
    if cap <=? length then
      let newBuffer := fresh (dom h) in
      (Normal tt,
       (<[newBuffer := old ++ replicate (Z.to_nat (Z.max length (cap * 2) - cap)) 0]> h,
        {| SerialWriter.dv := newBuffer; SerialWriter.pos := SerialWriter.pos w |}))
    else (Normal tt, (h, w)).
Proof.
  intros Hdv old cap.
  unfold SerialWriter.allocMin, bind, gets; simpl. fold cap.
  destruct (cap <=? length) eqn:Hgrow; [| reflexivity].
  apply Z.leb_le in Hgrow.
  assert (0 <= cap) by (unfold cap, byteLength; lia).
  unfold onHeap, ArrayBuffer.new; simpl.
  destruct (Z.max length (cap * 2) <? 0) eqn:Hneg; [apply Z.ltb_lt in Hneg; lia |].
  unfold alloc; simpl.
  pose proof (fresh_ne h _ Hdv) as Hne.
  rewrite bytes_of_insert_ne by congruence. fold old.
  unfold Uint8Array_set, SerialWriter.set_dv, modify; simpl.
  rewrite bytes_of_insert_eq, length_replicate.
  assert (Hlen : Z.of_nat (base.length old) = cap) by reflexivity.
  destruct (Z.of_nat (Z.to_nat (Z.max length (cap * 2)))
            <? Z.of_nat (base.length old) + 0) eqn:Hfit;
    [apply Z.ltb_lt in Hfit; lia |].
  simpl. rewrite insert_insert_eq. repeat f_equal.
  rewrite drop_replicate. f_equal. lia.
Qed.

Lemma delayedMove_spec (move : Z) (h : heap) (w : SerialWriter.t) :
  is_Some (h !! SerialWriter.dv w) ->
  let old := bytes_of h (SerialWriter.dv w) in
  let cap := byteLength h (SerialWriter.dv w) in
  let p := SerialWriter.pos w + move in
  SerialWriter.delayedMove move (h, w) =
    (Normal (SerialWriter.pos w),
     if cap <=? p then
       let newBuffer := fresh (dom h) in
       (<[newBuffer := old ++ replicate (Z.to_nat (Z.max p (cap * 2) - cap)) 0]> h,
        {| SerialWriter.dv := newBuffer; SerialWriter.pos := p |})
     else (h, {| SerialWriter.dv := SerialWriter.dv w; SerialWriter.pos := p |})).
Proof.
  intros Hdv old cap p.
  unfold SerialWriter.delayedMove, bind, gets, SerialWriter.set_pos, modify; simpl.
  rewrite allocMin_spec by (simpl; assumption). simpl.
  fold cap p old. destruct (cap <=? p); reflexivity.
Qed.

(** ** Every write keeps the writer in good order *)

#[local] Instance extends_refl : Reflexive extends.
Proof. intros s Hwf. repeat split; try apply Hwf; auto; lia. Qed.

#[local] Instance extends_trans : Transitive extends.
Proof.
  intros s1 s2 s3 H12 H23 Hwf1.
  destruct (H12 Hwf1) as (Hwf2 & Hpos12 & Hlen12 & Hframe12).
  destruct (H23 Hwf2) as (Hwf3 & Hpos23 & Hlen23 & Hframe23).
  repeat split; try apply Hwf3.
  - lia.
  - apply Hlen23, Hlen12, H.
  - destruct (Hlen12 l H) as [Hl2 Hlen2].
    destruct (Hlen23 l Hl2) as [_ Hlen3]. congruence.
  - destruct (Hframe12 l H H0) as [Hne2 Heq2].
    destruct (Hlen12 l H) as [Hl2 _].
    apply (Hframe23 l Hl2 Hne2).
  - destruct (Hframe12 l H H0) as [Hne2 Heq2].
    destruct (Hlen12 l H) as [Hl2 _].
    destruct (Hframe23 l Hl2 Hne2) as [_ Heq3]. congruence.
Qed.

Lemma extends_grown (h : heap) (w : SerialWriter.t) (p : Z) (extra : nat) :
  SerialWriter.pos w <= p <= byteLength h (SerialWriter.dv w) + Z.of_nat extra ->
  extends (h, w)
    (<[fresh (dom h) := bytes_of h (SerialWriter.dv w) ++ replicate extra 0]> h,
     {| SerialWriter.dv := fresh (dom h); SerialWriter.pos := p |}).
Proof.
  intros Hp [Hdv Hpos]. unfold wf, byteLength in *; simpl in *.
  assert (Hfresh : forall l, is_Some (h !! l) -> fresh (dom h) ≠ l)
    by (intros l Hl Heq; by apply (fresh_ne h l Hl)).
  rewrite lookup_insert_eq, bytes_of_insert_eq, length_app, length_replicate.
  repeat split; eauto; try lia.
  - rewrite lookup_insert_ne by auto. assumption.
  - rewrite bytes_of_insert_ne by auto. reflexivity.
  - intros ->. by apply (Hfresh _ H).
  - rewrite lookup_insert_ne by auto. reflexivity.
Qed.

Lemma extends_moved (h : heap) (w : SerialWriter.t) (p : Z) :
  SerialWriter.pos w <= p <= byteLength h (SerialWriter.dv w) ->
  extends (h, w) (h, {| SerialWriter.dv := SerialWriter.dv w; SerialWriter.pos := p |}).
Proof.
  intros Hp [Hdv Hpos]. unfold wf in *; simpl in *.
  repeat split; eauto; lia.
Qed.

Lemma extends_delayedMove (move : Z) :
  0 <= move -> respects extends (SerialWriter.delayedMove move).
Proof.
  intros Hmove [h w] Hwf. destruct (Hwf) as [Hdv Hpos]; simpl in *.
  rewrite delayedMove_spec by assumption. simpl.
  destruct (_ <=? _) eqn:Hgrow; simpl.
  - apply Z.leb_le in Hgrow. apply extends_grown; [| assumption]. lia.
  - apply Z.leb_gt in Hgrow. apply extends_moved; [| assumption]. lia.
Qed.

(** After [delayedMove], a store into any buffer that existed before. *)
Lemma extends_then_store (s s1 : SerialWriter.state) (index : Z) (raw : list Z) :
  wf s -> extends s s1 ->
  extends s
    (snd (DataView.SetViewValue (SerialWriter.dv (snd s)) index raw (fst s1)), snd s1).
Proof.
  intros Hwf H01 _. destruct (H01 Hwf) as (Hwf1 & Hpos & Hlen & Hframe).
  destruct Hwf1 as [Hdv1 Hpos1]. unfold wf, byteLength in *; simpl.
  rewrite SetViewValue_length.
  repeat split; try lia.
  - by apply SetViewValue_is_Some.
  - apply SetViewValue_is_Some, Hlen, H.
  - rewrite SetViewValue_length. apply Hlen, H.
  - apply (Hframe l H H0).
  - rewrite SetViewValue_other by assumption. apply (Hframe l H H0).
Qed.

Lemma write_state (size : nat) (width n : Z) (s : SerialWriter.state) :
  wf s ->
  snd (SerialWriter.write (DataView.setUint size) width n s) =
    let s1 := snd (SerialWriter.delayedMove width s) in
    (snd (DataView.SetViewValue (SerialWriter.dv (snd s)) (SerialWriter.pos (snd s))
            (DataView.be_bytes size n) (fst s1)),
     snd s1).
Proof.
  intros [Hdv _]. destruct s as [h w]; simpl in *.
  unfold SerialWriter.write, bind, gets; simpl.
  rewrite delayedMove_spec by assumption. simpl.
  unfold onHeap, DataView.setUint.
  destruct (DataView.SetViewValue _ _ _ _); reflexivity.
Qed.

Lemma extends_write (size : nat) (width n : Z) :
  0 <= width -> respects extends (SerialWriter.write (DataView.setUint size) width n).
Proof.
  intros Hwidth s Hwf. rewrite write_state by assumption.
  apply extends_then_store; [assumption | | assumption].
  by apply extends_delayedMove.
Qed.

Lemma extends_write_missing (width : Z) :
  0 <= width -> respects extends (SerialWriter.write_missing width).
Proof.
  intros Hwidth. unfold SerialWriter.write_missing.
  repeat first [ by apply extends_delayedMove | respects_step ].
Qed.

Lemma extends_wu8 (n : Z) : respects extends (SerialWriter.wu8 n).
Proof. apply (extends_write 1 1 n). lia. Qed.

Lemma extends_wuv_loop (passes : nat) (n : Z) :
  respects extends (SerialWriter.wuv_loop passes n).
Proof.
  induction passes as [| i IH]; simpl;
    repeat first [ apply extends_wu8 | apply IH | respects_step ].
Qed.

Lemma extends_wuv (n : Z) : respects extends (SerialWriter.wuv n).
Proof. apply extends_wuv_loop. Qed.

Lemma extends_alloc (bs : list Z) :
  respects extends (@onHeap SerialWriter.t _ (alloc bs)).
Proof.
  intros [h w] [Hdv Hpos]; simpl in *.
  pose proof (fresh_ne h _ Hdv) as Hfresh.
  unfold wf, byteLength in *; simpl.
  rewrite lookup_insert_ne, bytes_of_insert_ne by congruence.
  repeat split; auto; try lia.
  - destruct (decide (fresh (dom h) = l)) as [<- | Hne];
      [rewrite lookup_insert_eq; eauto | by rewrite lookup_insert_ne].
  - rewrite bytes_of_insert_ne; [reflexivity |].
    intros <-. by apply (fresh_ne h _ H).
  - rewrite lookup_insert_ne; [reflexivity |].
    intros <-. by apply (fresh_ne h _ H).
Qed.

Lemma extends_Uint8Array_new (x : bytes_arg) :
  respects extends (@onHeap SerialWriter.t _ (Uint8Array_new x)).
Proof.
  destruct x as [b | b]; simpl.
  - intros [h w]. reflexivity.
  - intros s. apply (extends_alloc _ s).
Qed.

(** [allocMinExtra] leaves room for the bytes asked for. *)
Lemma allocMinExtra_room (k : Z) (s : SerialWriter.state) :
  wf s -> 0 <= k ->
  let s' := snd (SerialWriter.allocMinExtra k s) in
  extends s s'
  /\ SerialWriter.pos (snd s') = SerialWriter.pos (snd s)
  /\ SerialWriter.pos (snd s') + k <= byteLength (fst s') (SerialWriter.dv (snd s')).
Proof.
  intros Hwf Hk. destruct s as [h [dv pos]]. destruct (Hwf) as [Hdv Hpos]; simpl in *.
  unfold SerialWriter.allocMinExtra, bind, gets; simpl.
  rewrite allocMin_spec by assumption. simpl.
  destruct (_ <=? pos + k) eqn:Hgrow; simpl.
  - apply Z.leb_le in Hgrow.
    split; [apply (extends_grown h (SerialWriter.mk dv pos)); simpl; lia |].
    split; [reflexivity |].
    unfold byteLength in *.
    rewrite bytes_of_insert_eq, length_app, length_replicate. lia.
  - apply Z.leb_gt in Hgrow.
    split; [reflexivity | split; [reflexivity | lia]].
Qed.

Lemma bind_gets {S A B} (f : S -> A) (k : A -> M S B) (s : S) :
  bind (gets f) k s = k (f s) s.
Proof. reflexivity. Qed.

(** [bind] for [extends], with the value and the state in between known. *)
Lemma extends_bind_at {A B} (m : M SerialWriter.state A)
    (k : A -> M SerialWriter.state B) (s : SerialWriter.state) :
  extends s (snd (m s)) ->
  (forall a s1, m s = (Normal a, s1) -> wf s1 -> extends s1 (snd (k a s1))) ->
  extends s (snd (bind m k s)).
Proof.
  intros Hm Hk. unfold bind.
  destruct (m s) as [[a | e |] s1] eqn:Hrun; simpl in *; try assumption.
  intros Hwf. destruct (Hm Hwf) as [Hwf1 _].
  apply (extends_trans _ _ _ Hm (Hk a s1 eq_refl Hwf1) Hwf).
Qed.

Lemma extends_wbytes (buffer : bytes_arg) :
  respects extends (SerialWriter.wbytes buffer).
Proof.
  intros s. unfold SerialWriter.wbytes.
  apply extends_bind_at; [apply extends_Uint8Array_new | intros u8 s1 _ Hwf1].
  rewrite bind_gets. set (len := byteLength (fst s1) u8).
  assert (Hlen : 0 <= len) by (unfold len, byteLength; lia).
  apply extends_bind_at; [apply extends_wuv | intros [] s2 _ Hwf2].
  destruct (allocMinExtra_room len s2 Hwf2 Hlen) as (H3 & _ & Hroom).
  apply extends_bind_at; [assumption | intros [] s3 Hrun3 Hwf3].
  rewrite Hrun3 in Hroom. cbn [fst snd] in Hroom. clear H3 Hrun3.
  rewrite !bind_gets.
  pose proof (extends_then_store s3 s3 (SerialWriter.pos (snd s3))
                (bytes_of (fst s3) u8) Hwf3 (reflexivity _)) as H4.
  unfold bind, onHeap. rewrite Uint8Array_set_SetViewValue.
  destruct (DataView.SetViewValue _ _ _ (fst s3)) as [[[] | e |] h4];
    cbn [fst snd] in *; try assumption.
  unfold gets, SerialWriter.set_pos, modify; cbn [fst snd].
  intros _. destruct (H4 Hwf3) as ([Hdv4 Hpos4] & _ & Hlen4 & Hframe4).
  destruct Hwf3 as [Hdv3 Hbound3].
  destruct (Hlen4 _ Hdv3) as [_ Hcap4].
  unfold wf, byteLength in *; cbn [fst snd SerialWriter.dv SerialWriter.pos] in *.
  repeat split; auto; try lia; try apply (Hlen4 l H); apply (Hframe4 l H H0).
Qed.

Lemma extends_wutf8 (str : list Z) : respects extends (SerialWriter.wutf8 str).
Proof.
  unfold SerialWriter.wutf8.
  repeat first [ apply extends_alloc | apply extends_wbytes | respects_step ].
Qed.

Lemma extends_wcall (op : wop) : respects extends (wcall op).
Proof.
  destruct op; simpl.
  - apply (extends_write 1); lia.
  - apply (extends_write 2); lia.
  - apply (extends_write 4); lia.
  - apply extends_write_missing; lia.
  - apply (extends_write 1); lia.
  - apply (extends_write 2); lia.
  - apply (extends_write 4); lia.
  - apply extends_write_missing; lia.
  - apply (extends_write 4); lia.
  - apply (extends_write 8); lia.
  - apply (extends_write 1); lia.
  - apply (extends_write 1); lia.
  - apply extends_wuv.
  - apply extends_wuv.
  - apply extends_wbytes.
  - apply extends_wutf8.
Qed.

(** [slice] between bounds that are not negative: the bytes from [start]
    up to [stop], as many as there are. *)
Lemma slice_bytes_nonneg (bs : list Z) (start stop : Z) :
  0 <= start -> 0 <= stop ->
  ArrayBuffer.slice_bytes bs start stop
  = take (Z.to_nat (stop - start)) (drop (Z.to_nat start) bs).
Proof.
  intros Hstart Hstop. unfold ArrayBuffer.slice_bytes, ArrayBuffer.clamp.
  destruct (start <? 0) eqn:H1; [apply Z.ltb_lt in H1; lia |].
  destruct (stop <? 0) eqn:H2; [apply Z.ltb_lt in H2; lia |].
  destruct (decide (Z.of_nat (length bs) <= start)) as [Hout | Hin].
  - rewrite !drop_ge by lia. by rewrite !take_nil.
  - rewrite (Z.min_l start) by lia.
    destruct (decide (stop <= Z.of_nat (length bs))) as [Hle | Hgt].
    + rewrite (Z.min_l stop) by lia. f_equal. lia.
    + rewrite (Z.min_r stop) by lia.
      rewrite !take_ge; [reflexivity | |]; rewrite length_drop; lia.
Qed.

Lemma slice_bytes_whole (bs : list Z) :
  ArrayBuffer.slice_bytes bs 0 (Z.of_nat (length bs)) = bs.
Proof.
  rewrite slice_bytes_nonneg by lia. simpl. rewrite drop_0.
  apply take_ge. lia.
Qed.

(** The constructor makes a writer in good order, over a copy of the
    buffer it is given. *)
Lemma wf_constructor (buffer : option loc) (h : heap) :
  match SerialWriter.constructor buffer h with
  | (Normal w, h') => wf (h', w)
  | _ => False
  end.
Proof.
  destruct buffer as [b |]; unfold SerialWriter.constructor, bind, gets,
    ArrayBuffer.new, ArrayBuffer.slice_from, alloc, ret, wf; simpl.
  - rewrite lookup_insert_eq. unfold byteLength.
    rewrite bytes_of_insert_eq, slice_bytes_whole.
    split; [eauto | lia].
  - rewrite lookup_insert_eq. split; [eauto | unfold byteLength; lia].
Qed.

(** X19. Every writer that can be reached is in good order: whatever
    buffer it was made over, and whatever was called on it since and
    however the calls completed, its store exists and its cursor lies
    between 0 and the capacity of the store. *)
Theorem wf_reachable (buffer : option loc) (h : heap) (ops : list wop) :
  match SerialWriter.constructor buffer h with
  | (Normal w, h') => wf (after wcall ops (h', w))
  | _ => False
  end.
Proof.
  pose proof (wf_constructor buffer h) as Hwf.
  destruct (SerialWriter.constructor buffer h) as [[w | e |] h']; try assumption.
  apply (respects_after extends wcall ops extends_wcall (h', w) Hwf).
Qed.

(** ** Extraction from the writer *)

(** C9. For a writer in good order, [getBuffer] returns a buffer that did
    not exist before the call, hence not the backing store nor an alias of
    it, holding exactly the bytes [0, pos) of the store ([pos] of them, not
    the capacity). The writer is left as it was: same cursor, same store,
    same bytes in it, still in good order. A second call returns another
    new buffer with the same bytes; and whatever is written afterwards,
    the buffer extracted first keeps its bytes and never becomes the
    store, while a store into the extracted buffer leaves the writer's
    bytes alone. *)
Theorem writer_getBuffer_detached (s : SerialWriter.state) :
  wf s ->
  let h := fst s in
  let w := snd s in
  let logical := take (Z.to_nat (SerialWriter.pos w)) (bytes_of h (SerialWriter.dv w)) in
  exists b,
    SerialWriter.getBuffer s = (Normal b, (<[b := logical]> h, w))
    /\ Z.of_nat (length logical) = SerialWriter.pos w
    /\ h !! b = None
    /\ b ≠ SerialWriter.dv w
    /\ bytes_of (<[b := logical]> h) (SerialWriter.dv w) = bytes_of h (SerialWriter.dv w)
    /\ wf (<[b := logical]> h, w)
    /\ (exists b2,
          SerialWriter.getBuffer (<[b := logical]> h, w)
          = (Normal b2, (<[b2 := logical]> (<[b := logical]> h), w))
          /\ b2 ≠ b /\ b2 ≠ SerialWriter.dv w)
    /\ (forall ops : list wop,
          let s' := after wcall ops (<[b := logical]> h, w) in
          bytes_of (fst s') b = logical /\ b ≠ SerialWriter.dv (snd s') /\ wf s')
    /\ (forall bs : list Z,
          bytes_of (<[b := bs]> (<[b := logical]> h)) (SerialWriter.dv w)
          = bytes_of h (SerialWriter.dv w)).
Proof.
  intros Hwf. destruct s as [h w]. cbn zeta. cbn [fst snd].
  set (logical := take (Z.to_nat (SerialWriter.pos w)) (bytes_of h (SerialWriter.dv w))).
  destruct (Hwf) as [Hdv Hpos]; simpl in Hdv, Hpos.
  set (b := fresh (dom h)).
  assert (Hfresh : h !! b = None) by apply fresh_None.
  assert (Hne : b ≠ SerialWriter.dv w)
    by (intros Heq; by apply (fresh_ne h _ Hdv)).
  assert (Hget : forall h1, bytes_of h1 (SerialWriter.dv w) = bytes_of h (SerialWriter.dv w) ->
            SerialWriter.getBuffer (h1, w)
            = (Normal (fresh (dom h1)), (<[fresh (dom h1) := logical]> h1, w))).
  { intros h1 Hsame.
    unfold SerialWriter.getBuffer, bind, gets, onHeap, ArrayBuffer.slice, alloc; simpl.
    rewrite Hsame, slice_bytes_nonneg by lia. by rewrite Z.sub_0_r, drop_0. }
  assert (Hsame : bytes_of (<[b := logical]> h) (SerialWriter.dv w)
                  = bytes_of h (SerialWriter.dv w))
    by (by apply bytes_of_insert_ne).
  assert (Hwf' : wf (<[b := logical]> h, w)).
  { unfold wf, byteLength; simpl. rewrite Hsame, lookup_insert_ne by assumption.
    exact Hwf. }
  exists b. repeat split.
  - apply Hget. reflexivity.
  - subst logical. rewrite length_take. unfold byteLength in Hpos. lia.
  - assumption.
  - assumption.
  - assumption.
  - apply Hwf'.
  - apply Hwf'.
  - apply Hwf'.
  - exists (fresh (dom (<[b := logical]> h))). split; [by apply Hget |].
    split.
    + intros Heq. apply (fresh_ne (<[b := logical]> h) b); [| by symmetry].
      rewrite lookup_insert_eq. eauto.
    + intros Heq. apply (fresh_ne (<[b := logical]> h) (SerialWriter.dv w));
        [| by symmetry].
      rewrite lookup_insert_ne by assumption. assumption.
  - pose proof (respects_after extends wcall ops extends_wcall
                  (<[b := logical]> h, w) Hwf') as (_ & _ & _ & Hframe).
    destruct (Hframe b) as [_ Heq]; simpl.
    + rewrite lookup_insert_eq. eauto.
    + assumption.
    + unfold bytes_of. rewrite Heq. simpl. by rewrite lookup_insert_eq.
  - pose proof (respects_after extends wcall ops extends_wcall
                  (<[b := logical]> h, w) Hwf') as (_ & _ & _ & Hframe).
    destruct (Hframe b) as [Hne' _]; simpl; try assumption.
    rewrite lookup_insert_eq. eauto.
  - pose proof (respects_after extends wcall ops extends_wcall
                  (<[b := logical]> h, w) Hwf') as (Hwf'' & _). apply Hwf''.
  - pose proof (respects_after extends wcall ops extends_wcall
                  (<[b := logical]> h, w) Hwf') as (Hwf'' & _). apply Hwf''.
  - pose proof (respects_after extends wcall ops extends_wcall
                  (<[b := logical]> h, w) Hwf') as (Hwf'' & _). apply Hwf''.
  - intros bs. rewrite insert_insert_eq. by apply bytes_of_insert_ne.
Qed.

Lemma writer_getBuffer_detached_witness :
  wf (writer_over [7; 8; 9; 0; 0; 0; 0; 0] 3)
  /\ exists b,
       SerialWriter.getBuffer (writer_over [7; 8; 9; 0; 0; 0; 0; 0] 3)
       = (Normal b,
          (<[b := [7; 8; 9]]> (fst (writer_over [7; 8; 9; 0; 0; 0; 0; 0] 3)),
           snd (writer_over [7; 8; 9; 0; 0; 0; 0; 0] 3)))
       /\ b ≠ O.
Proof.
  assert (Hwf : wf (writer_over [7; 8; 9; 0; 0; 0; 0; 0] 3)).
  { split; [exists [7; 8; 9; 0; 0; 0; 0; 0]; reflexivity | vm_compute; split; discriminate]. }
  split; [exact Hwf |].
  destruct (writer_getBuffer_detached _ Hwf) as (b & Hget & _ & _ & Hne & _).
  exists b. split; [exact Hget | exact Hne].
Defined.

(** ** The reader's methods, spelled out *)

(** A fixed-width read moves the cursor by its width, whether the
    accessor throws or not, and touches nothing else. *)
Lemma read_getUint (size : nat) (width : Z) (s : SerialReader.state) :
  SerialReader.read (DataView.getUint size) width s =
    (if (SerialReader.pos (snd s) <? 0)
        || (byteLength (fst s) (SerialReader.dv (snd s))
            <? SerialReader.pos (snd s) + Z.of_nat size)
     then Throw RangeError
     else Normal (DataView.be_uint 0 (take size (ahead s))),
     moved width s).
Proof.
  destruct s as [h r].
  unfold SerialReader.read, bind, gets, SerialReader.delayedMove, onHeap,
    DataView.getUint, DataView.GetViewValue, ahead, moved, ret, bind; simpl.
  destruct (_ || _); reflexivity.
Qed.

Lemma read_getInt (size : nat) (width : Z) (s : SerialReader.state) :
  SerialReader.read (DataView.getInt size) width s =
    (if (SerialReader.pos (snd s) <? 0)
        || (byteLength (fst s) (SerialReader.dv (snd s))
            <? SerialReader.pos (snd s) + Z.of_nat size)
     then Throw RangeError
     else Normal (DataView.signed (8 * Z.of_nat size)
                    (DataView.be_uint 0 (take size (ahead s)))),
     moved width s).
Proof.
  destruct s as [h r].
  unfold SerialReader.read, bind, gets, SerialReader.delayedMove, onHeap,
    DataView.getInt, DataView.GetViewValue, ahead, moved, ret, bind; simpl.
  destruct (_ || _); reflexivity.
Qed.

Lemma read_missing_spec {A} (width : Z) (s : SerialReader.state) :
  @SerialReader.read_missing A width s = (Throw TypeError, moved width s).
Proof. destruct s as [h r]. reflexivity. Qed.

Lemma moved_moved (j k : Z) (s : SerialReader.state) :
  moved k (moved j s) = moved (j + k) s.
Proof. unfold moved; simpl. by rewrite Z.add_assoc. Qed.

Lemma ahead_moved_1 (s : SerialReader.state) (byte : Z) (rest : list Z) :
  0 <= SerialReader.pos (snd s) -> ahead s = byte :: rest -> ahead (moved 1 s) = rest.
Proof.
  unfold ahead, moved; simpl. intros Hpos Hahead.
  replace (Z.to_nat (SerialReader.pos (snd s) + 1))
    with (Z.to_nat (SerialReader.pos (snd s)) + 1)%nat by lia.
  rewrite <- drop_drop, Hahead. reflexivity.
Qed.

(** One [ru8], by what lies ahead. *)
Lemma ru8_spec (s : SerialReader.state) :
  0 <= SerialReader.pos (snd s) ->
  SerialReader.ru8 s =
    (match ahead s with
     | [] => Throw RangeError
     | byte :: _ => Normal byte
     end, moved 1 s).
Proof.
  intros Hpos. unfold SerialReader.ru8, DataView.getUint8.
  rewrite read_getUint. f_equal.
  assert (Hlen : length (ahead s)
                 = (length (bytes_of (fst s) (SerialReader.dv (snd s)))
                    - Z.to_nat (SerialReader.pos (snd s)))%nat)
    by (unfold ahead; apply length_drop).
  rewrite (proj2 (Z.ltb_ge _ _) Hpos). cbn [orb]. unfold byteLength.
  destruct (ahead s) as [| byte rest]; simpl in Hlen.
  - rewrite (proj2 (Z.ltb_lt _ _)) by lia. reflexivity.
  - rewrite (proj2 (Z.ltb_ge _ _)) by lia. reflexivity.
Qed.

Lemma ru8_negative (s : SerialReader.state) :
  SerialReader.pos (snd s) < 0 ->
  SerialReader.ru8 s = (Throw RangeError, moved 1 s).
Proof.
  intros Hneg. unfold SerialReader.ru8, DataView.getUint8.
  rewrite read_getUint. by rewrite (proj2 (Z.ltb_lt _ _) Hneg).
Qed.

(** The loop of [ruv] is [varint_scan] over what lies ahead, given fuel
    for one pass more than there are bytes ahead. *)
Lemma ruv_loop_scan (fuel : nat) :
  forall (n : Z) (s : SerialReader.state),
    0 <= SerialReader.pos (snd s) ->
    (length (ahead s) < fuel)%nat ->
    SerialReader.ruv_loop fuel n s =
      (fst (varint_scan (ahead s) n),
       moved (Z.of_nat (snd (varint_scan (ahead s) n))) s).
Proof.
  induction fuel as [| fuel IH]; intros n s Hpos Hfuel; [lia |].
  simpl. unfold bind. rewrite ru8_spec by assumption.
  destruct (ahead s) as [| byte rest] eqn:Hahead; simpl; [reflexivity |].
  destruct (JS.band byte 128 =? 0); [reflexivity |].
  pose proof (ahead_moved_1 s byte rest Hpos Hahead) as Hnext.
  rewrite IH; [| simpl; lia | rewrite Hnext; simpl in Hfuel; lia].
  rewrite Hnext. destruct (varint_scan rest _) as [c k]; simpl.
  rewrite moved_moved. do 2 f_equal. lia.
Qed.

Lemma ruv_spec (s : SerialReader.state) :
  0 <= SerialReader.pos (snd s) ->
  SerialReader.ruv s =
    (fst (varint_scan (ahead s) 0),
     moved (Z.of_nat (snd (varint_scan (ahead s) 0))) s).
Proof.
  intros Hpos. unfold SerialReader.ruv. apply ruv_loop_scan; [assumption |].
  unfold ahead. rewrite length_drop. lia.
Qed.

Lemma ruv_negative (s : SerialReader.state) :
  SerialReader.pos (snd s) < 0 ->
  SerialReader.ruv s = (Throw RangeError, moved 1 s).
Proof.
  intros Hneg. unfold SerialReader.ruv. simpl. unfold bind.
  by rewrite ru8_negative.
Qed.

(** The loop always ends within its fuel: [ruv] returns or throws. *)
Lemma ruv_fuel (s : SerialReader.state) : fst (SerialReader.ruv s) ≠ OutOfFuel.
Proof.
  destruct (decide (0 <= SerialReader.pos (snd s))) as [Hpos | Hneg].
  - rewrite ruv_spec by assumption. simpl.
    generalize 0. induction (ahead s) as [| byte rest IH]; intros n; simpl.
    + discriminate.
    + destruct (_ =? 0); [discriminate |].
      specialize (IH (JS.bor (JS.shl n 7) (JS.band byte 127))).
      destruct (varint_scan rest _). assumption.
  - rewrite ruv_negative by lia. discriminate.
Qed.

Lemma varint_scan_span (rest : list Z) :
  forall n, snd (varint_scan rest n) = varint_span rest.
Proof.
  induction rest as [| byte rest IH]; intros n; simpl; [reflexivity |].
  destruct (_ =? 0); [reflexivity |].
  specialize (IH (JS.bor (JS.shl n 7) (JS.band byte 127))).
  destruct (varint_scan rest _) as [c k]. simpl in *. by rewrite IH.
Qed.


(** Bytes after a varint that ends do not change it. *)
Lemma varint_scan_app (rest more : list Z) :
  forall n v k,
    varint_scan rest n = (Normal v, k) -> varint_scan (rest ++ more) n = (Normal v, k).
Proof.
  induction rest as [| byte rest IH]; intros n v k; simpl; [discriminate |].
  destruct (_ =? 0); [trivial |].
  destruct (varint_scan rest _) as [c k'] eqn:Hscan. intros [= -> <-].
  by rewrite (IH _ _ _ Hscan).
Qed.

(** Past the end, in terms of the bytes ahead. *)
Lemma past_end_ahead (s : SerialReader.state) (size : nat) :
  0 <= SerialReader.pos (snd s) -> (0 < size)%nat ->
  (byteLength (fst s) (SerialReader.dv (snd s))
   <? SerialReader.pos (snd s) + Z.of_nat size)
  = (length (ahead s) <? size)%nat.
Proof.
  intros Hpos Hsize. unfold ahead, byteLength. rewrite length_drop.
  destruct (Nat.ltb_spec (length (bytes_of (fst s) (SerialReader.dv (snd s)))
                          - Z.to_nat (SerialReader.pos (snd s))) size).
  - apply Z.ltb_lt. lia.
  - apply Z.ltb_ge. lia.
Qed.

Lemma fmap_M_spec {S A B} (f : A -> B) (m : M S A) (s : S) :
  fmap_M f m s = (cmap f (fst (m s)), snd (m s)).
Proof. unfold fmap_M, bind, ret. destruct (m s) as [[a | e |] s']; reflexivity. Qed.

Lemma rbool_spec (s : SerialReader.state) :
  SerialReader.rbool s = (cmap (fun b => 0 <? b) (fst (SerialReader.ru8 s)),
                          snd (SerialReader.ru8 s)).
Proof. apply (fmap_M_spec (fun b => 0 <? b)). Qed.

Lemma rchar_spec (s : SerialReader.state) :
  SerialReader.rchar s = (cmap (fun b => [b mod 65536]) (fst (SerialReader.ru8 s)),
                          snd (SerialReader.ru8 s)).
Proof. apply (fmap_M_spec (fun b => [b mod 65536])). Qed.

Lemma riv_spec (s : SerialReader.state) :
  SerialReader.riv s =
    (cmap (fun n =>
             let sign := if JS.band n 0x1 =? 0 then 1 else -1 in
             JS.ushr (JS.band n (JS.bnot 0x1)) 1 * sign)
          (fst (SerialReader.ruv s)),
     snd (SerialReader.ruv s)).
Proof.
  apply (fmap_M_spec (fun n =>
             let sign := if JS.band n 0x1 =? 0 then 1 else -1 in
             JS.ushr (JS.band n (JS.bnot 0x1)) 1 * sign)).
Qed.

(** [rbytes], spelled out: after the prefix, a new buffer with the slice
    between the cursor and the cursor plus the length, and the cursor
    moved by the length whatever the slice holds. *)
Lemma rbytes_spec (s : SerialReader.state) :
  SerialReader.rbytes s =
    match SerialReader.ruv s with
    | (Normal length, s1) =>
        let b := fresh (dom (fst s1)) in
        let p := SerialReader.pos (snd s1) in
        (Normal b,
         (<[b := ArrayBuffer.slice_bytes
                   (bytes_of (fst s1) (SerialReader.dv (snd s1))) p (p + length)]>
            (fst s1),
          snd (moved length s1)))
    | (Throw e, s1) => (Throw e, s1)
    | (OutOfFuel, s1) => (OutOfFuel, s1)
    end.
Proof.
  unfold SerialReader.rbytes, bind at 1.
  destruct (SerialReader.ruv s) as [[length | e |] s1]; reflexivity.
Qed.

Ltac fixed_read Hpos :=
  unfold SerialReader.ri8, SerialReader.ri16, SerialReader.ri32,
    SerialReader.ru8, SerialReader.ru16, SerialReader.ru32,
    SerialReader.rf32, SerialReader.rf64,
    DataView.getInt8, DataView.getInt16, DataView.getInt32,
    DataView.getUint8, DataView.getUint16, DataView.getUint32,
    DataView.getFloat32, DataView.getFloat64;
  first [ rewrite read_getInt | rewrite read_getUint ];
  rewrite (proj2 (Z.ltb_ge _ _) Hpos), past_end_ahead by (assumption || lia);
  unfold decode, decode_fixed, radvance; cbn [orb fst snd cmap rwidth default];
  destruct (_ <? _)%nat; cbn [fst snd cmap observe]; repeat split; auto.

(** Every read, by the bytes ahead of a cursor that is not negative: the
    cursor moves by [radvance], the reader's buffer is untouched, and what
    the caller sees is [decode]. *)
Lemma rcall_spec (op : rop) (s : SerialReader.state) :
  0 <= SerialReader.pos (snd s) ->
  is_Some (fst s !! SerialReader.dv (snd s)) ->
  let r := rcall op s in
  snd (snd r) = snd (moved (radvance op (ahead s)) s)
  /\ bytes_of (fst (snd r)) (SerialReader.dv (snd s))
     = bytes_of (fst s) (SerialReader.dv (snd s))
  /\ is_Some (fst (snd r) !! SerialReader.dv (snd s))
  /\ (length_ok op (ahead s) ->
      cmap (observe (fst (snd r))) (fst r) = decode op (ahead s)).
Proof.
  intros Hpos Hdv. cbn zeta.
  destruct op; cbn [rcall]; rewrite fmap_M_spec;
    try rewrite rbool_spec; try rewrite rchar_spec; try rewrite riv_spec;
    try rewrite read_missing_spec.
  - fixed_read Hpos.
  - fixed_read Hpos.
  - fixed_read Hpos.
  - unfold SerialReader.ri64. rewrite read_missing_spec. repeat split; auto.
  - fixed_read Hpos.
  - fixed_read Hpos.
  - fixed_read Hpos.
  - unfold SerialReader.ru64. rewrite read_missing_spec. repeat split; auto.
  - fixed_read Hpos.
  - fixed_read Hpos.
  - fixed_read Hpos.
  - fixed_read Hpos.
  - rewrite ruv_spec by assumption. unfold radvance, decode, decode_varint.
    rewrite varint_scan_span. cbn [fst snd].
    destruct (fst (varint_scan (ahead s) 0)); repeat split; auto.
  - rewrite ruv_spec by assumption. unfold radvance, decode, decode_varint.
    rewrite varint_scan_span. cbn [fst snd].
    destruct (fst (varint_scan (ahead s) 0)); repeat split; auto.
  - rewrite rbytes_spec, ruv_spec by assumption.
    unfold radvance, decode, length_ok.
    destruct (varint_scan (ahead s) 0) as [[length | e |] k] eqn:Hscan;
      cbn [fst snd cmap moved SerialReader.dv SerialReader.pos];
      try (repeat split; auto; fail).
    pose proof (fresh_ne (fst s) _ Hdv) as Hfresh.
    repeat split.
    + by rewrite Z.add_assoc.
    + by apply bytes_of_insert_ne.
    + by rewrite lookup_insert_ne.
    + intros Hlen. cbn [observe]. rewrite bytes_of_insert_eq.
      rewrite slice_bytes_nonneg by lia.
      unfold ahead. rewrite drop_drop.
      replace (SerialReader.pos (snd s) + Z.of_nat k + length
               - (SerialReader.pos (snd s) + Z.of_nat k)) with length by lia.
      replace (Z.to_nat (SerialReader.pos (snd s) + Z.of_nat k))
        with (Z.to_nat (SerialReader.pos (snd s)) + k)%nat by lia.
      reflexivity.
  - unfold SerialReader.rutf8, throw. repeat split; auto.
    unfold moved, radvance. destruct s as [h [dv pos]]; simpl. by rewrite Z.add_0_r.
Qed.


(** ** The cursor does not go back *)

#[local] Instance forward_refl : Reflexive forward.
Proof. intros s. unfold forward. lia. Qed.

#[local] Instance forward_trans : Transitive forward.
Proof. intros s1 s2 s3. unfold forward. lia. Qed.







(** ** How far the writer's cursor moves *)











(** ** Reads one after the other *)

Lemma observed_spec (op : rop) (s : SerialReader.state) :
  0 <= SerialReader.pos (snd s) ->
  is_Some (fst s !! SerialReader.dv (snd s)) ->
  length_ok op (ahead s) ->
  exists h',
    observed op s = (decode op (ahead s), (h', snd (moved (radvance op (ahead s)) s)))
    /\ bytes_of h' (SerialReader.dv (snd s)) = bytes_of (fst s) (SerialReader.dv (snd s))
    /\ is_Some (h' !! SerialReader.dv (snd s)).
Proof.
  intros Hpos Hdv Hok.
  destruct (rcall_spec op s Hpos Hdv) as (Hstate & Hbytes & Hsome & Hvalue).
  specialize (Hvalue Hok). unfold observed, bind, gets.
  destruct (rcall op s) as [c [h' r']]. cbn [fst snd] in *.
  exists h'. subst r'. rewrite <- Hvalue.
  split; [destruct c; reflexivity | by split].
Qed.


Lemma ahead_decoding (bs : list Z) :
  ahead (reader_over bs) = bs.
Proof. unfold ahead; simpl. unfold bytes_of. by rewrite lookup_singleton_eq. Qed.




(** A fixed-width read through an accessor the DataView has throws a
    RangeError when its bytes end past the buffer. *)
Lemma rcall_fixed_past_end (op : rop) (width : Z) (s : SerialReader.state) :
  rwidth op = Some width -> has_accessor op = true ->
  byteLength (fst s) (SerialReader.dv (snd s)) < SerialReader.pos (snd s) + width ->
  fst (rcall op s) = Throw RangeError.
Proof.
  intros Hwidth Hacc Hpast. apply Z.ltb_lt in Hpast.
  destruct op; cbn [rwidth] in Hwidth; cbn [has_accessor] in Hacc;
    try discriminate;
    injection Hwidth as <-; cbn [rcall]; rewrite fmap_M_spec; cbn [fst];
    try rewrite rbool_spec; try rewrite rchar_spec; cbn [fst];
    unfold SerialReader.ri8, SerialReader.ri16, SerialReader.ri32,
      SerialReader.ru8, SerialReader.ru16,
      SerialReader.ru32, SerialReader.rf32, SerialReader.rf64,
      DataView.getInt8, DataView.getInt16, DataView.getInt32,
      DataView.getUint8, DataView.getUint16, DataView.getUint32,
      DataView.getFloat32, DataView.getFloat64;
    first [ rewrite read_getInt | rewrite read_getUint ];
    cbn [fst]; cbv [Z.of_nat Pos.of_succ_nat Pos.succ]; rewrite Hpast, orb_true_r;
    reflexivity.

Qed.

(** A varint whose bytes all carry the continuation bit runs off the end. *)
Lemma varint_scan_unterminated (rest : list Z) :
  Forall (fun byte => JS.band byte 0x80 ≠ 0) rest ->
  forall n, fst (varint_scan rest n) = Throw RangeError.
Proof.
  induction 1 as [| byte rest Hbyte _ IH]; intros n; simpl; [reflexivity |].
  apply Z.eqb_neq in Hbyte. rewrite Hbyte.
  specialize (IH (JS.bor (JS.shl n 7) (JS.band byte 127))).
  by destruct (varint_scan rest _).
Qed.

Lemma ruv_unterminated (s : SerialReader.state) :
  Forall (fun byte => JS.band byte 0x80 ≠ 0) (ahead s) ->
  fst (SerialReader.ruv s) = Throw RangeError.
Proof.
  intros Hall. destruct (decide (0 <= SerialReader.pos (snd s))) as [Hpos | Hneg].
  - rewrite ruv_spec by assumption. by apply varint_scan_unterminated.
  - by rewrite ruv_negative by lia.
Qed.


(** ** Reading past the end *)

(** C3, as stated, fails on a byte run: over the three bytes [5, 1, 2] the
    prefix asks for 5 bytes from offset 1, which is past the end of the
    buffer, and [rbytes] returns the two bytes that are there, with the
    cursor at 6, rather than throw. *)
Lemma rbytes_past_end_no_error :
  SerialReader.ruv (reader_over [5; 1; 2]) = (Normal 5, moved 1 (reader_over [5; 1; 2]))
  /\ byteLength (fst (reader_over [5; 1; 2])) O < 1 + 5
  /\ decoding [5; 1; 2] (observed Rbytes) = (Normal (inr [1; 2]), 6)
  /\ fst (rcall Rbytes (reader_over [5; 1; 2])) ≠ Throw RangeError.
Proof.
  split_all; [vm_compute; reflexivity .. |].
  vm_compute. discriminate.
Qed.

(** C3, amended. A fixed-width read of 8, 16 or 32 bits, a float, a bool
    or a char whose bytes end past the end of the buffer throws a
    RangeError, and so does a varint read ([ruv], [riv], and the prefix of
    [rbytes]) whose continuation bits run up to the end. A byte run whose
    prefix is read but whose payload ends past the end of the buffer does
    not fail: [rbytes] returns a new buffer with the bytes that remain
    and moves the cursor by the whole length. *)
Theorem read_past_end (s : SerialReader.state) :
  (forall (op : rop) (width : Z),
      rwidth op = Some width -> has_accessor op = true ->
      byteLength (fst s) (SerialReader.dv (snd s)) < SerialReader.pos (snd s) + width ->
      fst (rcall op s) = Throw RangeError)
  /\ (Forall (fun byte => JS.band byte 0x80 ≠ 0) (ahead s) ->
      fst (rcall Ruv s) = Throw RangeError
      /\ fst (rcall Riv s) = Throw RangeError
      /\ fst (rcall Rbytes s) = Throw RangeError)
  /\ (forall (length : Z) (s1 : SerialReader.state),
      SerialReader.ruv s = (Normal length, s1) ->
      0 <= length ->
      byteLength (fst s1) (SerialReader.dv (snd s1)) < SerialReader.pos (snd s1) + length ->
      exists b,
        SerialReader.rbytes s
        = (Normal b, (<[b := ahead s1]> (fst s), snd (moved length s1)))
        /\ fst s !! b = None).
Proof.
  split; [| split].
  - intros op width. apply rcall_fixed_past_end.
  - intros Hall. pose proof (ruv_unterminated s Hall) as Hruv.
    cbn [rcall]. rewrite !fmap_M_spec, riv_spec, rbytes_spec. cbn [fst].
    destruct (SerialReader.ruv s) as [c s1]. cbn [fst] in Hruv. subst c.
    by repeat split.
  - intros length s1 Hruv Hlen Hpast.
    destruct (decide (0 <= SerialReader.pos (snd s))) as [Hpos | Hneg];
      [| rewrite ruv_negative in Hruv by lia; discriminate].
    pose proof Hruv as Hruv'. rewrite ruv_spec in Hruv' by assumption.
    injection Hruv' as _ Hs1.
    assert (Hpos1 : 0 <= SerialReader.pos (snd s1)) by (subst s1; simpl; lia).
    assert (Hheap : fst s1 = fst s) by (by subst s1).
    rewrite rbytes_spec, Hruv. cbn zeta. rewrite Hheap.
    exists (fresh (dom (fst s))). split; [| apply fresh_None].
    do 3 f_equal. rewrite slice_bytes_nonneg by lia.
    unfold ahead. rewrite Hheap. apply take_ge.
    rewrite length_drop. unfold byteLength in Hpast. rewrite Hheap in Hpast. lia.
Qed.

Lemma read_past_end_witness :
  fst (rcall Ru32 (reader_over [5; 1; 2])) = Throw RangeError
  /\ fst (rcall Ruv (reader_over [0x85; 0x81])) = Throw RangeError
  /\ exists b,
       fst (SerialReader.rbytes (reader_over [5; 1; 2])) = Normal b
       /\ bytes_of (fst (snd (SerialReader.rbytes (reader_over [5; 1; 2])))) b
          = [1; 2].
Proof.
  split; [| split].
  - destruct (read_past_end (reader_over [5; 1; 2])) as (Hfixed & _).
    apply (Hfixed Ru32 4); [reflexivity | reflexivity | vm_compute; reflexivity].
  - destruct (read_past_end (reader_over [0x85; 0x81])) as (_ & Hvarint & _).
    apply Hvarint. rewrite ahead_decoding.
    repeat constructor; intros Hbit; vm_compute in Hbit; discriminate.
  - destruct (read_past_end (reader_over [5; 1; 2])) as (_ & _ & Hrun).
    destruct (Hrun 5 (moved 1 (reader_over [5; 1; 2]))) as (b & Hrbytes & _);
      [vm_compute; reflexivity | lia | vm_compute; reflexivity |].
    exists b. rewrite Hrbytes. split; [reflexivity |].
    cbn [fst snd]. by rewrite bytes_of_insert_eq.
Defined.

(** ** The cursor *)




(** ** The varint where it works *)

Lemma ToInt32_small (x : Z) : 0 <= x < 2 ^ 31 -> JS.ToInt32 x = x.
Proof. intros Hx. unfold JS.ToInt32. rewrite Z.mod_small; lia. Qed.

Lemma ToUint32_small (x : Z) : 0 <= x < 2 ^ 32 -> JS.ToUint32 x = x.
Proof. intros Hx. unfold JS.ToUint32. rewrite Z.mod_small; lia. Qed.

Lemma digit_facts (c : Z) : 0 <= c < 128 -> digit_ok c = true.
Proof.
  intros Hc.
  assert (Hall : forallb digit_ok (seqZ 0 128) = true) by (vm_compute; reflexivity).
  rewrite forallb_forall in Hall. apply Hall.
  apply list_elem_of_In, elem_of_seqZ. lia.
Qed.

Lemma digit_props (c : Z) :
  0 <= c < 128 ->
  JS.bor c 0x80 = c + 128
  /\ JS.band (c + 128) 0x7F = c
  /\ JS.band c 0x7F = c
  /\ (JS.band (c + 128) 0x80 =? 0) = false
  /\ (JS.band c 0x80 =? 0) = true
  /\ JS.ToUint8 c = c
  /\ JS.ToUint8 (c + 128) = c + 128.
Proof.
  intros Hc. pose proof (digit_facts c Hc) as Hok. unfold digit_ok in Hok.
  apply andb_prop in Hok as [Hok H7]. apply andb_prop in Hok as [Hok H6].
  apply andb_prop in Hok as [Hok H5]. apply andb_prop in Hok as [Hok H4].
  apply andb_prop in Hok as [Hok H3]. apply andb_prop in Hok as [H1 H2].
  apply negb_true_iff in H4.
  repeat split; try assumption; by apply Z.eqb_eq.
Qed.

Lemma land_shiftl_low (a c s : Z) :
  0 <= s -> 0 <= c < 2 ^ s -> Z.land (Z.shiftl a s) c = 0.
Proof.
  intros Hs Hc. apply Z.bits_inj'. intros i Hi.
  rewrite Z.land_spec, Z.bits_0.
  destruct (Z.lt_ge_cases i s) as [Hlow | Hhigh].
  - by rewrite Z.shiftl_spec_low.
  - assert (Hbit : Z.testbit c i = false).
    { destruct (Z.eq_dec c 0) as [-> | Hne]; [apply Z.bits_0 |].
      apply Z.bits_above_log2; [lia |].
      apply Z.lt_le_trans with s; [| assumption].
      apply Z.log2_lt_pow2; lia. }
    by rewrite Hbit, andb_false_r.
Qed.

Lemma bor_shl_digit (a c : Z) :
  0 <= a -> a * 128 + c < 2 ^ 31 -> 0 <= c < 128 ->
  JS.bor (JS.shl a 7) c = a * 128 + c.
Proof.
  intros Ha Hbound Hc. unfold JS.bor, JS.shl.
  change (JS.ToUint32 7 mod 32) with 7.
  rewrite (ToInt32_small a) by lia.
  rewrite Z.shiftl_mul_pow2 by lia. change (2 ^ 7) with 128.
  rewrite (ToInt32_small c), !(ToInt32_small (a * 128)) by lia.
  assert (Hland : Z.land (a * 128) c = 0).
  { change 128 with (2 ^ 7) at 1. rewrite <- Z.shiftl_mul_pow2 by lia.
    apply land_shiftl_low; lia. }
  rewrite <- Z.lxor_lor by exact Hland. symmetry.
  by apply Z.add_nocarry_lxor.
Qed.

Lemma digit_of (n : Z) (i : nat) :
  0 <= n < 2 ^ 31 -> (i <= 4)%nat ->
  JS.band (JS.ushr n (Z.of_nat i * 7)) 0x7F = (n / 128 ^ Z.of_nat i) mod 128.
Proof.
  intros Hn Hi. unfold JS.band, JS.ushr.
  rewrite (ToUint32_small n) by lia.
  rewrite (ToUint32_small (Z.of_nat i * 7)) by lia.
  rewrite (Z.mod_small (Z.of_nat i * 7)) by lia.
  rewrite Z.shiftr_div_pow2 by lia.
  replace (2 ^ (Z.of_nat i * 7)) with (128 ^ Z.of_nat i)
    by (rewrite Z.mul_comm, Z.pow_mul_r by lia; reflexivity).
  assert (Hq : 0 <= n / 128 ^ Z.of_nat i < 2 ^ 31).
  { split; [apply Z.div_pos; lia |].
    apply Z.le_lt_trans with n; [| lia].
    apply Z.div_le_upper_bound; [lia |]. 
    assert (1 <= 128 ^ Z.of_nat i) by lia. nia. }
  rewrite ToInt32_small by assumption.
  change (JS.ToInt32 127) with (Z.ones 7).
  rewrite Z.land_ones by lia. reflexivity.
Qed.

Lemma digit_range (n : Z) (i : nat) : 0 <= (n / 128 ^ Z.of_nat i) mod 128 < 128.
Proof. apply Z.mod_pos_bound. lia. Qed.

(** The bytes of [wuv] fit in a byte. *)
Lemma varint_bytes_ToUint8 (n : Z) (passes : nat) :
  0 <= n < 2 ^ 31 -> (passes <= 5)%nat ->
  JS.ToUint8 <$> varint_bytes passes n = varint_bytes passes n.
Proof.
  intros Hn. induction passes as [| i IH]; intros Hi; [reflexivity |].
  cbn [varint_bytes fmap list_fmap]. rewrite digit_of by lia.
  destruct (digit_props _ (digit_range n i)) as (Hbor & _ & _ & _ & _ & H8 & H8').
  f_equal; [| apply IH; lia].
  destruct (Z.of_nat i =? 0); [exact H8 | by rewrite Hbor].
Qed.

(** Read back by the loop of [ruv], the bytes of [wuv] give the low
    [7 * passes] bits of [n] under whatever was accumulated, as long as
    that stays below [2^31]. *)
Lemma varint_scan_bytes (n : Z) :
  0 <= n < 2 ^ 31 ->
  forall (passes : nat) (acc : Z),
    (1 <= passes <= 5)%nat -> 0 <= acc ->
    acc * 128 ^ Z.of_nat passes + n mod 128 ^ Z.of_nat passes < 2 ^ 31 ->
    varint_scan (varint_bytes passes n) acc
    = (Normal (acc * 128 ^ Z.of_nat passes + n mod 128 ^ Z.of_nat passes), passes).
Proof.
  intros Hn. induction passes as [| i IH]; intros acc Hi Hacc Hbound; [lia |].
  cbn [varint_bytes varint_scan]. rewrite digit_of by lia.
  set (c := (n / 128 ^ Z.of_nat i) mod 128) in *.
  assert (Hc : 0 <= c < 128) by apply digit_range.
  destruct (digit_props c Hc) as (Hbor & Hlow7' & Hlow7 & Hcont & Hlast & _).
  assert (Hsplit : n mod 128 ^ Z.of_nat (S i)
                   = n mod 128 ^ Z.of_nat i + 128 ^ Z.of_nat i * c).
  { rewrite Nat2Z.inj_succ, Z.pow_succ_r by lia.
    rewrite (Z.mul_comm 128), Z.rem_mul_r by lia. reflexivity. }
  assert (Hpow : 128 ^ Z.of_nat (S i) = 128 * 128 ^ Z.of_nat i)
    by (rewrite Nat2Z.inj_succ, Z.pow_succ_r by lia; reflexivity).
  assert (Hpos : 0 < 128 ^ Z.of_nat i) by lia.
  assert (Hlow : 0 <= n mod 128 ^ Z.of_nat i) by (apply Z.mod_pos_bound; lia).
  rewrite Hsplit, Hpow in *.
  destruct i as [| j].
  - change (Z.of_nat 0 =? 0) with true. cbn iota.
    rewrite Hlow7, Hlast.
    rewrite bor_shl_digit by (try assumption; nia).
    f_equal. f_equal. change (128 ^ Z.of_nat 0) with 1 in *.
    rewrite Z.mod_1_r. lia.
  - replace (Z.of_nat (S j) =? 0) with false by (symmetry; apply Z.eqb_neq; lia).
    cbn iota. rewrite Hbor, Hlow7', Hcont.
    rewrite bor_shl_digit by (try assumption; nia).
    rewrite IH by (try lia; nia).
    f_equal. f_equal. lia.
Qed.

(** The trip count of [wuv] on [n >= 2]: [128^(k-1) < n <= 128^k]. It
    is the size of the varint unless [n] is the power of 128 itself. *)
Lemma countdown_bounds (n : Z) :
  2 <= n ->
  let k := Z.of_nat (JS.countdown (JS.ceil_log2_div7 n)) in
  1 <= k /\ 128 ^ (k - 1) < n <= 128 ^ k /\ k = (Z.log2_up n + 6) / 7.
Proof.
  intros Hn. unfold JS.ceil_log2_div7.
  rewrite (proj2 (Z.ltb_ge n 0)), (proj2 (Z.eqb_neq n 0)) by lia.
  cbn [JS.countdown].
  pose proof (Z.log2_up_spec n ltac:(lia)) as [Hlo Hhi].
  assert (Hm : 1 <= Z.log2_up n).
  { destruct (Z.le_gt_cases 1 (Z.log2_up n)); [assumption |].
    assert (Z.log2_up n <= 0) by lia.
    pose proof (Z.pow_le_mono_r 2 (Z.log2_up n) 0 ltac:(lia) ltac:(lia)).
    pose proof (Z.log2_up_nonneg n). replace (Z.log2_up n) with 0 in * by lia.
    simpl in *. lia. }
  set (m := Z.log2_up n) in *. set (k := (m + 6) / 7).
  assert (Hk : 7 * k <= m + 6 < 7 * k + 7).
  { unfold k. pose proof (Z.div_mod (m + 6) 7 ltac:(lia)).
    pose proof (Z.mod_pos_bound (m + 6) 7 ltac:(lia)). lia. }
  rewrite Z2Nat.id by lia. cbn zeta.
  replace (128 ^ (k - 1)) with (2 ^ (7 * (k - 1)))
    by (rewrite Z.pow_mul_r by lia; reflexivity).
  replace (128 ^ k) with (2 ^ (7 * k))
    by (rewrite Z.pow_mul_r by lia; reflexivity).
  repeat split; try lia.
  - apply Z.le_lt_trans with (2 ^ Z.pred m); [| assumption].
    apply Z.pow_le_mono_r; lia.
  - apply Z.le_trans with (2 ^ m); [assumption |].
    apply Z.pow_le_mono_r; lia.
Qed.

Lemma varint_size_countdown (n : Z) :
  2 <= n ->
  let k := Z.of_nat (JS.countdown (JS.ceil_log2_div7 n)) in
  n ≠ 128 ^ k -> varint_size n = k.
Proof.
  intros Hn k Hne. destruct (countdown_bounds n Hn) as (Hk & [Hlo Hhi] & _).
  fold k in Hk, Hlo, Hhi.
  unfold varint_size, bitlength. rewrite (proj2 (Z.eqb_neq n 0)) by lia.
  assert (Hlog : 7 * (k - 1) <= Z.log2 n < 7 * k).
  { split.
    - apply Z.log2_le_pow2; [lia |].
      rewrite Z.pow_mul_r by lia. change (2 ^ 7) with 128. lia.
    - apply Z.log2_lt_pow2; [lia |].
      rewrite Z.pow_mul_r by lia. change (2 ^ 7) with 128. lia. }
  assert (Hdiv : (Z.log2 n + 1 + 6) / 7 = k).
  { symmetry. apply Z.div_unique with (Z.log2 n + 7 - 7 * k); lia. }
  rewrite Hdiv. lia.
Qed.

(** ** Writes below capacity *)

(** One byte written with room to spare lands in the store at the cursor. *)
Lemma wu8_inplace (b : Z) (h : heap) (w : SerialWriter.t) :
  is_Some (h !! SerialWriter.dv w) ->
  0 <= SerialWriter.pos w ->
  SerialWriter.pos w + 1 < byteLength h (SerialWriter.dv w) ->
  SerialWriter.wu8 b (h, w) =
    (Normal tt,
     (<[SerialWriter.dv w :=
          <[Z.to_nat (SerialWriter.pos w) := JS.ToUint8 b]>
            (bytes_of h (SerialWriter.dv w))]> h,
      {| SerialWriter.dv := SerialWriter.dv w;
         SerialWriter.pos := SerialWriter.pos w + 1 |})).
Proof.
  intros Hdv Hpos Hroom.
  unfold SerialWriter.wu8, SerialWriter.write, bind, gets. cbn [fst snd].
  rewrite delayedMove_spec by assumption. cbn zeta.
  rewrite (proj2 (Z.leb_gt _ _)) by lia.
  unfold onHeap, DataView.setUint8, DataView.setUint, DataView.SetViewValue.
  cbn [fst snd DataView.be_bytes length].
  rewrite (proj2 (Z.ltb_ge (SerialWriter.pos w) 0)) by lia.
  rewrite (proj2 (Z.ltb_ge _ _)) by (cbv [Z.of_nat Pos.of_succ_nat]; lia).
  cbn [orb]. do 3 f_equal.
  rewrite insert_take_drop by (unfold byteLength in Hroom; lia).
  change (256 ^ Z.of_nat 0) with 1. rewrite Z.div_1_r.
  cbn [app]. do 3 f_equal. lia.
Qed.

(** The loop of [wuv] with room to spare: its bytes land in the store
    from the cursor on, and nothing else changes. *)
Lemma wuv_loop_inplace (n : Z) (passes : nat) :
  forall (h : heap) (w : SerialWriter.t),
    is_Some (h !! SerialWriter.dv w) ->
    0 <= SerialWriter.pos w ->
    SerialWriter.pos w + Z.of_nat passes < byteLength h (SerialWriter.dv w) ->
    SerialWriter.wuv_loop passes n (h, w) =
      (Normal tt,
       (<[SerialWriter.dv w :=
            take (Z.to_nat (SerialWriter.pos w)) (bytes_of h (SerialWriter.dv w))
            ++ (JS.ToUint8 <$> varint_bytes passes n)
            ++ drop (Z.to_nat (SerialWriter.pos w) + passes)
                 (bytes_of h (SerialWriter.dv w))]> h,
        {| SerialWriter.dv := SerialWriter.dv w;
           SerialWriter.pos := SerialWriter.pos w + Z.of_nat passes |})).
Proof.
  induction passes as [| i IH]; intros h w Hdv Hpos Hroom.
  - cbn [SerialWriter.wuv_loop varint_bytes fmap list_fmap app]. unfold ret.
    rewrite Nat.add_0_r, take_drop.
    destruct Hdv as [old Hold]. rewrite insert_id
      by (unfold bytes_of; by rewrite Hold).
    destruct w as [dv pos]; cbn. by rewrite Z.add_0_r.
  - cbn [SerialWriter.wuv_loop varint_bytes fmap list_fmap]. unfold bind.
    rewrite wu8_inplace by (try assumption; lia).
    assert (Hp : (Z.to_nat (SerialWriter.pos w)
                  < length (bytes_of h (SerialWriter.dv w)))%nat)
      by (unfold byteLength in Hroom; lia).
    assert (Hnext : Z.to_nat (SerialWriter.pos w + 1)
                    = S (Z.to_nat (SerialWriter.pos w))) by lia.
    set (old := bytes_of h (SerialWriter.dv w)) in *.
    set (p := Z.to_nat (SerialWriter.pos w)) in *.
    rewrite IH; cbn [SerialWriter.dv SerialWriter.pos].
    + rewrite bytes_of_insert_eq, insert_insert_eq, Hnext.
      rewrite (take_S_r _ _ (JS.ToUint8
                 (if Z.of_nat i =? 0
                  then JS.band (JS.ushr n (Z.of_nat i * 7)) 127
                  else JS.bor (JS.band (JS.ushr n (Z.of_nat i * 7)) 127) 128)))
        by (by apply list_lookup_insert_eq).
      rewrite take_insert_ge by lia.
      rewrite drop_insert_lt by lia.
      rewrite <- !app_assoc. cbn [app].
      replace (S p + i)%nat with (p + S i)%nat by lia.
      replace (SerialWriter.pos w + 1 + Z.of_nat i)
        with (SerialWriter.pos w + Z.of_nat (S i)) by lia.
      reflexivity.
    + rewrite lookup_insert_eq. eauto.
    + lia.
    + subst old p. unfold byteLength in *.
      rewrite bytes_of_insert_eq, length_insert. lia.
Qed.

(** [new SerialWriter()]: two new buffers of eight zero bytes, the second
    of them the store. *)
Lemma constructor_None (h : heap) :
  let b0 := fresh (dom h) in
  let h0 := <[b0 := replicate 8 0]> h in
  let b1 := fresh (dom h0) in
  SerialWriter.constructor None h =
    (Normal {| SerialWriter.dv := b1; SerialWriter.pos := 0 |},
     <[b1 := replicate 8 0]> h0).
Proof.
  cbn zeta. unfold SerialWriter.constructor, bind, ArrayBuffer.new,
    ArrayBuffer.slice_from, alloc, ret. cbn [Z.ltb Z.compare].
  unfold byteLength. rewrite bytes_of_insert_eq, slice_bytes_whole.
  reflexivity.
Qed.

(** [written] from any heap, when the body returns. *)
Lemma written_from (body : M SerialWriter.state unit)
    (h h0 h1 : heap) (w0 w1 : SerialWriter.t) :
  SerialWriter.constructor None h = (Normal w0, h0) ->
  body (h0, w0) = (Normal tt, (h1, w1)) ->
  0 <= SerialWriter.pos w1 ->
  written body h
  = (Normal (fresh (dom h1)),
     <[fresh (dom h1) :=
         take (Z.to_nat (SerialWriter.pos w1)) (bytes_of h1 (SerialWriter.dv w1))]> h1).
Proof.
  intros Hnew Hbody Hpos.
  unfold written, lift_new. rewrite Hnew. unfold bind. rewrite Hbody.
  unfold SerialWriter.getBuffer, bind, gets, onHeap, ArrayBuffer.slice, alloc.
  cbn [fst snd]. rewrite slice_bytes_nonneg by lia.
  by rewrite Z.sub_0_r, drop_0.
Qed.

(** What [written] returns when the body returns: a new buffer with the
    bytes of the store below the cursor. *)
Lemma written_spec (body : M SerialWriter.state unit)
    (h0 h1 : heap) (w0 w1 : SerialWriter.t) :
  SerialWriter.constructor None ∅ = (Normal w0, h0) ->
  body (h0, w0) = (Normal tt, (h1, w1)) ->
  0 <= SerialWriter.pos w1 ->
  let bs := take (Z.to_nat (SerialWriter.pos w1)) (bytes_of h1 (SerialWriter.dv w1)) in
  written body ∅ = (Normal (fresh (dom h1)), <[fresh (dom h1) := bs]> h1)
  /\ encoding body = Normal bs
  /\ (forall A (op : M SerialReader.state A),
        roundtrip body op
        = fst (op (<[fresh (dom h1) := bs]> h1,
                   SerialReader.constructor (fresh (dom h1)) None))).
Proof.
  intros Hnew Hbody Hpos bs.
  pose proof (written_from body ∅ h0 h1 w0 w1 Hnew Hbody Hpos) as Hwritten.
  fold bs in Hwritten.
  split; [exact Hwritten | split].
  - unfold encoding. rewrite Hwritten. by rewrite bytes_of_insert_eq.
  - intros A op. unfold roundtrip, bind. rewrite Hwritten.
    unfold reading, lift_new, ret. by destruct (op _).
Qed.

(** The extracted bytes of [wuv] alone, for fewer than eight of them. *)
Lemma wuv_alone (n : Z) :
  let passes := JS.countdown (JS.ceil_log2_div7 n) in
  let bs := JS.ToUint8 <$> varint_bytes passes n in
  (passes < 8)%nat ->
  encoding (SerialWriter.wuv n) = Normal bs
  /\ roundtrip (SerialWriter.wuv n) SerialReader.ruv = fst (varint_scan bs 0).
Proof.
  intros passes bs Hpasses.
  pose proof (constructor_None ∅) as Hnew. cbn zeta in Hnew.
  set (h0 := <[fresh (dom (<[fresh (dom (∅ : heap)) := replicate 8 0]> (∅ : heap)))
               := replicate 8 0]> (<[fresh (dom (∅ : heap)) := replicate 8 0]> ∅)) in *.
  set (b1 := fresh (dom (<[fresh (dom (∅ : heap)) := replicate 8 0]> (∅ : heap)))) in *.
  assert (Hold : bytes_of h0 b1 = replicate 8 0) by apply bytes_of_insert_eq.
  assert (Hbody : SerialWriter.wuv n (h0, {| SerialWriter.dv := b1; SerialWriter.pos := 0 |})
                  = (Normal tt,
                     (<[b1 := bs ++ drop passes (replicate 8 0)]> h0,
                      {| SerialWriter.dv := b1; SerialWriter.pos := Z.of_nat passes |}))).
  { unfold SerialWriter.wuv. fold passes.
    rewrite wuv_loop_inplace; cbn [SerialWriter.dv SerialWriter.pos].
    - by rewrite Hold.
    - unfold h0. rewrite lookup_insert_eq. eauto.
    - lia.
    - unfold byteLength. rewrite Hold, length_replicate. lia. }
  destruct (written_spec _ _ _ _ _ Hnew Hbody ltac:(cbn; lia)) as (_ & Henc & Hround).
  cbn [SerialWriter.dv SerialWriter.pos] in Henc, Hround.
  rewrite bytes_of_insert_eq, Nat2Z.id in Henc, Hround.
  assert (Htake : take passes (bs ++ drop passes (replicate 8 0)) = bs).
  { apply take_app_length'. unfold bs. rewrite length_fmap.
    clear. induction passes; simpl; congruence. }
  rewrite Htake in Henc, Hround.
  split; [exact Henc |].
  rewrite Hround, ruv_spec by (cbn; lia).
  cbn [fst]. unfold ahead. cbn [fst snd SerialReader.constructor
    SerialReader.dv SerialReader.pos default].
  by rewrite bytes_of_insert_eq.
Qed.

(** The prefix of a length from 2 up to [2^31 - 1] that is not a power of
    128: at most five bytes, which [ruv] reads back as the length. *)
Lemma varint_prefix (n : Z) :
  2 <= n < 2 ^ 31 ->
  (forall k : nat, n ≠ 128 ^ Z.of_nat k) ->
  let passes := JS.countdown (JS.ceil_log2_div7 n) in
  (1 <= passes <= 5)%nat
  /\ varint_scan (JS.ToUint8 <$> varint_bytes passes n) 0 = (Normal n, passes).
Proof.
  intros Hn Hpower passes.
  destruct (countdown_bounds n ltac:(lia)) as (Hk & [Hlo Hhi] & _).
  fold passes in Hk, Hlo, Hhi. specialize (Hpower passes).
  assert (Hfive : (passes <= 5)%nat).
  { destruct (le_lt_dec passes 5) as [| Hsix]; [assumption | exfalso].
    assert (128 ^ 5 <= 128 ^ (Z.of_nat passes - 1))
      by (apply Z.pow_le_mono_r; lia).
    change (128 ^ 5) with 34359738368 in *. lia. }
  split; [lia |].
  assert (Hmod : n mod 128 ^ Z.of_nat passes = n) by (apply Z.mod_small; lia).
  rewrite varint_bytes_ToUint8, varint_scan_bytes by (rewrite ?Hmod; lia).
  do 2 f_equal. lia.
Qed.

(** A number strictly between two consecutive powers of 128 is not one. *)
Lemma between_powers (n : Z) (lo : nat) :
  128 ^ Z.of_nat lo < n < 128 ^ Z.of_nat (S lo) ->
  forall k : nat, n ≠ 128 ^ Z.of_nat k.
Proof.
  intros [Hlo Hhi] k ->.
  destruct (le_lt_dec k lo) as [Hle | Hgt].
  - assert (128 ^ Z.of_nat k <= 128 ^ Z.of_nat lo) by (apply Z.pow_le_mono_r; lia).
    lia.
  - assert (128 ^ Z.of_nat (S lo) <= 128 ^ Z.of_nat k) by (apply Z.pow_le_mono_r; lia).
    lia.
Qed.

(** What [ruv] reads back from what [wuv] wrote, in that range. *)
Lemma wuv_reads_back (n : Z) :
  2 <= n < 2 ^ 31 ->
  (forall k : nat, n ≠ 128 ^ Z.of_nat k) ->
  roundtrip (SerialWriter.wuv n) SerialReader.ruv = Normal n.
Proof.
  intros Hn Hpower.
  destruct (varint_prefix n Hn Hpower) as [Hpasses Hscan].
  destruct (wuv_alone n ltac:(lia)) as [_ Hround].
  by rewrite Hround, Hscan.
Qed.

(** X20. Where the unsigned varint does come back: for every [n] from
    2 up to [2^31 - 1] that is not a power of 128, [wuv] emits
    [varint_size n] bytes and [ruv] reads [n] back from them. *)
Theorem wuv_ruv_roundtrip (n : Z) :
  2 <= n < 2 ^ 31 ->
  (forall k : nat, n ≠ 128 ^ Z.of_nat k) ->
  roundtrip (SerialWriter.wuv n) SerialReader.ruv = Normal n
  /\ exists bs, encoding (SerialWriter.wuv n) = Normal bs
                /\ Z.of_nat (length bs) = varint_size n.
Proof.
  intros Hn Hpower.
  destruct (countdown_bounds n ltac:(lia)) as (Hk & [Hlo Hhi] & Hdef).
  set (passes := JS.countdown (JS.ceil_log2_div7 n)) in *.
  specialize (Hpower passes).
  assert (Hfive : (passes <= 5)%nat).
  { destruct (le_lt_dec passes 5) as [| Hsix]; [assumption | exfalso].
    assert (128 ^ 5 <= 128 ^ (Z.of_nat passes - 1))
      by (apply Z.pow_le_mono_r; lia).
    change (128 ^ 5) with 34359738368 in *. lia. }
  destruct (wuv_alone n ltac:(fold passes; lia)) as [Henc Hround].
  fold passes in Henc, Hround.
  rewrite varint_bytes_ToUint8 in Henc, Hround by lia.
  assert (Hmod : n mod 128 ^ Z.of_nat passes = n) by (apply Z.mod_small; lia).
  split.
  - rewrite Hround, varint_scan_bytes by (rewrite ?Hmod; lia).
    cbn [fst]. f_equal. lia.
  - exists (varint_bytes passes n). split; [exact Henc |].
    rewrite (varint_size_countdown n ltac:(lia) Hpower).
    fold passes. f_equal. clear. induction passes; simpl; congruence.
Qed.

Lemma wuv_ruv_roundtrip_witness :
  roundtrip (SerialWriter.wuv 300) SerialReader.ruv = Normal 300.
Proof.
  destruct (wuv_ruv_roundtrip 300) as [Hround _].
  - split; [lia | reflexivity].
  - apply (between_powers 300 1). split; reflexivity.
  - exact Hround.
Defined.

(** ** The signed varint where it works *)

Lemma bor_shl_sign (a c : Z) :
  0 <= a < 2 ^ 30 -> 0 <= c < 2 ->
  JS.bor (JS.shl a 1) c = a * 2 + c.
Proof.
  intros Ha Hc. unfold JS.bor, JS.shl.
  change (JS.ToUint32 1 mod 32) with 1.
  rewrite (ToInt32_small a) by lia.
  rewrite Z.shiftl_mul_pow2 by lia. change (2 ^ 1) with 2.
  rewrite (ToInt32_small c), !(ToInt32_small (a * 2)) by lia.
  assert (Hland : Z.land (a * 2) c = 0).
  { change 2 with (2 ^ 1) at 1. rewrite <- Z.shiftl_mul_pow2 by lia.
    apply land_shiftl_low; lia. }
  rewrite <- Z.lxor_lor by exact Hland. symmetry.
  by apply Z.add_nocarry_lxor.
Qed.

(** Unpacking the sign bit and the magnitude, as [riv] does. *)
Lemma unpack_sign (a c : Z) :
  0 <= a < 2 ^ 30 -> 0 <= c < 2 ->
  let e := a * 2 + c in
  JS.ushr (JS.band e (JS.bnot 0x1)) 1 * (if JS.band e 0x1 =? 0 then 1 else -1)
  = a * (if c =? 0 then 1 else -1).
Proof.
  intros Ha Hc e.
  assert (He : 0 <= e < 2 ^ 31) by (unfold e; lia).
  assert (Hlow : JS.band e 1 = c).
  { unfold JS.band. rewrite ToInt32_small by assumption.
    change (JS.ToInt32 1) with (Z.ones 1). rewrite Z.land_ones by lia.
    unfold e. change (2 ^ 1) with 2.
    rewrite Z.add_comm, Z.mod_add by lia. apply Z.mod_small. lia. }
  assert (Hhigh : JS.band e (JS.bnot 1) = a * 2).
  { unfold JS.band, JS.bnot. rewrite ToInt32_small by assumption.
    change (JS.ToInt32 (Z.lnot (JS.ToInt32 1))) with (Z.lnot (Z.ones 1)).
    rewrite <- Z.ldiff_land, Z.ldiff_ones_r by lia.
    rewrite Z.shiftr_div_pow2, Z.shiftl_mul_pow2 by lia. change (2 ^ 1) with 2.
    unfold e. f_equal. rewrite Z.add_comm, Z.div_add by lia.
    rewrite (Z.div_small c) by lia. lia. }
  rewrite Hlow, Hhigh. f_equal.
  unfold JS.ushr. change (JS.ToUint32 1 mod 32) with 1.
  rewrite ToUint32_small by lia.
  rewrite Z.shiftr_div_pow2 by lia. change (2 ^ 1) with 2.
  apply Z.div_mul. lia.
Qed.

Lemma roundtrip_riv (body : M SerialWriter.state unit) :
  roundtrip body SerialReader.riv
  = cmap (fun n =>
            let sign := if JS.band n 0x1 =? 0 then 1 else -1 in
            JS.ushr (JS.band n (JS.bnot 0x1)) 1 * sign)
         (roundtrip body SerialReader.ruv).
Proof.
  unfold roundtrip, bind.
  destruct (written body ∅) as [[b | e |] h]; try reflexivity.
  unfold reading, lift_new, ret. rewrite riv_spec.
  by destruct (SerialReader.ruv _) as [c s].
Qed.

(** X21. Where the signed varint does come back: for every [n] with
    [|n| < 2^30] whose packed form [2 * |n| + sign] is at least 2 and not
    a power of 128, [riv] reads [n] back from what [wiv] wrote. *)
Theorem wiv_riv_roundtrip (n : Z) :
  - 2 ^ 30 < n < 2 ^ 30 ->
  let packed := Z.abs n * 2 + (if n <? 0 then 1 else 0) in
  2 <= packed ->
  (forall k : nat, packed ≠ 128 ^ Z.of_nat k) ->
  roundtrip (SerialWriter.wiv n) SerialReader.riv = Normal n.
Proof.
  intros Hn packed Htwo Hpower.
  assert (Hsign : 0 <= (if n <? 0 then 1 else 0) < 2) by (destruct (n <? 0); lia).
  assert (Habs : 0 <= Z.abs n < 2 ^ 30) by lia.
  rewrite roundtrip_riv. unfold SerialWriter.wiv.
  rewrite (bor_shl_sign (Z.abs n) (if n <? 0 then 1 else 0)) by assumption.
  fold packed.
  rewrite (wuv_reads_back packed) by (assumption || (unfold packed; lia)).
  cbn [cmap]. f_equal.
  unfold packed. rewrite unpack_sign by assumption.
  destruct (Z.ltb_spec n 0); simpl; lia.
Qed.

Lemma wiv_riv_roundtrip_witness :
  roundtrip (SerialWriter.wiv (-5)) SerialReader.riv = Normal (-5).
Proof.
  apply (wiv_riv_roundtrip (-5)).
  - split; reflexivity.
  - cbn. lia.
  - apply (between_powers 11 0). split; reflexivity.
Defined.

(** ** Growth, byte by byte *)

Lemma is_capacity_double (c : Z) : is_capacity c = true -> is_capacity (2 * c) = true.
Proof.
  unfold is_capacity. intros Hc. apply andb_prop in Hc as [Hmin Hpow].
  apply Z.leb_le in Hmin. apply Z.eqb_eq in Hpow.
  apply andb_true_intro. split; [apply Z.leb_le; lia |].
  apply Z.eqb_eq. rewrite Z.log2_double by lia.
  rewrite Z.pow_succ_r by apply Z.log2_nonneg. lia.
Qed.

Lemma is_capacity_gap (c x : Z) :
  is_capacity c = true -> c < x < 2 * c -> is_capacity x = false.
Proof.
  unfold is_capacity. intros Hc Hx. apply andb_prop in Hc as [Hmin Hpow].
  apply Z.leb_le in Hmin. apply Z.eqb_eq in Hpow.
  apply andb_false_intro2. apply Z.eqb_neq. intros Hxpow.
  assert (Hlt : Z.log2 c < Z.log2 x).
  { apply (Z.pow_lt_mono_r_iff 2); [lia | apply Z.log2_nonneg | lia]. }
  assert (Hlt' : Z.log2 x < Z.succ (Z.log2 c)).
  { apply (Z.pow_lt_mono_r_iff 2); [lia | pose proof (Z.log2_nonneg c); lia |].
    rewrite Z.pow_succ_r by apply Z.log2_nonneg. lia. }
  lia.
Qed.

(** One [wu8] between two growths, or into the next. *)
Lemma wu8_growing (b : Z) (s : SerialWriter.state) :
  growing s ->
  exists s',
    SerialWriter.wu8 b s = (Normal tt, s')
    /\ growing s'
    /\ SerialWriter.pos (snd s') = SerialWriter.pos (snd s) + 1
    /\ take (Z.to_nat (SerialWriter.pos (snd s')))
         (bytes_of (fst s') (SerialWriter.dv (snd s')))
       = take (Z.to_nat (SerialWriter.pos (snd s)))
           (bytes_of (fst s) (SerialWriter.dv (snd s)))
         ++ [if is_capacity (SerialWriter.pos (snd s) + 1) then 0 else JS.ToUint8 b].
Proof.
  destruct s as [h [dv pos]]. unfold growing. cbn [fst snd SerialWriter.dv SerialWriter.pos].
  intros (Hdv & Hpos & Hcap & Hgap & Hzero).
  set (old := bytes_of h dv) in *.
  assert (Hlen : byteLength h dv = Z.of_nat (length old)) by reflexivity.
  rewrite Hlen in *.
  destruct (Z.lt_ge_cases (pos + 1) (Z.of_nat (length old))) as [Hroom | Hfull].
  - (* below capacity: the byte lands *)
    eexists. split; [apply wu8_inplace; cbn; try assumption; lia |].
    cbn [fst snd SerialWriter.dv SerialWriter.pos]. unfold byteLength.
    rewrite bytes_of_insert_eq, length_insert, lookup_insert_eq. fold old.
    rewrite (Hgap (pos + 1)) by lia.
    split; [| split; [reflexivity |]].
    + split; [eauto |]. split; [lia |]. split; [assumption |].
      split; [intros x Hx; apply Hgap; lia |].
      rewrite drop_insert_lt by lia.
      replace (Z.to_nat (pos + 1)) with (Z.to_nat pos + 1)%nat by lia.
      rewrite <- drop_drop, Hzero, drop_replicate. f_equal. lia.
    + replace (Z.to_nat (pos + 1)) with (S (Z.to_nat pos)) by lia.
      rewrite (take_S_r _ _ (JS.ToUint8 b)) by (apply list_lookup_insert_eq; lia).
      by rewrite take_insert_ge by lia.
  - (* at capacity: the store is replaced first, the byte is lost *)
    assert (Hpos1 : pos + 1 = Z.of_nat (length old)) by lia.
    assert (Hlast : old !! Z.to_nat pos = Some 0).
    { rewrite <- (Nat.add_0_r (Z.to_nat pos)), <- lookup_drop, Hzero.
      apply lookup_replicate. split; [reflexivity | lia]. }
    unfold SerialWriter.wu8, SerialWriter.write, bind, gets.
    cbn [fst snd SerialWriter.dv SerialWriter.pos].
    rewrite delayedMove_spec by assumption. cbn zeta.
    cbn [SerialWriter.dv SerialWriter.pos]. rewrite Hlen. fold old.
    rewrite (proj2 (Z.leb_le _ _)) by lia.
    set (nb := fresh (dom h)).
    assert (Hnb : dv ≠ nb) by (by apply fresh_ne).
    unfold onHeap, DataView.setUint8, DataView.setUint, DataView.SetViewValue.
    cbn [fst snd DataView.be_bytes length]. unfold byteLength.
    rewrite bytes_of_insert_ne by congruence. fold old.
    rewrite (proj2 (Z.ltb_ge pos 0)) by lia.
    change (Z.of_nat 1) with 1.
    rewrite (proj2 (Z.ltb_ge _ _)) by lia.
    cbn [orb]. eexists. split; [reflexivity |].
    cbn [fst snd SerialWriter.dv SerialWriter.pos].
    rewrite lookup_insert_ne, lookup_insert_eq by congruence.
    rewrite bytes_of_insert_ne, bytes_of_insert_eq by congruence.
    rewrite Hpos1, Hcap.
    replace (Z.max (Z.of_nat (length old)) (Z.of_nat (length old) * 2)
             - Z.of_nat (length old)) with (Z.of_nat (length old)) by lia.
    rewrite length_app, length_replicate, !Nat2Z.id.
    split; [| split; [lia |]].
    + split; [eauto |]. split; [lia |].
      replace (Z.of_nat (length old + length old)) with (2 * Z.of_nat (length old)) by lia.
      split; [by apply is_capacity_double |].
      split; [intros x Hx; apply (is_capacity_gap (Z.of_nat (length old))); [assumption | lia] |].
      rewrite drop_app_length. f_equal. lia.
    + rewrite take_app_length.
      replace (length old) with (S (Z.to_nat pos)) at 2 by lia.
      rewrite <- (take_S_r old _ 0 Hlast).
      symmetry. apply take_ge. lia.
Qed.

(** Bytes written one at a time: all of them arrive but those that filled
    the store to its capacity. *)
Lemma wu8_each_growing (bs : list Z) :
  forall s, growing s ->
    exists s',
      wu8_each bs s = (Normal tt, s')
      /\ growing s'
      /\ SerialWriter.pos (snd s') = SerialWriter.pos (snd s) + Z.of_nat (length bs)
      /\ take (Z.to_nat (SerialWriter.pos (snd s')))
           (bytes_of (fst s') (SerialWriter.dv (snd s')))
         = take (Z.to_nat (SerialWriter.pos (snd s)))
             (bytes_of (fst s) (SerialWriter.dv (snd s)))
           ++ landed (SerialWriter.pos (snd s)) bs.
Proof.
  induction bs as [| b bs IH]; intros s Hs.
  - exists s. cbn [wu8_each foldr landed length]. unfold ret.
    rewrite app_nil_r. change (Z.of_nat 0) with 0. rewrite Z.add_0_r.
    split; [reflexivity | split; [assumption | split; reflexivity]].
  - destruct (wu8_growing b s Hs) as (s1 & Hstep & Hs1 & Hpos1 & Hbytes1).
    destruct (IH s1 Hs1) as (s' & Hrest & Hs' & Hpos' & Hbytes').
    exists s'. cbn [wu8_each foldr]. unfold bind. rewrite Hstep.
    split; [exact Hrest | split; [exact Hs' | split]].
    + rewrite Hpos', Hpos1. cbn [length]. lia.
    + rewrite Hbytes', Hbytes1, Hpos1, <- app_assoc. reflexivity.
Qed.

Lemma landed_length (bs : list Z) : forall start, length (landed start bs) = length bs.
Proof. induction bs as [| b bs IH]; intros start; simpl; congruence. Qed.

Lemma growing_new :
  forall w0 h0, SerialWriter.constructor None ∅ = (Normal w0, h0) ->
    growing (h0, w0) /\ SerialWriter.pos w0 = 0.
Proof.
  intros w0 h0. rewrite constructor_None. intros [= <- <-].
  unfold growing, byteLength. cbn [fst snd SerialWriter.dv SerialWriter.pos].
  rewrite lookup_insert_eq, bytes_of_insert_eq.
  change (Z.of_nat (length [0; 0; 0; 0; 0; 0; 0; 0])) with 8.
  split; [| reflexivity].
  split; [eauto |]. split; [lia |]. split; [reflexivity |].
  split; [| reflexivity].
  intros x Hx. unfold is_capacity. rewrite (proj2 (Z.leb_gt 8 x)) by lia. reflexivity.
Qed.

(** What comes out of a new writer after single-byte writes. *)
Lemma wu8_each_landed (bs : list Z) :
  encoding (wu8_each bs) = Normal (landed 0 bs).
Proof.
  destruct (SerialWriter.constructor None ∅) as [c h0] eqn:Hnew.
  pose proof Hnew as Hnew'. rewrite constructor_None in Hnew'.
  injection Hnew' as <- <-.
  destruct (growing_new _ _ Hnew) as [Hgrowing Hpos0].
  destruct (wu8_each_growing bs _ Hgrowing) as ([h1 w1] & Hrun & _ & Hpos & Hbytes).
  cbn [fst snd] in Hpos, Hbytes.
  destruct (written_spec _ _ _ _ _ Hnew Hrun) as (_ & Henc & _);
    [rewrite Hpos; cbn; lia |].
  rewrite Henc, Hbytes. cbn [SerialWriter.pos]. reflexivity.
Qed.

(** C5, at its failing input. Bytes written one at a time into
    [new SerialWriter()] come out as [landed]: as many as were written,
    but with a zero in place of the 8th, the 16th, the 32nd, ... In
    [this.dv.setUint8(this.delayedMove(1), n)] the receiver is read before
    [delayedMove] grows the store and replaces [this.dv], so the byte that
    fills the store to its capacity is stored in the buffer just replaced.
    Eight bytes are enough to lose one; and a wider write that straddles
    the old capacity throws. *)
Theorem growth_loses_byte :
  (forall bs : list Z,
      encoding (wu8_each bs) = Normal (landed 0 bs)
      /\ length (landed 0 bs) = length bs)
  /\ encoding (wu8_each [1; 2; 3; 4; 5; 6; 7]) = Normal [1; 2; 3; 4; 5; 6; 7]
  /\ encoding (wu8_each [1; 2; 3; 4; 5; 6; 7; 8]) = Normal [1; 2; 3; 4; 5; 6; 7; 0]
  /\ encoding (wu8_each [1; 2; 3; 4; 5; 6; 7; 8; 9; 10; 11; 12; 13; 14; 15; 16; 17])
     = Normal [1; 2; 3; 4; 5; 6; 7; 0; 9; 10; 11; 12; 13; 14; 15; 0; 17]
  /\ encoding (SerialWriter.wu8 1 ;;; SerialWriter.wu32 2 ;;; SerialWriter.wu32 3)
     = Throw RangeError.
Proof.
  split; [| split_all; vm_compute; reflexivity].
  intros bs. split; [apply wu8_each_landed | apply landed_length].
Qed.

(** ** Text never reads back *)

Lemma growing_wf (s : SerialWriter.state) : growing s -> wf s.
Proof. intros (Hdv & Hpos & _). split; [assumption | lia]. Qed.

Lemma wuv_loop_growing (n : Z) (passes : nat) :
  forall s, growing s ->
    exists s', SerialWriter.wuv_loop passes n s = (Normal tt, s') /\ growing s'.
Proof.
  induction passes as [| i IH]; intros s Hs; cbn [SerialWriter.wuv_loop].
  - by exists s.
  - unfold bind.
    match goal with
    | |- context [SerialWriter.wu8 ?byte s] =>
        destruct (wu8_growing byte s Hs) as (s1 & Hstep & Hs1 & _)
    end.
    rewrite Hstep. apply IH, Hs1.
Qed.

(** A byte run given as an existing buffer is written without an
    exception, from any store between two growths. *)
Lemma wbytes_returns (x : bytes_arg) (s : SerialWriter.state) :
  growing s -> is_Some (fst s !! arg_buffer x) ->
  fst (SerialWriter.wbytes x s) = Normal tt.
Proof.
  intros Hs Hx. unfold SerialWriter.wbytes.
  assert (Hnew : exists u8 s1,
             onHeap (Uint8Array_new x) s = (Normal u8, s1)
             /\ growing s1 /\ is_Some (fst s1 !! u8)).
  { destruct s as [h w]. destruct x as [b | b]; cbn in Hx |- *.
    - by exists b, (h, w).
    - eexists _, _. split; [reflexivity |].
      destruct Hs as (Hdv & Hrest). cbn [fst snd] in *.
      pose proof (fresh_ne h _ Hdv) as Hne.
      split; [| rewrite lookup_insert_eq; eauto].
      unfold growing, byteLength in *. cbn [fst snd] in *.
      rewrite lookup_insert_ne, bytes_of_insert_ne by congruence.
      by split. }
  destruct Hnew as (u8 & s1 & Hnew & Hs1 & Hu8).
  unfold bind at 1. rewrite Hnew, bind_gets.
  set (len := byteLength (fst s1) u8).
  assert (Hlen : 0 <= len) by (unfold len, byteLength; lia).
  destruct (wuv_loop_growing len (JS.countdown (JS.ceil_log2_div7 len)) s1 Hs1)
    as (s2 & Hwuv & Hs2).
  unfold bind at 1. unfold SerialWriter.wuv. rewrite Hwuv.
  pose proof (extends_wuv len s1) as H12.
  unfold SerialWriter.wuv in H12. rewrite Hwuv in H12. cbn [snd] in H12.
  destruct (H12 (growing_wf _ Hs1)) as (Hwf2 & _ & Hlen12 & _).
  destruct (allocMinExtra_room len s2 Hwf2 Hlen) as (H23 & _ & Hroom).
  assert (Hnormal : fst (SerialWriter.allocMinExtra len s2) = Normal tt).
  { destruct s2 as [h2 w2]. unfold SerialWriter.allocMinExtra, bind, gets.
    cbn [fst snd]. rewrite allocMin_spec by apply Hwf2.
    cbn zeta. by destruct (_ <=? _). }
  unfold bind at 1.
  destruct (SerialWriter.allocMinExtra len s2) as [c3 s3]. cbn [fst snd] in *.
  subst c3. rewrite !bind_gets.
  destruct (H23 Hwf2) as (Hwf3 & _ & Hlen23 & _).
  destruct (Hlen12 u8 Hu8) as [Hu8' Hsame12].
  destruct (Hlen23 u8 Hu8') as [_ Hsame23].
  unfold bind at 1, onHeap, Uint8Array_set.
  destruct Hwf3 as [_ Hpos3].
  assert (Hsource : Z.of_nat (length (bytes_of (fst s3) u8)) = len)
    by (unfold len, byteLength; congruence).
  rewrite Hsource. unfold byteLength in Hroom.
  rewrite (proj2 (Z.ltb_ge _ 0)) by lia.
  rewrite (proj2 (Z.ltb_ge _ _)) by lia.
  reflexivity.
Qed.

Lemma wutf8_returns (str : list Z) (s : SerialWriter.state) :
  growing s -> fst (SerialWriter.wutf8 str s) = Normal tt.
Proof.
  intros Hs. unfold SerialWriter.wutf8, bind, onHeap, alloc.
  destruct s as [h w]. cbn [fst snd].
  apply wbytes_returns.
  - destruct Hs as (Hdv & Hrest). cbn [fst snd] in *.
    pose proof (fresh_ne h _ Hdv) as Hne.
    unfold growing, byteLength in *. cbn [fst snd] in *.
    rewrite lookup_insert_ne, bytes_of_insert_ne by congruence.
    by split.
  - cbn. rewrite lookup_insert_eq. eauto.
Qed.

(** Whatever the string, what [wutf8] wrote makes [rutf8] throw. *)
Lemma wutf8_rutf8 (str : list Z) :
  roundtrip (SerialWriter.wutf8 str) SerialReader.rutf8 = Throw TypeError.
Proof.
  destruct (SerialWriter.constructor None ∅) as [[w0 | e |] h0] eqn:Hnew;
    try (rewrite constructor_None in Hnew; discriminate).
  destruct (growing_new w0 h0 Hnew) as [Hgrowing _].
  pose proof (wutf8_returns str (h0, w0) Hgrowing) as Hreturns.
  pose proof (extends_wutf8 str (h0, w0) (growing_wf _ Hgrowing)) as ([_ Hpos] & _).
  destruct (SerialWriter.wutf8 str (h0, w0)) as [c [h1 w1]] eqn:Hrun.
  cbn [fst snd] in *. subst c.
  destruct (written_spec _ _ _ _ _ Hnew Hrun ltac:(lia)) as (_ & _ & Hround).
  by rewrite Hround.
Qed.

(** C6, at its failing inputs: every string. [rutf8] calls [this.rarr],
    which does not exist: whatever the buffer and the cursor, it throws a
    TypeError and reads nothing. [wutf8] does write the string as a byte
    run of its UTF-8 bytes, but no string comes back from it, neither the
    empty one, nor ASCII, nor one with a two-byte code point. *)
Theorem rutf8_throws :
  (forall s : SerialReader.state, SerialReader.rutf8 s = (Throw TypeError, s))
  /\ (forall str : list Z,
        roundtrip (SerialWriter.wutf8 str) SerialReader.rutf8 = Throw TypeError)
  /\ encoding (SerialWriter.wutf8 []) = Normal []
  /\ encoding (SerialWriter.wutf8 [0x68; 0x69]) = Normal [0x02; 0x68; 0x69]
  /\ encoding (SerialWriter.wutf8 [0xE9; 0x21]) = Normal [0x03; 0xC3; 0xA9; 0x21].
Proof.
  split; [reflexivity |]. split; [apply wutf8_rutf8 |].
  split_all; vm_compute; reflexivity.
Qed.

(** ** The byte run where it works *)

(** A new writer next to a buffer that exists: its store is eight zero
    bytes and is not that buffer, which is still there. *)
Lemma new_writer_beside (h : heap) (input : loc) (payload : list Z) :
  h !! input = Some payload ->
  exists w0 h0,
    SerialWriter.constructor None h = (Normal w0, h0)
    /\ SerialWriter.pos w0 = 0
    /\ h0 !! SerialWriter.dv w0 = Some (replicate 8 0)
    /\ h0 !! input = Some payload
    /\ input ≠ SerialWriter.dv w0.
Proof.
  intros Hinput. eexists _, _. split; [apply constructor_None |].
  cbn [SerialWriter.dv SerialWriter.pos].
  split; [reflexivity |]. split; [by rewrite lookup_insert_eq |].
  assert (Hne0 : input ≠ fresh (dom h)) by (apply fresh_ne; eauto).
  assert (Hne1 : input ≠ fresh (dom (<[fresh (dom h) := replicate 8 0]> h))).
  { apply fresh_ne. rewrite lookup_insert_ne by congruence. eauto. }
  split; [by rewrite !lookup_insert_ne by congruence | assumption].
Qed.

(** The end of [wbytes]: the payload stored at the cursor of a store with
    room for it. *)
Lemma store_payload (h : heap) (w : SerialWriter.t) (input : loc)
    (payload buf : list Z) (len : Z) :
  h !! SerialWriter.dv w = Some buf ->
  h !! input = Some payload ->
  len = Z.of_nat (length payload) ->
  0 <= SerialWriter.pos w ->
  SerialWriter.pos w + len <= Z.of_nat (length buf) ->
  (target <- gets (fun s : SerialWriter.state => SerialWriter.dv (snd s)) ;;
   source <- gets (fun s : SerialWriter.state => bytes_of (fst s) input) ;;
   p <- gets (fun s : SerialWriter.state => SerialWriter.pos (snd s)) ;;
   onHeap (Uint8Array_set target source p) ;;;
   p <- gets (fun s : SerialWriter.state => SerialWriter.pos (snd s)) ;;
   SerialWriter.set_pos (p + len)) (h, w)
  = (Normal tt,
     (<[SerialWriter.dv w :=
          take (Z.to_nat (SerialWriter.pos w)) buf ++ payload
          ++ drop (Z.to_nat (SerialWriter.pos w) + length payload) buf]> h,
      {| SerialWriter.dv := SerialWriter.dv w;
         SerialWriter.pos := SerialWriter.pos w + len |})).
Proof.
  intros Hbuf Hinput -> Hpos Hroom.
  rewrite !bind_gets. cbn [fst snd].
  unfold bind at 1, onHeap, Uint8Array_set. cbn [fst snd].
  rewrite (bytes_of_lookup _ _ _ Hbuf), (bytes_of_lookup _ _ _ Hinput).
  rewrite (proj2 (Z.ltb_ge _ 0)) by lia.
  rewrite (proj2 (Z.ltb_ge _ _)) by lia.
  reflexivity.
Qed.

(** [wbytes] of an existing buffer into a new writer: the prefix, then the
    payload, whether the store had to grow or not. *)
Lemma wbytes_alone (h : heap) (input : loc) (payload : list Z)
    (w0 : SerialWriter.t) (h0 : heap) :
  let len := Z.of_nat (length payload) in
  let passes := JS.countdown (JS.ceil_log2_div7 len) in
  let prefix := JS.ToUint8 <$> varint_bytes passes len in
  (passes < 8)%nat ->
  SerialWriter.pos w0 = 0 ->
  h0 !! SerialWriter.dv w0 = Some (replicate 8 0) ->
  h0 !! input = Some payload ->
  input ≠ SerialWriter.dv w0 ->
  exists h1 w1,
    SerialWriter.wbytes (OfArrayBuffer input) (h0, w0) = (Normal tt, (h1, w1))
    /\ SerialWriter.pos w1 = Z.of_nat (passes + length payload)
    /\ take (passes + length payload) (bytes_of h1 (SerialWriter.dv w1))
       = prefix ++ payload.
Proof.
  intros len passes prefix Hpasses Hpos0 Hstore Hinput Hne.
  assert (Hprefix : length prefix = passes).
  { unfold prefix. rewrite length_fmap. clear. induction passes; simpl; congruence. }
  unfold SerialWriter.wbytes.
  unfold bind at 1. cbn [Uint8Array_new onHeap ret fst snd].
  rewrite bind_gets. cbn [fst snd].
  replace (byteLength h0 input) with len
    by (unfold byteLength; by rewrite (bytes_of_lookup _ _ _ Hinput)).
  unfold bind at 1. unfold SerialWriter.wuv. fold passes.
  rewrite wuv_loop_inplace;
    [| rewrite Hstore; eauto | lia
     | unfold byteLength; rewrite (bytes_of_lookup _ _ _ Hstore), length_replicate; lia].
  rewrite Hpos0, (bytes_of_lookup _ _ _ Hstore).
  change (Z.to_nat 0) with 0%nat. rewrite take_0, app_nil_l, Nat.add_0_l, Z.add_0_l.
  fold prefix.
  set (old := prefix ++ drop passes (replicate 8 0)).
  assert (Hold : length old = 8%nat).
  { unfold old. rewrite length_app, length_drop, length_replicate. lia. }
  set (h0' := <[SerialWriter.dv w0 := old]> h0).
  assert (Hinput' : h0' !! input = Some payload)
    by (unfold h0'; by rewrite lookup_insert_ne by congruence).
  unfold bind at 1, SerialWriter.allocMinExtra. rewrite bind_gets.
  cbn [fst snd SerialWriter.pos].
  rewrite allocMin_spec
    by (cbn [SerialWriter.dv]; unfold h0'; rewrite lookup_insert_eq; eauto).
  cbn zeta. cbn [SerialWriter.dv SerialWriter.pos]. unfold byteLength.
  replace (bytes_of h0' (SerialWriter.dv w0)) with old
    by (unfold h0'; by rewrite bytes_of_insert_eq).
  rewrite Hold. change (Z.of_nat 8) with 8.
  destruct (Z.leb_spec 8 (Z.of_nat passes + len)) as [Hgrow | Hfits].
  - set (nb := fresh (dom h0')).
    set (extra := Z.to_nat (Z.max (Z.of_nat passes + len) (8 * 2) - 8)).
    assert (Hnb : input ≠ nb) by (apply fresh_ne; eauto).
    erewrite store_payload;
      [ | cbn [SerialWriter.dv]; apply lookup_insert_eq
        | by rewrite lookup_insert_ne by congruence
        | reflexivity
        | cbn; lia
        | cbn [SerialWriter.pos]; rewrite length_app, length_replicate, Hold;
          unfold extra; lia ].
    eexists _, _. split; [reflexivity |].
    cbn [SerialWriter.dv SerialWriter.pos].
    split; [unfold len; lia |].
    rewrite bytes_of_insert_eq, Nat2Z.id.
    rewrite app_assoc, take_app_length'
      by (rewrite length_app, length_take, length_app, length_replicate; lia).
    f_equal. unfold old. rewrite <- app_assoc.
    apply (take_app_length' prefix _ passes (eq_sym Hprefix)).
  - erewrite store_payload;
      [ | cbn [SerialWriter.dv]; apply lookup_insert_eq
        | exact Hinput'
        | reflexivity
        | cbn; lia
        | cbn [SerialWriter.pos]; rewrite Hold; lia ].
    eexists _, _. split; [reflexivity |].
    cbn [SerialWriter.dv SerialWriter.pos].
    split; [unfold len; lia |].
    rewrite bytes_of_insert_eq, Nat2Z.id.
    rewrite app_assoc, take_app_length'
      by (rewrite length_app, length_take; lia).
    f_equal. unfold old. apply (take_app_length' prefix _ passes (eq_sym Hprefix)).
Qed.

(** X22. Where a byte run does come back: a run of 2 up to [2^31 - 1] bytes
    whose length is not a power of 128, given as an ArrayBuffer, written
    into a new writer, extracted and read, is read back as it was. *)
Theorem wbytes_rbytes_roundtrip (payload : list Z) :
  2 <= Z.of_nat (length payload) < 2 ^ 31 ->
  (forall k : nat, Z.of_nat (length payload) ≠ 128 ^ Z.of_nat k) ->
  roundtrip_bytes payload = Normal payload.
Proof.
  intros Hlen Hpower.
  destruct (varint_prefix _ Hlen Hpower) as [Hpasses Hscan].
  set (len := Z.of_nat (length payload)) in *.
  set (passes := JS.countdown (JS.ceil_log2_div7 len)) in *.
  set (prefix := JS.ToUint8 <$> varint_bytes passes len) in *.
  unfold roundtrip_bytes. unfold bind at 1, alloc. cbn zeta.
  set (input := fresh (dom (∅ : heap))).
  set (hi := <[input := payload]> (∅ : heap)).
  destruct (new_writer_beside hi input payload ltac:(apply lookup_insert_eq))
    as (w0 & h0 & Hnew & Hpos0 & Hstore & Hinput & Hne).
  destruct (wbytes_alone hi input payload w0 h0 ltac:(fold len passes; lia)
              Hpos0 Hstore Hinput Hne)
    as (h1 & w1 & Hbody & Hpos1 & Hbytes).
  fold len passes prefix in Hbytes, Hpos1.
  unfold bind at 1.
  rewrite (written_from _ _ _ _ _ _ Hnew Hbody) by lia.
  rewrite Hpos1, Nat2Z.id, Hbytes.
  set (out := fresh (dom h1)).
  unfold reading, lift_new, ret, bind.
  set (s := (<[out := prefix ++ payload]> h1, SerialReader.constructor out None)).
  assert (Hahead : ahead s = prefix ++ payload).
  { unfold ahead, s. cbn [fst snd SerialReader.constructor SerialReader.dv
                          SerialReader.pos default].
    by rewrite bytes_of_insert_eq. }
  rewrite rbytes_spec, ruv_spec by (cbn; lia).
  rewrite Hahead, (varint_scan_app _ payload _ _ _ Hscan).
  cbn [fst snd moved SerialReader.dv SerialReader.pos s SerialReader.constructor
       default gets].
  rewrite !bytes_of_insert_eq. f_equal.
  rewrite slice_bytes_nonneg by lia.
  replace (Z.to_nat (0 + Z.of_nat passes + len - (0 + Z.of_nat passes)))
    with (length payload) by lia.
  replace (Z.to_nat (0 + Z.of_nat passes)) with passes by lia.
  assert (Hprefix : length prefix = passes).
  { unfold prefix. rewrite length_fmap. clear. induction passes; simpl; congruence. }
  rewrite (drop_app_length' prefix payload passes) by (by rewrite Hprefix).
  apply firstn_all.
Qed.

Lemma wbytes_rbytes_roundtrip_witness :
  roundtrip_bytes [8; 9; 10] = Normal [8; 9; 10].
Proof.
  apply (wbytes_rbytes_roundtrip [8; 9; 10]).
  - split; [cbn; lia | reflexivity].
  - apply (between_powers 3 0). split; reflexivity.
Defined.

(** C4, at its failing inputs. The length prefix of a byte run goes
    through [wuv]: the empty run and a run of one byte get no prefix at
    all, a run of 128 bytes gets the prefix [0x00]. Reading back the empty
    run throws, and reading back the others returns an empty run (the
    one-byte run's own byte is taken for the prefix). Lengths such as 2
    and 127 do come back ([wbytes_rbytes_roundtrip]); and whatever
    [rbytes] returns is a buffer that did not exist before the call, so it
    shares no storage with the reader's buffer. *)
Theorem wbytes_rbytes_failures :
  roundtrip_bytes [] = Throw RangeError
  /\ roundtrip_bytes [5] = Normal []
  /\ roundtrip_bytes (replicate 128 7) = Normal []
  /\ roundtrip_bytes [8; 9] = Normal [8; 9]
  /\ roundtrip_bytes (replicate 127 7) = Normal (replicate 127 7)
  /\ (forall s : SerialReader.state,
        match SerialReader.rbytes s with
        | (Normal b, _) => fst s !! b = None
        | _ => True
        end).
Proof.
  split_all; [vm_compute; reflexivity .. |].
  intros s. rewrite rbytes_spec.
  destruct (SerialReader.ruv s) as [[length | e |] s1] eqn:Hruv; try exact I.
  cbn zeta. pose proof (same_dv_ruv s) as Hdv.
  assert (Hheap : fst s1 = fst s).
  { destruct (decide (0 <= SerialReader.pos (snd s))) as [Hpos | Hneg].
    - rewrite ruv_spec in Hruv by assumption. by injection Hruv as _ <-.
    - rewrite ruv_negative in Hruv by lia. discriminate. }
  rewrite Hheap. apply fresh_None.
Qed.

(** * Further properties *)

(** ** Fixed-width writes, by where they end *)

Lemma be_bytes_length (size : nat) (n : Z) : length (DataView.be_bytes size n) = size.
Proof. induction size as [| size IH]; simpl; congruence. Qed.

Lemma be_uint_be_bytes (size : nat) :
  forall acc n : Z,
    DataView.be_uint acc (DataView.be_bytes size n)
    = acc * 256 ^ Z.of_nat size + n mod 256 ^ Z.of_nat size.
Proof.
  induction size as [| size IH]; intros acc n.
  - simpl. rewrite Z.mod_1_r. lia.
  - cbn [DataView.be_bytes DataView.be_uint]. rewrite IH.
    rewrite Nat2Z.inj_succ, Z.pow_succ_r by lia.
    rewrite (Z.mul_comm 256 (256 ^ Z.of_nat size)).
    rewrite (Z.rem_mul_r n (256 ^ Z.of_nat size) 256) by lia.
    ring.
Qed.

(** One fixed-width write, in each of its three cases: below the
    capacity the bytes land in the store; ending at the capacity the store
    is replaced first and the bytes land in the buffer that was the store;
    ending past it the store is replaced and the setter throws. *)
Lemma write_cases (size : nat) (n : Z) (h : heap) (w : SerialWriter.t) :
  is_Some (h !! SerialWriter.dv w) ->
  0 <= SerialWriter.pos w <= byteLength h (SerialWriter.dv w) ->
  let old := bytes_of h (SerialWriter.dv w) in
  let cap := byteLength h (SerialWriter.dv w) in
  let p := SerialWriter.pos w + Z.of_nat size in
  let i := Z.to_nat (SerialWriter.pos w) in
  let after_store := take i old ++ DataView.be_bytes size n ++ drop (i + size) old in
  let newBuffer := fresh (dom h) in
  let grown :=
    <[newBuffer := old ++ replicate (Z.to_nat (Z.max p (cap * 2) - cap)) 0]> h in
  SerialWriter.write (DataView.setUint size) (Z.of_nat size) n (h, w) =
    if cap <=? p then
      if cap <? p then
        (Throw RangeError,
         (grown, {| SerialWriter.dv := newBuffer; SerialWriter.pos := p |}))
      else
        (Normal tt,
         (<[SerialWriter.dv w := after_store]> grown,
          {| SerialWriter.dv := newBuffer; SerialWriter.pos := p |}))
    else
      (Normal tt,
       (<[SerialWriter.dv w := after_store]> h,
        {| SerialWriter.dv := SerialWriter.dv w; SerialWriter.pos := p |})).
Proof.
  intros Hdv Hpos old cap p i after_store newBuffer grown.
  unfold SerialWriter.write, bind, gets. cbn [fst snd].
  rewrite delayedMove_spec by assumption. cbn zeta. fold old cap p newBuffer grown.
  unfold onHeap, DataView.setUint, DataView.SetViewValue. cbn [fst snd].
  rewrite be_bytes_length.
  rewrite (proj2 (Z.ltb_ge (SerialWriter.pos w) 0)) by lia. cbn [orb].
  fold p.
  destruct (cap <=? p) eqn:Hgrow; cbn [fst snd].
  - assert (Hne : newBuffer ≠ SerialWriter.dv w)
      by (intros Heq; symmetry in Heq; revert Heq; by apply fresh_ne).
    assert (Hold : bytes_of grown (SerialWriter.dv w) = old)
      by (unfold grown; by rewrite bytes_of_insert_ne).
    unfold byteLength. rewrite !Hold.
    change (Z.of_nat (length old)) with cap.
    destruct (cap <? p); reflexivity.
  - fold cap. apply Z.leb_gt in Hgrow.
    rewrite (proj2 (Z.ltb_ge cap p)) by lia. reflexivity.
Qed.

(** Every fixed-width method with a setter is one such write. *)
Lemma wcall_write (op : wop) (width : Z) :
  wwidth op = Some width -> has_setter op = true ->
  exists (size : nat) (n : Z),
    width = Z.of_nat size
    /\ (1 <= size)%nat
    /\ stored op = DataView.be_bytes size n
    /\ wcall op = SerialWriter.write (DataView.setUint size) (Z.of_nat size) n.
Proof.
  intros Hwidth Hsetter.
  destruct op; try discriminate; injection Hwidth as <-;
    eexists _, _; (split; [| split; [| split; reflexivity]]);
    first [ instantiate (1 := 1%nat); reflexivity
          | instantiate (1 := 2%nat); reflexivity
          | instantiate (1 := 4%nat); reflexivity
          | instantiate (1 := 8%nat); reflexivity
          | lia ].
Qed.

(** X1. A fixed-width write (8, 16 or 32 bits, a float, a bool or a
    char) that ends strictly below the capacity of the store returns,
    stores its bytes at the cursor, the most significant first, leaves
    every other byte of the store as it was, keeps the same store and
    moves the cursor by its width. *)
Theorem fixed_write_below_capacity (op : wop) (width : Z) (s : SerialWriter.state) :
  wwidth op = Some width -> has_setter op = true -> wf s ->
  SerialWriter.pos (snd s) + width < byteLength (fst s) (SerialWriter.dv (snd s)) ->
  let old := bytes_of (fst s) (SerialWriter.dv (snd s)) in
  let i := Z.to_nat (SerialWriter.pos (snd s)) in
  Z.of_nat (length (stored op)) = width
  /\ wcall op s =
     (Normal tt,
      (<[SerialWriter.dv (snd s) :=
           take i old ++ stored op ++ drop (i + Z.to_nat width) old]> (fst s),
       {| SerialWriter.dv := SerialWriter.dv (snd s);
          SerialWriter.pos := SerialWriter.pos (snd s) + width |})).
Proof.
  intros Hwidth Hsetter [Hdv Hpos] Hroom old i.
  destruct (wcall_write op width Hwidth Hsetter) as (size & n & -> & _ & -> & ->).
  destruct s as [h w]. cbn [fst snd] in *.
  rewrite be_bytes_length. split; [reflexivity |].
  rewrite write_cases by assumption. cbn zeta.
  rewrite (proj2 (Z.leb_gt _ _)) by lia.
  by rewrite Nat2Z.id.
Qed.

Lemma fixed_write_below_capacity_witness :
  wcall (Wu16 0x1234) (writer_over [9; 9; 0; 0; 0; 0; 0; 0] 2)
  = (Normal tt, writer_over [9; 9; 0x12; 0x34; 0; 0; 0; 0] 4).
Proof.
  destruct (fixed_write_below_capacity (Wu16 0x1234) 2
              (writer_over [9; 9; 0; 0; 0; 0; 0; 0] 2)) as [_ Hrun].
  - reflexivity.
  - reflexivity.
  - split; [exists [9; 9; 0; 0; 0; 0; 0; 0]; reflexivity
           | vm_compute; split; discriminate].
  - vm_compute. reflexivity.
  - rewrite Hrun. vm_compute. reflexivity.
Defined.

(** X2. A fixed-width write that ends exactly at the capacity of the
    store returns, but its bytes are lost: [delayedMove] replaces the
    store by a new buffer of twice the capacity holding the old bytes and
    zeros, and the setter, whose receiver was read before, stores into
    the buffer that is no longer the store. *)
Theorem fixed_write_at_capacity_lost (op : wop) (width : Z) (s : SerialWriter.state) :
  wwidth op = Some width -> has_setter op = true -> wf s ->
  SerialWriter.pos (snd s) + width = byteLength (fst s) (SerialWriter.dv (snd s)) ->
  let old := bytes_of (fst s) (SerialWriter.dv (snd s)) in
  let cap := byteLength (fst s) (SerialWriter.dv (snd s)) in
  let i := Z.to_nat (SerialWriter.pos (snd s)) in
  exists newBuffer,
    fst s !! newBuffer = None
    /\ fst (wcall op s) = Normal tt
    /\ snd (snd (wcall op s))
       = {| SerialWriter.dv := newBuffer; SerialWriter.pos := cap |}
    /\ bytes_of (fst (snd (wcall op s))) newBuffer = old ++ replicate (Z.to_nat cap) 0
    /\ bytes_of (fst (snd (wcall op s))) (SerialWriter.dv (snd s))
       = take i old ++ stored op.
Proof.
  intros Hwidth Hsetter [Hdv Hpos] Hend old cap i.
  destruct (wcall_write op width Hwidth Hsetter) as (size & n & -> & Hsize & -> & ->).
  destruct s as [h w]. cbn [fst snd] in *.
  exists (fresh (dom h)). split; [apply fresh_None |].
  rewrite write_cases by assumption. cbn zeta. fold cap.
  rewrite (proj2 (Z.leb_le _ _)) by lia.
  rewrite (proj2 (Z.ltb_ge _ _)) by lia.
  cbn [fst snd].
  assert (Hne : fresh (dom h) ≠ SerialWriter.dv w)
    by (intros Heq; symmetry in Heq; revert Heq; by apply fresh_ne).
  split; [reflexivity |]. split; [by rewrite Hend |].
  rewrite bytes_of_insert_ne, !bytes_of_insert_eq by congruence.
  split.
  - do 2 f_equal. lia.
  - fold old. rewrite drop_ge, app_nil_r; [reflexivity |].
    unfold cap, byteLength in Hend. fold old in Hend. lia.
Qed.

Lemma fixed_write_at_capacity_lost_witness :
  exists newBuffer,
    let r := wcall (Wu32 0x01020304) (writer_over [9; 9; 9; 9; 0; 0; 0; 0] 4) in
    fst r = Normal tt
    /\ SerialWriter.dv (snd (snd r)) = newBuffer
    /\ bytes_of (fst (snd r)) newBuffer
       = [9; 9; 9; 9; 0; 0; 0; 0; 0; 0; 0; 0; 0; 0; 0; 0].
Proof.
  destruct (fixed_write_at_capacity_lost (Wu32 0x01020304) 4
              (writer_over [9; 9; 9; 9; 0; 0; 0; 0] 4))
    as (newBuffer & _ & Hrun & Hstate & Hstore & _).
  - reflexivity.
  - reflexivity.
  - split; [exists [9; 9; 9; 9; 0; 0; 0; 0]; reflexivity
           | vm_compute; split; discriminate].
  - vm_compute. reflexivity.
  - exists newBuffer. cbn zeta. rewrite Hrun, Hstate, Hstore.
    split; [reflexivity | split; [reflexivity |]].
    vm_compute. reflexivity.
Defined.

(** X3. A fixed-width write that would end past the capacity of the
    store throws a RangeError: [delayedMove] has already moved the cursor
    by the width and replaced the store by a larger buffer holding the old
    bytes and zeros, and the setter, run on the buffer that was the store,
    finds no room there. The old buffer is left as it was. *)
Theorem fixed_write_past_capacity_throws (op : wop) (width : Z)
    (s : SerialWriter.state) :
  wwidth op = Some width -> has_setter op = true -> wf s ->
  byteLength (fst s) (SerialWriter.dv (snd s)) < SerialWriter.pos (snd s) + width ->
  let old := bytes_of (fst s) (SerialWriter.dv (snd s)) in
  let cap := byteLength (fst s) (SerialWriter.dv (snd s)) in
  let p := SerialWriter.pos (snd s) + width in
  exists newBuffer,
    fst s !! newBuffer = None
    /\ fst (wcall op s) = Throw RangeError
    /\ snd (snd (wcall op s))
       = {| SerialWriter.dv := newBuffer; SerialWriter.pos := p |}
    /\ bytes_of (fst (snd (wcall op s))) newBuffer
       = old ++ replicate (Z.to_nat (Z.max p (cap * 2) - cap)) 0
    /\ bytes_of (fst (snd (wcall op s))) (SerialWriter.dv (snd s)) = old.
Proof.
  intros Hwidth Hsetter [Hdv Hpos] Hpast old cap p.
  destruct (wcall_write op width Hwidth Hsetter) as (size & n & -> & Hsize & _ & ->).
  destruct s as [h w]. cbn [fst snd] in *.
  exists (fresh (dom h)). split; [apply fresh_None |].
  rewrite write_cases by assumption. cbn zeta. fold cap p.
  rewrite (proj2 (Z.leb_le _ _)) by lia.
  rewrite (proj2 (Z.ltb_lt _ _)) by lia.
  cbn [fst snd].
  assert (Hne : fresh (dom h) ≠ SerialWriter.dv w)
    by (intros Heq; symmetry in Heq; revert Heq; by apply fresh_ne).
  split; [reflexivity |]. split; [reflexivity |].
  by rewrite bytes_of_insert_eq, bytes_of_insert_ne by congruence.
Qed.

Lemma fixed_write_past_capacity_throws_witness :
  exists newBuffer,
    let r := wcall (Wu32 0x01020304) (writer_over [9; 9; 9; 9; 9; 9; 0; 0] 6) in
    fst r = Throw RangeError
    /\ snd (snd r) = {| SerialWriter.dv := newBuffer; SerialWriter.pos := 10 |}
    /\ bytes_of (fst (snd r)) newBuffer
       = [9; 9; 9; 9; 9; 9; 0; 0; 0; 0; 0; 0; 0; 0; 0; 0].
Proof.
  destruct (fixed_write_past_capacity_throws (Wu32 0x01020304) 4
              (writer_over [9; 9; 9; 9; 9; 9; 0; 0] 6))
    as (newBuffer & _ & Hrun & Hstate & Hstore & _).
  - reflexivity.
  - reflexivity.
  - split; [exists [9; 9; 9; 9; 9; 9; 0; 0]; reflexivity
           | vm_compute; split; discriminate].
  - vm_compute. reflexivity.
  - exists newBuffer. cbn zeta. rewrite Hrun, Hstate, Hstore.
    split; [reflexivity | split; [reflexivity |]].
    vm_compute. reflexivity.
Defined.

(** ** Fixed-width values through a new writer *)

(** A fixed-width write of fewer than eight bytes into a new writer:
    what is extracted is the bytes given to the setter, and a read over
    the extracted buffer starts at them. *)
Lemma fixed_alone (op : wop) (width : Z) :
  wwidth op = Some width -> has_setter op = true -> width < 8 ->
  encoding (wcall op) = Normal (stored op)
  /\ exists s0 : SerialReader.state,
       (forall A (rd : M SerialReader.state A), roundtrip (wcall op) rd = fst (rd s0))
       /\ SerialReader.pos (snd s0) = 0
       /\ bytes_of (fst s0) (SerialReader.dv (snd s0)) = stored op.
Proof.
  intros Hwidth Hsetter Hsmall.
  destruct (wcall_write op width Hwidth Hsetter) as (size & n & -> & Hsize & -> & ->).
  destruct (SerialWriter.constructor None ∅) as [c h0] eqn:Hnew.
  pose proof Hnew as Hnew'. rewrite constructor_None in Hnew'.
  injection Hnew' as <- <-.
  match type of Hnew with
  | _ = (Normal ?w, ?h) => set (w0 := w) in *; set (h0 := h) in *
  end.
  assert (Hdv : is_Some (h0 !! SerialWriter.dv w0))
    by (unfold h0; cbn [SerialWriter.dv w0]; rewrite lookup_insert_eq; eauto).
  assert (Hold : bytes_of h0 (SerialWriter.dv w0) = replicate 8 0)
    by apply bytes_of_insert_eq.
  assert (Hcap : byteLength h0 (SerialWriter.dv w0) = 8)
    by (unfold byteLength; by rewrite Hold).
  pose proof (write_cases size n h0 w0 Hdv) as Hrun.
  rewrite Hcap, Hold in Hrun. cbn zeta in Hrun.
  change (SerialWriter.pos w0) with 0 in Hrun.
  rewrite (proj2 (Z.leb_gt 8 (0 + Z.of_nat size))) in Hrun by lia.
  specialize (Hrun ltac:(lia)).
  change (Z.to_nat 0) with O in Hrun. rewrite take_0 in Hrun. cbn [app Nat.add] in Hrun.
  destruct (written_spec _ _ _ _ _ Hnew Hrun) as (_ & Henc & Hround);
    [cbn; lia |].
  cbn [SerialWriter.dv SerialWriter.pos] in Henc, Hround.
  rewrite bytes_of_insert_eq in Henc, Hround.
  assert (Htake : take (Z.to_nat (0 + Z.of_nat size))
                    (DataView.be_bytes size n ++ drop size (replicate 8 0))
                  = DataView.be_bytes size n).
  { apply take_app_length'. rewrite be_bytes_length. lia. }
  rewrite Htake in Henc, Hround.
  split; [exact Henc |].
  eexists. split; [exact Hround |].
  split; [reflexivity |]. cbn [fst snd SerialReader.constructor SerialReader.dv].
  apply bytes_of_insert_eq.
Qed.

(** A fixed-width read at the start of a buffer that holds exactly the
    bytes of one number. *)
Lemma read_uint_whole (size : nat) (n : Z) (s0 : SerialReader.state) :
  SerialReader.pos (snd s0) = 0 ->
  bytes_of (fst s0) (SerialReader.dv (snd s0)) = DataView.be_bytes size n ->
  fst (SerialReader.read (DataView.getUint size) (Z.of_nat size) s0)
  = Normal (n mod 256 ^ Z.of_nat size).
Proof.
  intros Hpos Hbytes. rewrite read_getUint. cbn [fst].
  unfold byteLength, ahead. rewrite Hpos, Hbytes, be_bytes_length.
  cbn [Z.ltb Z.compare orb]. rewrite (proj2 (Z.ltb_ge _ _)) by lia.
  change (Z.to_nat 0) with O. rewrite drop_0, take_ge by (rewrite be_bytes_length; lia).
  rewrite be_uint_be_bytes. f_equal; lia.
Qed.

Lemma read_int_whole (size : nat) (n : Z) (s0 : SerialReader.state) :
  SerialReader.pos (snd s0) = 0 ->
  bytes_of (fst s0) (SerialReader.dv (snd s0)) = DataView.be_bytes size n ->
  fst (SerialReader.read (DataView.getInt size) (Z.of_nat size) s0)
  = Normal (DataView.signed (8 * Z.of_nat size) (n mod 256 ^ Z.of_nat size)).
Proof.
  intros Hpos Hbytes. rewrite read_getInt. cbn [fst].
  unfold byteLength, ahead. rewrite Hpos, Hbytes, be_bytes_length.
  cbn [Z.ltb Z.compare orb]. rewrite (proj2 (Z.ltb_ge _ _)) by lia.
  change (Z.to_nat 0) with O. rewrite drop_0, take_ge by (rewrite be_bytes_length; lia).
  rewrite be_uint_be_bytes. do 2 f_equal; lia.
Qed.

(** X4. An unsigned integer of 8, 16 or 32 bits written into a new
    writer and read back with the reader of the same width comes back
    reduced modulo [2^8], [2^16] or [2^32]: unchanged when it is within
    the range of the width. *)
Theorem unsigned_roundtrip (n : Z) :
  roundtrip (SerialWriter.wu8 n) SerialReader.ru8 = Normal (n mod 2 ^ 8)
  /\ roundtrip (SerialWriter.wu16 n) SerialReader.ru16 = Normal (n mod 2 ^ 16)
  /\ roundtrip (SerialWriter.wu32 n) SerialReader.ru32 = Normal (n mod 2 ^ 32).
Proof.
  split_all.
  - destruct (fixed_alone (Wu8 n) 1) as (_ & s0 & Hround & Hpos & Hbytes);
      [reflexivity | reflexivity | lia |].
    cbn [wcall] in Hround. rewrite Hround.
    apply (read_uint_whole 1 n s0 Hpos Hbytes).
  - destruct (fixed_alone (Wu16 n) 2) as (_ & s0 & Hround & Hpos & Hbytes);
      [reflexivity | reflexivity | lia |].
    cbn [wcall] in Hround. rewrite Hround.
    apply (read_uint_whole 2 n s0 Hpos Hbytes).
  - destruct (fixed_alone (Wu32 n) 4) as (_ & s0 & Hround & Hpos & Hbytes);
      [reflexivity | reflexivity | lia |].
    cbn [wcall] in Hround. rewrite Hround.
    apply (read_uint_whole 4 n s0 Hpos Hbytes).
Qed.

Lemma signed_wrap (bits n : Z) :
  0 < bits ->
  DataView.signed bits (n mod 2 ^ bits)
  = (n + 2 ^ (bits - 1)) mod 2 ^ bits - 2 ^ (bits - 1).
Proof.
  intros Hbits. unfold DataView.signed.
  assert (Hpow : 2 ^ bits = 2 * 2 ^ (bits - 1))
    by (rewrite <- Z.pow_succ_r by lia; f_equal; lia).
  assert (Hhalf : 0 < 2 ^ (bits - 1)) by (apply Z.pow_pos_nonneg; lia).
  rewrite Hpow. set (half := 2 ^ (bits - 1)) in *.
  pose proof (Z.mod_pos_bound n (2 * half) ltac:(lia)) as Hx.
  pose proof (Z.div_mod n (2 * half) ltac:(lia)) as Hn.
  set (x := n mod (2 * half)) in *. set (q := n / (2 * half)) in *.
  destruct (half <=? x) eqn:Hsign.
  - apply Z.leb_le in Hsign.
    rewrite <- (Z.mod_unique_pos (n + half) (2 * half) (q + 1) (x - half)); lia.
  - apply Z.leb_gt in Hsign.
    rewrite <- (Z.mod_unique_pos (n + half) (2 * half) q (x + half)); lia.
Qed.

(** X5. A signed integer of 8, 16 or 32 bits written into a new writer
    and read back with the reader of the same width comes back wrapped
    into the signed range of the width: unchanged when it is within
    [-2^(w-1), 2^(w-1))]. *)
Theorem signed_roundtrip (n : Z) :
  roundtrip (SerialWriter.wi8 n) SerialReader.ri8
  = Normal ((n + 2 ^ 7) mod 2 ^ 8 - 2 ^ 7)
  /\ roundtrip (SerialWriter.wi16 n) SerialReader.ri16
     = Normal ((n + 2 ^ 15) mod 2 ^ 16 - 2 ^ 15)
  /\ roundtrip (SerialWriter.wi32 n) SerialReader.ri32
     = Normal ((n + 2 ^ 31) mod 2 ^ 32 - 2 ^ 31).
Proof.
  split_all.
  - destruct (fixed_alone (Wi8 n) 1) as (_ & s0 & Hround & Hpos & Hbytes);
      [reflexivity | reflexivity | lia |].
    cbn [wcall] in Hround. rewrite Hround.
    etransitivity; [apply (read_int_whole 1 n s0 Hpos Hbytes) |].
    f_equal. apply (signed_wrap 8 n). lia.
  - destruct (fixed_alone (Wi16 n) 2) as (_ & s0 & Hround & Hpos & Hbytes);
      [reflexivity | reflexivity | lia |].
    cbn [wcall] in Hround. rewrite Hround.
    etransitivity; [apply (read_int_whole 2 n s0 Hpos Hbytes) |].
    f_equal. apply (signed_wrap 16 n). lia.
  - destruct (fixed_alone (Wi32 n) 4) as (_ & s0 & Hround & Hpos & Hbytes);
      [reflexivity | reflexivity | lia |].
    cbn [wcall] in Hround. rewrite Hround.
    etransitivity; [apply (read_int_whole 4 n s0 Hpos Hbytes) |].
    f_equal. apply (signed_wrap 32 n). lia.
Qed.

Ltac layout :=
  unfold stored; cbn [DataView.be_bytes Text.charCodeAt0 head default];
  change (256 ^ Z.of_nat 3) with (2 ^ 24);
  change (256 ^ Z.of_nat 2) with (2 ^ 16);
  change (256 ^ Z.of_nat 1) with (2 ^ 8);
  change (256 ^ Z.of_nat 0) with 1;
  rewrite Z.div_1_r.

(** X6. Integers of 16 and 32 bits are written big-endian, the signed
    ones in two's complement: the extracted bytes of a single write into
    a new writer are the base-256 digits of the number, the most
    significant first. *)
Theorem big_endian_layout (n : Z) :
  encoding (SerialWriter.wu16 n) = Normal [(n / 2 ^ 8) mod 256; n mod 256]
  /\ encoding (SerialWriter.wi16 n) = Normal [(n / 2 ^ 8) mod 256; n mod 256]
  /\ encoding (SerialWriter.wu32 n)
     = Normal [(n / 2 ^ 24) mod 256; (n / 2 ^ 16) mod 256; (n / 2 ^ 8) mod 256;
               n mod 256]
  /\ encoding (SerialWriter.wi32 n)
     = Normal [(n / 2 ^ 24) mod 256; (n / 2 ^ 16) mod 256; (n / 2 ^ 8) mod 256;
               n mod 256].
Proof.
  split_all.
  - destruct (fixed_alone (Wu16 n) 2) as [Henc _]; [reflexivity | reflexivity | lia |].
    cbn [wcall] in Henc. rewrite Henc. by layout.
  - destruct (fixed_alone (Wi16 n) 2) as [Henc _]; [reflexivity | reflexivity | lia |].
    cbn [wcall] in Henc. rewrite Henc. by layout.
  - destruct (fixed_alone (Wu32 n) 4) as [Henc _]; [reflexivity | reflexivity | lia |].
    cbn [wcall] in Henc. rewrite Henc. by layout.
  - destruct (fixed_alone (Wi32 n) 4) as [Henc _]; [reflexivity | reflexivity | lia |].
    cbn [wcall] in Henc. rewrite Henc. by layout.
Qed.



(** The store of a new writer, named. *)
Lemma new_writer :
  exists w0 h0,
    SerialWriter.constructor None ∅ = (Normal w0, h0)
    /\ SerialWriter.pos w0 = 0
    /\ h0 !! SerialWriter.dv w0 = Some (replicate 8 0).
Proof.
  eexists _, _. split; [apply constructor_None |].
  cbn [SerialWriter.dv SerialWriter.pos].
  split; [reflexivity | by rewrite lookup_insert_eq].
Qed.

(** X9. A write that ends exactly at the eighth byte of a new writer is
    lost. A double written first comes out as eight zero bytes, whatever
    its bits, and reads back as the bits of 0; of two 32-bit integers
    written one after the other the second comes out as four zero bytes. *)
Theorem write_ending_at_eight_lost (n a b : Z) :
  encoding (SerialWriter.wf64 n) = Normal [0; 0; 0; 0; 0; 0; 0; 0]
  /\ roundtrip (SerialWriter.wf64 n) SerialReader.rf64 = Normal 0
  /\ encoding (SerialWriter.wu32 a ;;; SerialWriter.wu32 b)
     = Normal [(a / 2 ^ 24) mod 256; (a / 2 ^ 16) mod 256; (a / 2 ^ 8) mod 256;
               a mod 256; 0; 0; 0; 0].
Proof.
  destruct new_writer as (w0 & h0 & Hnew & Hpos0 & Hstore).
  assert (Hdv : is_Some (h0 !! SerialWriter.dv w0)) by eauto.
  pose proof (bytes_of_lookup _ _ _ Hstore) as Hold.
  assert (Hcap : byteLength h0 (SerialWriter.dv w0) = 8)
    by (unfold byteLength; by rewrite Hold).
  assert (Hfresh : fresh (dom h0) ≠ SerialWriter.dv w0)
    by (intros Heq; symmetry in Heq; revert Heq; by apply fresh_ne).
  assert (Hdouble :
    exists h1 w1,
      SerialWriter.wf64 n (h0, w0) = (Normal tt, (h1, w1))
      /\ SerialWriter.pos w1 = 8
      /\ bytes_of h1 (SerialWriter.dv w1) = replicate 16 0).
  { pose proof (write_cases 8 n h0 w0 Hdv) as Hrun.
    rewrite Hcap, Hold, Hpos0 in Hrun. cbn zeta in Hrun.
    specialize (Hrun ltac:(lia)).
    change (8 <=? 0 + Z.of_nat 8) with true in Hrun.
    change (8 <? 0 + Z.of_nat 8) with false in Hrun. cbv iota in Hrun.
    eexists _, _. split; [exact Hrun |].
    cbn [SerialWriter.dv SerialWriter.pos]. split; [reflexivity |].
    by rewrite bytes_of_insert_ne, bytes_of_insert_eq by congruence. }
  destruct Hdouble as (h1 & w1 & Hrun & Hpos1 & Hbytes1).
  destruct (written_spec _ _ _ _ _ Hnew Hrun ltac:(lia)) as (_ & Henc & Hround).
  rewrite Hpos1, Hbytes1 in Henc, Hround.
  split; [exact Henc | split].
  - rewrite Hround.
    apply (read_uint_whole 8 0); [reflexivity |].
    cbn [fst snd SerialReader.constructor SerialReader.dv].
    by rewrite bytes_of_insert_eq.
  - pose proof (write_cases 4 a h0 w0 Hdv) as Hfirst.
    rewrite Hcap, Hold, Hpos0 in Hfirst. cbn zeta in Hfirst.
    specialize (Hfirst ltac:(lia)).
    change (8 <=? 0 + Z.of_nat 4) with false in Hfirst. cbv iota in Hfirst.
    change (Z.to_nat 0) with O in Hfirst. rewrite take_0 in Hfirst.
    cbn [app Nat.add] in Hfirst.
    set (first := DataView.be_bytes 4 a ++ drop 4 (replicate 8 0)) in *.
    set (ha := <[SerialWriter.dv w0 := first]> h0) in *.
    set (wa := {| SerialWriter.dv := SerialWriter.dv w0;
                  SerialWriter.pos := 0 + Z.of_nat 4 |}) in *.
    assert (Hdva : is_Some (ha !! SerialWriter.dv wa))
      by (unfold ha, wa; cbn [SerialWriter.dv]; rewrite lookup_insert_eq; eauto).
    assert (Holda : bytes_of ha (SerialWriter.dv wa) = first)
      by apply bytes_of_insert_eq.
    assert (Hlen : length first = 8%nat) by reflexivity.
    assert (Hcapa : byteLength ha (SerialWriter.dv wa) = 8)
      by (unfold byteLength; by rewrite Holda, Hlen).
    pose proof (write_cases 4 b ha wa Hdva) as Hsecond.
    rewrite Hcapa, Holda in Hsecond. cbn zeta in Hsecond.
    specialize (Hsecond ltac:(cbn; lia)).
    change (8 <=? SerialWriter.pos wa + Z.of_nat 4) with true in Hsecond.
    change (8 <? SerialWriter.pos wa + Z.of_nat 4) with false in Hsecond.
    cbv iota in Hsecond.
    assert (Hboth :
      (SerialWriter.wu32 a ;;; SerialWriter.wu32 b) (h0, w0)
      = SerialWriter.write (DataView.setUint 4) (Z.of_nat 4) b (ha, wa)).
    { unfold bind at 1.
      change (SerialWriter.wu32 a)
        with (SerialWriter.write (DataView.setUint 4) (Z.of_nat 4) a).
      by rewrite Hfirst. }
    rewrite Hsecond in Hboth.
    assert (Hfresha : SerialWriter.dv wa ≠ fresh (dom ha)) by (by apply fresh_ne).
    destruct (written_spec _ _ _ _ _ Hnew Hboth ltac:(cbn; lia)) as (_ & Hencb & _).
    rewrite Hencb. cbn [SerialWriter.dv SerialWriter.pos].
    rewrite bytes_of_insert_ne, bytes_of_insert_eq by exact Hfresha.
    f_equal. unfold first. by layout.
Qed.

(** ** A writer over an existing buffer *)

(** [new SerialWriter(buffer)]: the store is a new buffer with the bytes
    of [buffer], and the cursor is at their end. *)
Lemma constructor_Some (buffer : loc) (h : heap) :
  SerialWriter.constructor (Some buffer) h =
    (Normal {| SerialWriter.dv := fresh (dom h);
               SerialWriter.pos := byteLength h buffer |},
     <[fresh (dom h) := bytes_of h buffer]> h).
Proof.
  unfold SerialWriter.constructor, bind, gets, ArrayBuffer.slice_from, alloc, ret.
  cbn [fst snd]. unfold byteLength. by rewrite slice_bytes_whole.
Qed.

(** X10. A writer made over an existing buffer cannot be appended to
    with a fixed-width write: the cursor starts at the capacity of the
    store, so the first such write, whatever the buffer and the value,
    throws a RangeError. *)
Theorem append_first_write_throws (h : heap) (buffer : loc) (op : wop) (width : Z) :
  wwidth op = Some width -> has_setter op = true ->
  fst (lift_new (SerialWriter.constructor (Some buffer)) (wcall op) h)
  = Throw RangeError.
Proof.
  intros Hwidth Hsetter.
  destruct (wcall_write op width Hwidth Hsetter) as (size & n & -> & Hsize & _ & ->).
  unfold lift_new. rewrite constructor_Some.
  rewrite write_cases; cbn [SerialWriter.dv SerialWriter.pos].
  - unfold byteLength. rewrite bytes_of_insert_eq.
    rewrite (proj2 (Z.leb_le _ _)) by lia.
    rewrite (proj2 (Z.ltb_lt _ _)) by lia.
    reflexivity.
  - rewrite lookup_insert_eq. eauto.
  - unfold byteLength. rewrite bytes_of_insert_eq. lia.
Qed.

Lemma append_first_write_throws_witness :
  fst (lift_new (SerialWriter.constructor (Some O)) (wcall (Wu8 7)) {[ O := [1; 2; 3] ]})
  = Throw RangeError.
Proof.
  apply (append_first_write_throws {[ O := [1; 2; 3] ]} O (Wu8 7) 1); reflexivity.
Defined.

(** X11. A writer changes no buffer but its own stores: every buffer
    that existed when the writer was made, the one given to the
    constructor among them, and any given to [wbytes] since, still holds
    the same bytes after any sequence of writes, however they completed,
    and is never the writer's store. *)
Theorem writer_leaves_buffers (buffer : option loc) (h : heap) (ops : list wop)
    (l : loc) :
  is_Some (h !! l) ->
  match SerialWriter.constructor buffer h with
  | (Normal w, h0) =>
      fst (after wcall ops (h0, w)) !! l = h !! l
      /\ SerialWriter.dv (snd (after wcall ops (h0, w))) ≠ l
  | _ => False
  end.
Proof.
  intros Hl.
  pose proof (wf_constructor buffer h) as Hwf.
  assert (Hkept : match SerialWriter.constructor buffer h with
                  | (Normal w, h0) => h0 !! l = h !! l /\ l ≠ SerialWriter.dv w
                  | _ => False
                  end).
  { destruct buffer as [b |].
    - rewrite constructor_Some. cbn [SerialWriter.dv].
      pose proof (fresh_ne h l Hl) as Hne.
      split; [by rewrite lookup_insert_ne | assumption].
    - rewrite constructor_None. cbn [SerialWriter.dv].
      pose proof (fresh_ne h l Hl) as Hne0.
      assert (Hl0 : is_Some (<[fresh (dom h) := replicate 8 0]> h !! l))
        by (by rewrite lookup_insert_ne).
      pose proof (fresh_ne _ l Hl0) as Hne1.
      split; [by rewrite !lookup_insert_ne | assumption]. }
  destruct (SerialWriter.constructor buffer h) as [[w | e |] h0]; try assumption.
  destruct Hkept as [Hsame Hne].
  destruct (respects_after extends wcall ops extends_wcall (h0, w) Hwf)
    as (_ & _ & _ & Hframe).
  destruct (Hframe l) as [Hne' Hsame']; [cbn; rewrite Hsame; exact Hl | exact Hne |].
  split; [by rewrite Hsame', <- Hsame | congruence].
Qed.

Lemma writer_leaves_buffers_witness :
  match SerialWriter.constructor (Some O) {[ O := [1; 2; 3] ]} with
  | (Normal w, h0) =>
      fst (after wcall [Wu8 7; Wbytes (OfArrayBuffer O); Wu32 9] (h0, w)) !! O
      = Some [1; 2; 3]
  | _ => False
  end.
Proof.
  pose proof (writer_leaves_buffers (Some O) {[ O := [1; 2; 3] ]}
                [Wu8 7; Wbytes (OfArrayBuffer O); Wu32 9] O) as Hkept.
  rewrite constructor_Some in Hkept |- *.
  destruct Hkept as [Hsame _]; [rewrite lookup_singleton_eq; eauto |].
  etransitivity; [exact Hsame | apply lookup_singleton_eq].
Defined.

(** ** The reader changes no buffer *)

#[local] Instance unmodified_refl {T} : Reflexive (@unmodified T).
Proof. intros s l _. reflexivity. Qed.

#[local] Instance unmodified_trans {T} : Transitive (@unmodified T).
Proof.
  intros s1 s2 s3 H12 H23 l Hl.
  rewrite H23 by (rewrite H12; assumption). by apply H12.
Qed.

Lemma unmodified_same_heap {A} (m : M SerialReader.state A) :
  (forall s, fst (snd (m s)) = fst s) -> respects unmodified m.
Proof. intros Hm s l _. by rewrite Hm. Qed.

Lemma unmodified_read get width :
  (forall view index h, snd (get view index h) = h) ->
  respects unmodified (SerialReader.read get width).
Proof.
  intros Hget. apply unmodified_same_heap. intros [h r].
  unfold SerialReader.read, bind, gets, SerialReader.delayedMove, onHeap.
  cbn [fst snd]. specialize (Hget (SerialReader.dv r) (SerialReader.pos r) h).
  destruct (get _ _ h) as [[v | e |] h']; cbn [fst snd] in *; congruence.
Qed.

Lemma getUint_heap size view index h : snd (DataView.getUint size view index h) = h.
Proof.
  unfold DataView.getUint, DataView.GetViewValue, bind, ret.
  by destruct (_ || _).
Qed.

Lemma getInt_heap size view index h : snd (DataView.getInt size view index h) = h.
Proof.
  unfold DataView.getInt, DataView.GetViewValue, bind, ret.
  by destruct (_ || _).
Qed.

Lemma unmodified_ru8 : respects unmodified SerialReader.ru8.
Proof. apply (unmodified_read _ _ (getUint_heap 1)). Qed.

Lemma unmodified_ruv_loop fuel :
  forall n, respects unmodified (SerialReader.ruv_loop fuel n).
Proof.
  induction fuel as [| fuel IH]; intros n; simpl.
  - intros s. reflexivity.
  - repeat first [ apply unmodified_ru8 | apply IH | respects_step ].
Qed.

Lemma unmodified_ruv : respects unmodified SerialReader.ruv.
Proof. intros s. unfold SerialReader.ruv. apply unmodified_ruv_loop. Qed.

Lemma unmodified_rbytes : respects unmodified SerialReader.rbytes.
Proof.
  unfold SerialReader.rbytes.
  repeat first [ apply unmodified_ruv | respects_step ].
  - intros s l _. reflexivity.
  - intros [h r] l Hl. unfold onHeap, ArrayBuffer.slice, alloc. cbn [fst snd].
    rewrite lookup_insert_ne; [reflexivity |].
    intros Heq. symmetry in Heq. revert Heq. by apply fresh_ne.
Qed.

Lemma unmodified_read_missing {A} width :
  respects unmodified (@SerialReader.read_missing A width).
Proof. apply unmodified_same_heap. intros [h r]. reflexivity. Qed.

Lemma unmodified_rcall (op : rop) : respects unmodified (rcall op).
Proof.
  destruct op; cbn [rcall]; apply (respects_fmap unmodified).
  - apply (unmodified_read _ _ (getInt_heap 1)).
  - apply (unmodified_read _ _ (getInt_heap 2)).
  - apply (unmodified_read _ _ (getInt_heap 4)).
  - apply unmodified_read_missing.
  - apply unmodified_ru8.
  - apply (unmodified_read _ _ (getUint_heap 2)).
  - apply (unmodified_read _ _ (getUint_heap 4)).
  - apply unmodified_read_missing.
  - apply (unmodified_read _ _ (getUint_heap 4)).
  - apply (unmodified_read _ _ (getUint_heap 8)).
  - apply (respects_fmap unmodified), unmodified_ru8.
  - apply (respects_fmap unmodified), unmodified_ru8.
  - apply (respects_fmap unmodified), unmodified_ruv.
  - apply unmodified_ruv.
  - apply unmodified_rbytes.
  - apply unmodified_same_heap. intros [h r]. reflexivity.
Qed.

(** X12. A reader changes no buffer: after any sequence of reads,
    however they completed, every buffer that existed before, the
    reader's own among them, holds the bytes it held. *)
Theorem reader_leaves_buffers (ops : list rop) (s : SerialReader.state) (l : loc) :
  is_Some (fst s !! l) ->
  fst (after rcall ops s) !! l = fst s !! l.
Proof.
  intros Hl.
  apply (respects_after unmodified rcall ops unmodified_rcall s l Hl).
Qed.

Lemma reader_leaves_buffers_witness :
  fst (after rcall [Ru8; Rbytes; Ri64; Ruv; Rutf8; Rbytes] (reader_over [1; 2; 3; 4; 5])) !! O
  = Some [1; 2; 3; 4; 5].
Proof.
  etransitivity;
    [apply (reader_leaves_buffers [Ru8; Rbytes; Ri64; Ruv; Rutf8; Rbytes]
              (reader_over [1; 2; 3; 4; 5]) O)
    | apply lookup_singleton_eq].
  exists [1; 2; 3; 4; 5]. apply lookup_singleton_eq.
Defined.

(** ** What the varint readers can return *)

Lemma ToInt32_range (x : Z) : - 2 ^ 31 <= JS.ToInt32 x < 2 ^ 31.
Proof.
  unfold JS.ToInt32.
  pose proof (Z.mod_pos_bound (x + 2 ^ 31) (2 ^ 32) ltac:(lia)). lia.
Qed.

Lemma int32_shiftr (x : Z) :
  - 2 ^ 31 <= x < 2 ^ 31 <-> Z.shiftr x 31 = 0 \/ Z.shiftr x 31 = -1.
Proof.
  rewrite Z.shiftr_div_pow2 by lia.
  change (2 ^ 31) with 2147483648.
  pose proof (Z.div_mod x 2147483648 ltac:(lia)) as Hx.
  pose proof (Z.mod_pos_bound x 2147483648 ltac:(lia)) as Hr.
  lia.
Qed.

Lemma lor_int32 (a b : Z) :
  - 2 ^ 31 <= a < 2 ^ 31 -> - 2 ^ 31 <= b < 2 ^ 31 ->
  - 2 ^ 31 <= Z.lor a b < 2 ^ 31.
Proof.
  rewrite !int32_shiftr, Z.shiftr_lor.
  intros [-> | ->] [-> | ->]; cbn; auto.
Qed.

Lemma bor_range (a b : Z) : - 2 ^ 31 <= JS.bor a b < 2 ^ 31.
Proof. apply lor_int32; apply ToInt32_range. Qed.

Lemma varint_scan_range (rest : list Z) :
  forall (n v : Z) (k : nat),
    varint_scan rest n = (Normal v, k) -> - 2 ^ 31 <= v < 2 ^ 31.
Proof.
  induction rest as [| byte rest IH]; intros n v k; simpl; [discriminate |].
  destruct (_ =? 0).
  - intros [= <- _]. apply bor_range.
  - destruct (varint_scan rest _) as [c j] eqn:Hscan.
    intros [= -> _]. apply (IH _ _ _ Hscan).
Qed.

(** X13. What [ruv] returns is a signed 32-bit number: the accumulator
    of [(n << 7) | (byte & 0x7F)]. It is never [2^31] or more, however
    many bytes the varint has; a varint whose 32nd bit is set reads back
    negative. *)
Theorem ruv_result_int32 (s : SerialReader.state) (v : Z) :
  fst (SerialReader.ruv s) = Normal v -> - 2 ^ 31 <= v < 2 ^ 31.
Proof.
  destruct (decide (0 <= SerialReader.pos (snd s))) as [Hpos | Hneg].
  - rewrite ruv_spec by assumption. cbn [fst].
    destruct (varint_scan (ahead s) 0) as [c k] eqn:Hscan. cbn [fst].
    intros ->. apply (varint_scan_range _ _ _ _ Hscan).
  - rewrite ruv_negative by lia. discriminate.
Qed.

Lemma ruv_result_int32_witness :
  fst (SerialReader.ruv (reader_over [0x8F; 0xFF; 0xFF; 0xFF; 0x7F])) = Normal (-1)
  /\ - 2 ^ 31 <= -1 < 2 ^ 31.
Proof.
  split; [vm_compute; reflexivity |].
  apply (ruv_result_int32 (reader_over [0x8F; 0xFF; 0xFF; 0xFF; 0x7F]) (-1)).
  vm_compute. reflexivity.
Defined.

Lemma ushr_1_range (x : Z) : 0 <= JS.ushr x 1 < 2 ^ 31.
Proof.
  unfold JS.ushr, JS.ToUint32.
  change (1 mod 2 ^ 32 mod 32) with 1.
  rewrite Z.shiftr_div_pow2 by lia. change (2 ^ 1) with 2.
  pose proof (Z.mod_pos_bound x (2 ^ 32) ltac:(lia)) as Hx.
  change (2 ^ 32) with 4294967296 in *. change (2 ^ 31) with 2147483648.
  pose proof (Z.div_mod (x mod 4294967296) 2 ltac:(lia)) as Hd.
  pose proof (Z.mod_pos_bound (x mod 4294967296) 2 ltac:(lia)) as Hr.
  lia.
Qed.

(** X14. What [riv] returns lies strictly between [-2^31] and [2^31]:
    the magnitude is the 31 bits left of the sign bit. The least 32-bit
    integer [-2^31] is never read back, whatever the bytes. *)
Theorem riv_result_range (s : SerialReader.state) (v : Z) :
  fst (SerialReader.riv s) = Normal v -> - 2 ^ 31 < v < 2 ^ 31.
Proof.
  rewrite riv_spec. cbn [fst].
  destruct (fst (SerialReader.ruv s)) as [n | e |]; cbn [cmap]; try discriminate.
  intros [= <-].
  pose proof (ushr_1_range (JS.band n (JS.bnot 1))) as Hmag.
  destruct (JS.band n 1 =? 0); lia.
Qed.

Lemma riv_result_range_witness :
  fst (SerialReader.riv (reader_over [0x8F; 0xFF; 0xFF; 0xFF; 0x7F]))
  = Normal (- (2 ^ 31 - 1))
  /\ - 2 ^ 31 < - (2 ^ 31 - 1) < 2 ^ 31.
Proof.
  split; [vm_compute; reflexivity |].
  apply (riv_result_range (reader_over [0x8F; 0xFF; 0xFF; 0xFF; 0x7F])).
  vm_compute. reflexivity.
Defined.

Lemma varint_scan_completes (rest : list Z) :
  forall n : Z,
    match fst (varint_scan rest n) with
    | Normal _ => Exists (fun byte => JS.band byte 0x80 = 0) rest
    | Throw e => e = RangeError /\ Forall (fun byte => JS.band byte 0x80 ≠ 0) rest
    | OutOfFuel => False
    end.
Proof.
  induction rest as [| byte rest IH]; intros n; simpl.
  - by split.
  - destruct (Z.eqb_spec (JS.band byte 128) 0) as [Hend | Hmore]; cbn [fst].
    + by constructor.
    + specialize (IH (JS.bor (JS.shl n 7) (JS.band byte 127))).
      destruct (varint_scan rest _) as [[v | e |] k]; cbn [fst] in *.
      * by constructor 2.
      * destruct IH as [-> Hall]. split; [reflexivity | by constructor].
      * assumption.
Qed.

(** X15. [ruv] always completes, and only in two ways. It returns a
    number exactly when the cursor is not negative and some byte from the
    cursor on has a clear high bit; otherwise, the cursor being negative
    or every remaining byte a continuation byte (an empty rest among
    them), it throws a RangeError. The loop never runs on beyond the
    buffer. *)
Theorem ruv_completes (s : SerialReader.state) :
  match fst (SerialReader.ruv s) with
  | Normal _ =>
      0 <= SerialReader.pos (snd s)
      /\ Exists (fun byte => JS.band byte 0x80 = 0) (ahead s)
  | Throw e =>
      e = RangeError
      /\ (SerialReader.pos (snd s) < 0
          \/ Forall (fun byte => JS.band byte 0x80 ≠ 0) (ahead s))
  | OutOfFuel => False
  end.
Proof.
  destruct (decide (0 <= SerialReader.pos (snd s))) as [Hpos | Hneg].
  - rewrite ruv_spec by assumption. cbn [fst].
    pose proof (varint_scan_completes (ahead s) 0) as Hscan.
    destruct (fst (varint_scan (ahead s) 0)) as [v | e |].
    + by split.
    + destruct Hscan as [-> Hall]. split; [reflexivity | by right].
    + assumption.
  - rewrite ruv_negative by lia. cbn [fst]. split; [reflexivity | left; lia].
Qed.

(** X16. [ruv] takes encodings that [wuv] never writes: any number of
    leading bytes [0x80] are read and skipped, so a number has many
    encodings, and the cursor moves over all of them. *)
Theorem ruv_skips_padding (k : nat) (bs : list Z) :
  decoding (replicate k 0x80 ++ bs) SerialReader.ruv
  = (fst (decoding bs SerialReader.ruv),
     snd (decoding bs SerialReader.ruv) + Z.of_nat k).
Proof.
  assert (Hdec : forall field,
             decoding field SerialReader.ruv
             = (fst (varint_scan field 0), Z.of_nat (snd (varint_scan field 0)))).
  { intros field. unfold decoding.
    rewrite ruv_spec, ahead_decoding by (cbn; lia). reflexivity. }
  rewrite !Hdec. cbn [fst snd].
  induction k as [| k IH]; cbn [replicate app].
  - f_equal. lia.
  - cbn [varint_scan].
    change (JS.bor (JS.shl 0 7) (JS.band 128 127)) with 0.
    change (JS.band 128 128 =? 0) with false. cbv iota.
    destruct (varint_scan (replicate k 128 ++ bs) 0) as [c j].
    cbn [fst snd] in *. injection IH as -> Hj. f_equal. lia.
Qed.

(** ** The 64-bit methods *)

(** X17. The 64-bit integer methods never succeed: a DataView has no
    [setInt64], [setUint64], [getInt64] or [getUint64], so [wi64],
    [wu64], [ri64] and [ru64] throw a TypeError whatever the state and
    the value. The argument [delayedMove(8)] is evaluated first: the
    cursor has moved by 8 when the exception is thrown, and the writer's
    store, grown if it had to be, holds the bytes it held followed by
    zeros. *)
Theorem int64_methods_throw (w : wop) (r : rop)
    (s : SerialWriter.state) (t : SerialReader.state) :
  has_setter w = false -> has_accessor r = false -> wf s ->
  (exists k : nat,
      fst (wcall w s) = Throw TypeError
      /\ SerialWriter.pos (snd (snd (wcall w s))) = SerialWriter.pos (snd s) + 8
      /\ bytes_of (fst (snd (wcall w s))) (SerialWriter.dv (snd (snd (wcall w s))))
         = bytes_of (fst s) (SerialWriter.dv (snd s)) ++ replicate k 0)
  /\ rcall r t = (Throw TypeError, moved 8 t).
Proof.
  intros Hw Hr [Hdv _]. split.
  - assert (Hcall : wcall w = SerialWriter.write_missing 8)
      by (destruct w; try discriminate; reflexivity).
    rewrite Hcall. destruct s as [h ws]. cbn [fst snd] in *.
    unfold SerialWriter.write_missing, bind.
    rewrite delayedMove_spec by assumption. cbn zeta.
    destruct (_ <=? _); cbn [fst snd throw SerialWriter.dv SerialWriter.pos].
    + eexists. split; [reflexivity | split; [reflexivity |]].
      by rewrite bytes_of_insert_eq.
    + exists O. split; [reflexivity | split; [reflexivity |]].
      by rewrite app_nil_r.
  - assert (Hcall : rcall r = fmap_M VNum (SerialReader.read_missing 8))
      by (destruct r; try discriminate; reflexivity).
    rewrite Hcall, fmap_M_spec, read_missing_spec. reflexivity.
Qed.

Lemma int64_methods_throw_witness :
  fst (wcall (Wi64 5) (writer_over [7; 0; 0; 0; 0; 0; 0; 0] 1)) = Throw TypeError
  /\ SerialWriter.pos (snd (snd (wcall (Wi64 5) (writer_over [7; 0; 0; 0; 0; 0; 0; 0] 1))))
     = 9
  /\ rcall Ru64 (reader_over [1; 2; 3]) = (Throw TypeError, moved 8 (reader_over [1; 2; 3])).
Proof.
  destruct (int64_methods_throw (Wi64 5) Ru64
              (writer_over [7; 0; 0; 0; 0; 0; 0; 0] 1) (reader_over [1; 2; 3]))
    as [(k & Hthrow & Hpos & _) Hread].
  - reflexivity.
  - reflexivity.
  - split; [exists [7; 0; 0; 0; 0; 0; 0; 0]; reflexivity
           | vm_compute; split; discriminate].
  - split; [exact Hthrow | split; [exact Hpos | exact Hread]].
Defined.

(** ** Room in the store *)



(** ** Fields one after the other *)

Lemma is_fixed_write (op : wop) :
  is_fixed op = true ->
  exists (size : nat) (n : Z),
    (1 <= size)%nat
    /\ stored op = DataView.be_bytes size n
    /\ wcall op = SerialWriter.write (DataView.setUint size) (Z.of_nat size) n.
Proof.
  unfold is_fixed. destruct (wwidth op) as [width |] eqn:Hwidth; [| discriminate].
  intros Hsetter.
  destruct (wcall_write op width Hwidth Hsetter) as (size & n & _ & Hsize & Hraw & Hcall).
  by exists size, n.
Qed.

(** Fixed-width writes that all end below the capacity: their bytes land
    in the store one after the other, from the cursor on. *)
Lemma wcall_each_inplace (ops : list wop) :
  forall (h : heap) (w : SerialWriter.t),
    Forall (fun op => is_fixed op = true) ops ->
    is_Some (h !! SerialWriter.dv w) ->
    0 <= SerialWriter.pos w ->
    SerialWriter.pos w + Z.of_nat (length (concat (stored <$> ops)))
    < byteLength h (SerialWriter.dv w) ->
    let old := bytes_of h (SerialWriter.dv w) in
    let i := Z.to_nat (SerialWriter.pos w) in
    let fields := concat (stored <$> ops) in
    wcall_each ops (h, w) =
      (Normal tt,
       (<[SerialWriter.dv w := take i old ++ fields ++ drop (i + length fields) old]> h,
        {| SerialWriter.dv := SerialWriter.dv w;
           SerialWriter.pos := SerialWriter.pos w + Z.of_nat (length fields) |})).
Proof.
  induction ops as [| op ops IH]; intros h w Hfixed Hdv Hpos Hroom; cbn zeta.
  - cbn [wcall_each foldr fmap list_fmap concat length app]. unfold ret.
    rewrite Nat.add_0_r, take_drop, Z.add_0_r.
    destruct Hdv as [bs Hbs]. rewrite (bytes_of_lookup _ _ _ Hbs), insert_id by assumption.
    by destruct w.
  - apply Forall_cons in Hfixed as [Hop Hrest].
    destruct (is_fixed_write op Hop) as (size & n & Hsize & Hraw & Hcall).
    cbn [wcall_each foldr]. fold (wcall_each ops).
    rewrite fmap_cons. cbn [concat]. rewrite Hraw.
    rewrite fmap_cons in Hroom. cbn [concat] in Hroom.
    rewrite Hraw, length_app, be_bytes_length in Hroom.
    set (fields := concat (stored <$> ops)) in *.
    set (old := bytes_of h (SerialWriter.dv w)) in *.
    set (i := Z.to_nat (SerialWriter.pos w)).
    assert (Hcap : byteLength h (SerialWriter.dv w) = Z.of_nat (length old)) by reflexivity.
    unfold bind at 1. rewrite Hcall.
    rewrite write_cases by (try assumption; lia). cbn zeta.
    rewrite (proj2 (Z.leb_gt _ _)) by lia.
    fold old i.
    set (old1 := take i old ++ DataView.be_bytes size n ++ drop (i + size) old).
    assert (Hlen1 : length old1 = length old).
    { unfold old1. rewrite !length_app, length_take, length_drop, be_bytes_length.
      unfold i. lia. }
    rewrite IH; cbn [SerialWriter.dv SerialWriter.pos].
    + rewrite bytes_of_insert_eq, insert_insert_eq. fold old1.
      rewrite length_app, be_bytes_length.
      do 2 f_equal; [| f_equal; lia].
      f_equal.
      replace (Z.to_nat (SerialWriter.pos w + Z.of_nat size)) with (i + size)%nat
        by (unfold i; lia).
      assert (Hi : length (take i old) = i)
        by (rewrite length_take; unfold i; lia).
      assert (Htake : take (i + size) old1 = take i old ++ DataView.be_bytes size n).
      { unfold old1. rewrite app_assoc. apply take_app_length'.
        rewrite length_app, be_bytes_length. lia. }
      assert (Hdrop : drop (i + size + length fields) old1
                      = drop (i + (size + length fields)) old).
      { unfold old1. rewrite app_assoc.
        rewrite drop_app_ge by (rewrite length_app, be_bytes_length; lia).
        rewrite length_app, be_bytes_length, Hi, drop_drop. f_equal. lia. }
      rewrite Htake, Hdrop, <- !app_assoc. reflexivity.
    + assumption.
    + rewrite lookup_insert_eq. eauto.
    + lia.
    + unfold byteLength. rewrite bytes_of_insert_eq. fold old1. rewrite Hlen1. lia.
Qed.

(** X23. Fixed-width values written one after the other into a new
    writer come out one after the other, each as its big-endian bytes, as
    long as all of them together take fewer than eight bytes (the new
    writer's capacity). *)
Theorem writes_concatenate (ops : list wop) :
  Forall (fun op => is_fixed op = true) ops ->
  Z.of_nat (length (concat (stored <$> ops))) < 8 ->
  encoding (wcall_each ops) = Normal (concat (stored <$> ops)).
Proof.
  intros Hfixed Hsmall.
  destruct new_writer as (w0 & h0 & Hnew & Hpos0 & Hstore).
  pose proof (bytes_of_lookup _ _ _ Hstore) as Hold.
  pose proof (wcall_each_inplace ops h0 w0 Hfixed ltac:(eauto) ltac:(lia)) as Hrun.
  cbn zeta in Hrun. unfold byteLength in Hrun. rewrite Hold, Hpos0 in Hrun.
  specialize (Hrun ltac:(cbn; lia)).
  destruct (written_spec _ _ _ _ _ Hnew Hrun ltac:(cbn; lia)) as (_ & Henc & _).
  rewrite Henc. cbn [SerialWriter.dv SerialWriter.pos].
  rewrite bytes_of_insert_eq. f_equal.
  change (Z.to_nat 0) with O. rewrite take_0. cbn [app].
  apply take_app_length'. lia.
Qed.

Lemma writes_concatenate_witness :
  encoding (wcall_each [Wu8 7; Wi16 (-2); Wu32 0x01020304])
  = Normal [7; 0xFF; 0xFE; 1; 2; 3; 4].
Proof.
  rewrite (writes_concatenate [Wu8 7; Wi16 (-2); Wu32 0x01020304]).
  - vm_compute. reflexivity.
  - repeat constructor.
  - vm_compute. reflexivity.
Defined.

Lemma bind_ret_tt {S} (m : M S unit) (s : S) : (m ;;; ret tt) s = m s.
Proof. unfold bind, ret. by destruct (m s) as [[[] | e |] s']. Qed.

(** An unsigned read of a number whose bytes lie at the cursor. *)
Lemma read_uint_at (size : nat) (n : Z) (rest : list Z) (s : SerialReader.state) :
  (1 <= size)%nat ->
  0 <= SerialReader.pos (snd s) ->
  ahead s = DataView.be_bytes size n ++ rest ->
  SerialReader.read (DataView.getUint size) (Z.of_nat size) s
  = (Normal (n mod 256 ^ Z.of_nat size), moved (Z.of_nat size) s)
  /\ ahead (moved (Z.of_nat size) s) = rest.
Proof.
  intros Hsize Hpos Hahead.
  assert (Hlen : length (ahead s) = (size + length rest)%nat)
    by (by rewrite Hahead, length_app, be_bytes_length).
  unfold ahead in Hlen. rewrite length_drop in Hlen.
  split.
  - rewrite read_getUint.
    rewrite (proj2 (Z.ltb_ge _ 0)) by lia. cbn [orb].
    unfold byteLength. rewrite (proj2 (Z.ltb_ge _ _)) by lia.
    rewrite Hahead, take_app_length' by (by rewrite be_bytes_length).
    rewrite be_uint_be_bytes. do 2 f_equal; lia.
  - unfold ahead, moved in *. cbn [fst snd SerialReader.dv SerialReader.pos].
    replace (Z.to_nat (SerialReader.pos (snd s) + Z.of_nat size))
      with (Z.to_nat (SerialReader.pos (snd s)) + size)%nat by lia.
    rewrite <- drop_drop, Hahead.
    apply drop_app_length'. by rewrite be_bytes_length.
Qed.

(** X24. A record of an 8-bit, a 16-bit and a 32-bit unsigned integer,
    written field by field into a new writer and read back field by field
    from the extracted buffer, comes back as it was written (each field
    reduced to its width). *)
Theorem record_roundtrip (a b c : Z) :
  roundtrip
    (SerialWriter.wu8 a ;;; SerialWriter.wu16 b ;;; SerialWriter.wu32 c)
    (x <- SerialReader.ru8 ;; y <- SerialReader.ru16 ;; z <- SerialReader.ru32 ;;
     ret (x, y, z))
  = Normal (a mod 2 ^ 8, b mod 2 ^ 16, c mod 2 ^ 32).
Proof.
  destruct new_writer as (w0 & h0 & Hnew & Hpos0 & Hstore).
  pose proof (bytes_of_lookup _ _ _ Hstore) as Hold.
  pose proof (wcall_each_inplace [Wu8 a; Wu16 b; Wu32 c] h0 w0) as Hrun.
  cbn zeta in Hrun. unfold byteLength in Hrun. rewrite Hold, Hpos0 in Hrun.
  specialize (Hrun ltac:(repeat constructor) ltac:(eauto) ltac:(lia) ltac:(cbn; lia)).
  assert (Hbody :
    (SerialWriter.wu8 a ;;; SerialWriter.wu16 b ;;; SerialWriter.wu32 c) (h0, w0)
    = wcall_each [Wu8 a; Wu16 b; Wu32 c] (h0, w0)).
  { cbn [wcall_each foldr wcall]. unfold bind at 1 3.
    destruct (SerialWriter.wu8 a (h0, w0)) as [[[] | e |] s1]; try reflexivity.
    unfold bind at 1 2.
    destruct (SerialWriter.wu16 b s1) as [[[] | e |] s2]; try reflexivity.
    by rewrite bind_ret_tt. }
  rewrite <- Hbody in Hrun.
  destruct (written_spec _ _ _ _ _ Hnew Hrun ltac:(cbn; lia)) as (_ & _ & Hround).
  rewrite Hround. clear Hround Hrun Hbody.
  cbn [SerialWriter.dv SerialWriter.pos].
  rewrite bytes_of_insert_eq.
  match goal with
  | |- context [(?h, SerialReader.constructor ?out None)] =>
      set (s0 := (h, SerialReader.constructor out None))
  end.
  assert (Hahead : ahead s0
                   = DataView.be_bytes 1 a
                     ++ DataView.be_bytes 2 b ++ DataView.be_bytes 4 c ++ []).
  { unfold ahead, s0. cbn [fst snd SerialReader.constructor SerialReader.dv
                            SerialReader.pos default].
    rewrite bytes_of_insert_eq. reflexivity. }
  destruct (read_uint_at 1 a _ s0 ltac:(lia) ltac:(cbn; lia) Hahead) as [Hx Hahead1].
  destruct (read_uint_at 2 b _ (moved (Z.of_nat 1) s0) ltac:(lia) ltac:(cbn; lia) Hahead1)
    as [Hy Hahead2].
  destruct (read_uint_at 4 c _ (moved (Z.of_nat 2) (moved (Z.of_nat 1) s0))
              ltac:(lia) ltac:(cbn; lia) Hahead2) as [Hz _].
  change (SerialReader.read (DataView.getUint 1) (Z.of_nat 1)) with SerialReader.ru8 in Hx.
  change (SerialReader.read (DataView.getUint 2) (Z.of_nat 2)) with SerialReader.ru16 in Hy.
  change (SerialReader.read (DataView.getUint 4) (Z.of_nat 4)) with SerialReader.ru32 in Hz.
  unfold bind. rewrite Hx, Hy, Hz. reflexivity.
Qed.

(** ** A byte run at the cursor *)

(** X25. [rbytes] over a well-formed byte run: when the bytes at the
    cursor are a varint that decodes to the length of the payload that
    follows it, [rbytes] returns a buffer holding exactly the payload and
    leaves the cursor right after it, whatever follows. *)
Theorem rbytes_reads_run (prefix payload rest : list Z) :
  varint_scan prefix 0 = (Normal (Z.of_nat (length payload)), length prefix) ->
  decoding (prefix ++ payload ++ rest) (observed Rbytes)
  = (Normal (inr payload), Z.of_nat (length prefix + length payload)).
Proof.
  intros Hscan. unfold decoding.
  set (s := reader_over (prefix ++ payload ++ rest)).
  assert (Hpos : 0 <= SerialReader.pos (snd s)) by (cbn; lia).
  assert (Hdv : is_Some (fst s !! SerialReader.dv (snd s)))
    by (cbn; rewrite lookup_singleton_eq; eauto).
  pose proof (ahead_decoding (prefix ++ payload ++ rest)) as Hahead. fold s in Hahead.
  pose proof (varint_scan_app _ (payload ++ rest) _ _ _ Hscan) as Hwhole.
  destruct (observed_spec Rbytes s Hpos Hdv) as (h' & Hobs & _).
  { unfold length_ok. rewrite Hahead, Hwhole. lia. }
  rewrite Hobs, Hahead. unfold decode, radvance. rewrite Hwhole.
  cbn [snd moved SerialReader.pos]. f_equal.
  - rewrite drop_app_length, Nat2Z.id, take_app_length. reflexivity.
  - cbn. lia.
Qed.

Lemma rbytes_reads_run_witness :
  decoding ([0x03] ++ [7; 8; 9] ++ [1; 1]) (observed Rbytes)
  = (Normal (inr [7; 8; 9]), 4).
Proof.
  apply (rbytes_reads_run [0x03] [7; 8; 9] [1; 1]). vm_compute. reflexivity.
Defined.

(** X26. [new SerialWriter(buffer).getBuffer()] is a copy of [buffer]:
    a buffer that did not exist before, holding the same bytes, while
    [buffer] itself still holds them. *)
Theorem writer_over_buffer_extracts_copy (h : heap) (buffer : loc) :
  exists out h',
    lift_new (SerialWriter.constructor (Some buffer)) SerialWriter.getBuffer h
    = (Normal out, h')
    /\ h !! out = None
    /\ bytes_of h' out = bytes_of h buffer
    /\ bytes_of h' buffer = bytes_of h buffer.
Proof.
  unfold lift_new. rewrite constructor_Some.
  unfold SerialWriter.getBuffer, bind, gets, onHeap, ArrayBuffer.slice, alloc.
  cbn [fst snd SerialWriter.dv SerialWriter.pos].
  rewrite bytes_of_insert_eq. unfold byteLength. rewrite slice_bytes_whole.
  set (store := fresh (dom h)).
  set (h0 := <[store := bytes_of h buffer]> h).
  set (out := fresh (dom h0)).
  assert (Hstore : h !! store = None) by apply fresh_None.
  assert (Hout0 : h0 !! out = None) by apply fresh_None.
  assert (Hne : store ≠ out).
  { intros Heq. rewrite <- Heq in Hout0. unfold h0 in Hout0.
    rewrite lookup_insert_eq in Hout0. discriminate. }
  exists out, (<[out := bytes_of h buffer]> h0).
  split; [reflexivity |].
  split; [unfold h0 in Hout0; by rewrite lookup_insert_ne in Hout0 |].
  split; [apply bytes_of_insert_eq |].
  destruct (decide (out = buffer)) as [Hbo | Hbo];
    [rewrite <- Hbo at 2; apply bytes_of_insert_eq |].
  rewrite bytes_of_insert_ne by exact Hbo.
  destruct (decide (store = buffer)) as [Hbs | Hbs];
    [unfold h0; rewrite <- Hbs at 2; apply bytes_of_insert_eq |].
  unfold h0. by rewrite bytes_of_insert_ne by exact Hbs.
Qed.

(** ** Text on the wire *)

(** [wbytes] of a typed array is [wbytes] of the buffer of its copy. *)
Lemma wbytes_typed (e : loc) (h : heap) (w : SerialWriter.t) :
  SerialWriter.wbytes (OfTypedArray e) (h, w)
  = SerialWriter.wbytes (OfArrayBuffer (fresh (dom h)))
      (<[fresh (dom h) := JS.ToUint8 <$> bytes_of h e]> h, w).
Proof. reflexivity. Qed.

(** X27. [wutf8] writes a string as a byte run: in a new writer, for a
    string whose UTF-8 encoding has from 2 up to [2^31 - 1] bytes, not a
    power of 128, what comes out is a varint prefix that [ruv] reads as
    the number of bytes, of [varint_size] bytes itself, followed by the
    UTF-8 bytes of the string, however many times the store had to
    grow. *)
Theorem wutf8_encoding (str : list Z) :
  let payload := JS.ToUint8 <$> Text.encode str in
  let n := Z.of_nat (length payload) in
  2 <= n < 2 ^ 31 ->
  (forall k : nat, n ≠ 128 ^ Z.of_nat k) ->
  exists prefix,
    encoding (SerialWriter.wutf8 str) = Normal (prefix ++ payload)
    /\ varint_scan prefix 0 = (Normal n, length prefix)
    /\ Z.of_nat (length prefix) = varint_size n.
Proof.
  intros payload n Hn Hpower.
  destruct (varint_prefix n Hn Hpower) as [Hpasses Hscan].
  set (passes := JS.countdown (JS.ceil_log2_div7 n)) in *.
  set (prefix := JS.ToUint8 <$> varint_bytes passes n) in *.
  assert (Hprefix : length prefix = passes).
  { unfold prefix. rewrite length_fmap. clear. induction passes; simpl; congruence. }
  exists prefix. rewrite Hprefix.
  split; [| split; [exact Hscan |]].
  - destruct new_writer as (w0 & h0 & Hnew & Hpos0 & Hstore).
    set (e := fresh (dom h0)).
    set (he := <[e := Text.encode str]> h0).
    set (c := fresh (dom he)).
    set (hc := <[c := payload]> he).
    assert (Hdv0 : is_Some (h0 !! SerialWriter.dv w0)) by eauto.
    assert (Hne_e : SerialWriter.dv w0 ≠ e) by (by apply fresh_ne).
    assert (Hdve : is_Some (he !! SerialWriter.dv w0))
      by (unfold he; by rewrite lookup_insert_ne).
    assert (Hne_c : SerialWriter.dv w0 ≠ c) by (by apply fresh_ne).
    assert (Hrun : SerialWriter.wutf8 str (h0, w0)
                   = SerialWriter.wbytes (OfArrayBuffer c) (hc, w0)).
    { unfold SerialWriter.wutf8, bind at 1, onHeap, alloc. cbn [fst snd].
      fold e he. rewrite wbytes_typed. fold c.
      assert (Hcopy : bytes_of he e = Text.encode str) by apply bytes_of_insert_eq.
      by rewrite Hcopy. }
    destruct (wbytes_alone hc c payload w0 hc) as (h1 & w1 & Hbody & Hpos1 & Hbytes).
    + fold n passes. lia.
    + exact Hpos0.
    + unfold hc, he. by rewrite !lookup_insert_ne.
    + unfold hc. by rewrite lookup_insert_eq.
    + congruence.
    + fold n passes prefix in Hpos1, Hbytes.
      rewrite <- Hrun in Hbody.
      destruct (written_spec _ _ _ _ _ Hnew Hbody ltac:(lia)) as (_ & Henc & _).
      rewrite Henc, Hpos1, Nat2Z.id. by rewrite Hbytes.
  - assert (Hnot : n ≠ 128 ^ Z.of_nat passes) by apply Hpower.
    rewrite (varint_size_countdown n ltac:(lia) Hnot). reflexivity.
Qed.

Lemma wutf8_encoding_witness :
  exists prefix,
    encoding (SerialWriter.wutf8 [0x68; 0x69; 0x21]) = Normal (prefix ++ [0x68; 0x69; 0x21])
    /\ varint_scan prefix 0 = (Normal 3, length prefix)
    /\ Z.of_nat (length prefix) = 1.
Proof.
  destruct (wutf8_encoding [0x68; 0x69; 0x21]) as (prefix & Henc & Hscan & Hsize).
  - split; [cbn; lia | reflexivity].
  - apply (between_powers 3 0). split; reflexivity.
  - exists prefix. split; [exact Henc | split; [exact Hscan | exact Hsize]].
Defined.

(** ** Fixed-width reads, byte by byte *)

(** X28. The fixed-width integer reads are big-endian and move the
    cursor by their width: over bytes [b0, b1, ...] at the start of a
    buffer, [ru8] returns [b0], [ru16] returns [b0 * 256 + b1] and [ru32]
    the number with the four base-256 digits [b0, b1, b2, b3]; [ri8]
    returns a byte of 128 or more as that byte minus 256. *)
Theorem big_endian_reads (b0 b1 b2 b3 : Z) (rest : list Z) :
  decoding (b0 :: rest) SerialReader.ru8 = (Normal b0, 1)
  /\ decoding (b0 :: b1 :: rest) SerialReader.ru16 = (Normal (b0 * 256 + b1), 2)
  /\ decoding (b0 :: b1 :: b2 :: b3 :: rest) SerialReader.ru32
     = (Normal (((b0 * 256 + b1) * 256 + b2) * 256 + b3), 4)
  /\ decoding (b0 :: rest) SerialReader.ri8
     = (Normal (if 128 <=? b0 then b0 - 256 else b0), 1).
Proof.
  assert (Hrun : forall (size : nat) (bs : list Z),
             (size <= length bs)%nat ->
             decoding bs (SerialReader.read (DataView.getUint size) (Z.of_nat size))
             = (Normal (DataView.be_uint 0 (take size bs)), Z.of_nat size)
             /\ decoding bs (SerialReader.read (DataView.getInt size) (Z.of_nat size))
                = (Normal (DataView.signed (8 * Z.of_nat size)
                             (DataView.be_uint 0 (take size bs))), Z.of_nat size)).
  { intros size bs Hsize. unfold decoding.
    rewrite read_getUint, read_getInt, ahead_decoding.
    unfold byteLength, reader_over.
    cbn [fst snd SerialReader.constructor SerialReader.dv SerialReader.pos default moved].
    unfold bytes_of. rewrite lookup_singleton_eq. cbn [default orb Z.ltb Z.compare].
    unfold id. rewrite (proj2 (Z.ltb_ge _ _)) by lia. by split. }
  split_all.
  - apply (Hrun 1%nat (b0 :: rest)). cbn. lia.
  - destruct (Hrun 2%nat (b0 :: b1 :: rest)) as [Hu _]; [cbn; lia |].
    etransitivity; [exact Hu |]. reflexivity.
  - destruct (Hrun 4%nat (b0 :: b1 :: b2 :: b3 :: rest)) as [Hu _]; [cbn; lia |].
    etransitivity; [exact Hu |]. reflexivity.
  - destruct (Hrun 1%nat (b0 :: rest)) as [_ Hi]; [cbn; lia |].
    etransitivity; [exact Hi |]. reflexivity.
Qed.
